(** * itqLsh: locality-sensitive hashing by iterative quantization

    A shallow embedding of [lshbox::itqLsh<float>] (file
    [include/lshbox/lsh/itqlsh.h]) and the properties of its hashing,
    bucket index, query path, training frame and persistence.

    Conventions of the embedding.
    - [unsigned] is a [Z] in [0, 2^32); every arithmetic operation of the
      source on [unsigned] is followed by [wrap32].
    - [float] is the IEEE-754 binary32 object, kept as its four bytes of
      storage (least significant first), so that [save]/[load], which copy
      storage, are exact; arithmetic decodes to [spec_float], computes with
      precision 24 and maximal exponent 128 (round to nearest even) and
      encodes back.
    - [std::vector] is a [list]; [v[i]] with [i] outside the vector is
      undefined behaviour in the source and [None] here.  Every operation
      that can reach undefined behaviour returns an [option].
    - [std::map<unsigned, std::vector<unsigned>>] is a [gmap Z (list Z)];
      iteration over it visits the keys in increasing order.
    - the template argument [DATATYPE] is its default, [float]. *)

From Stdlib Require Import ZArith List Lia.
From Stdlib Require Import Floats.SpecFloat.
From coqutil Require Import Byte Word.LittleEndianList.
From stdpp Require Import base option list gmap sorting.

Local Open Scope Z_scope.

(** ** Machine integers *)

Definition wrap32 (z : Z) : Z := z mod 2 ^ 32.

Definition is_u32 (z : Z) : Prop := 0 <= z < 2 ^ 32.

#[global] Instance is_u32_dec z : Decision (is_u32 z).
Proof. unfold is_u32. apply _. Defined.

(** ** binary32 *)

Module F32.

(** The object representation: four bytes, least significant first. *)
Record float := Float { b0 : byte; b1 : byte; b2 : byte; b3 : byte }.

Definition to_bytes (x : float) : list byte := [b0 x; b1 x; b2 x; b3 x].

Definition zero_byte : byte := Byte.x00.

Definition of_bytes (bs : list byte) : float :=
  Float (nth 0 bs zero_byte) (nth 1 bs zero_byte)
        (nth 2 bs zero_byte) (nth 3 bs zero_byte).

Definition bits (x : float) : Z := le_combine (to_bytes x).
Definition of_bits (z : Z) : float := of_bytes (le_split 4 z).

(** Decoding of the 32 bits: sign (bit 31), biased exponent (bits
    30..23), fraction (bits 22..0). *)
Definition decode (b : Z) : spec_float :=
  let s := Z.testbit b 31 in
  let e := Z.land (Z.shiftr b 23) 255 in
  let m := Z.land b (Z.ones 23) in
  if e =? 0 then
    match m with
    | Zpos p => S754_finite s p (-149)
    | _ => S754_zero s
    end
  else if e =? 255 then
    (if m =? 0 then S754_infinity s else S754_nan)
  else
    match m + 2 ^ 23 with
    | Zpos p => S754_finite s p (e - 150)
    | _ => S754_nan
    end.

Definition sign_bit (s : bool) : Z := if s then 2 ^ 31 else 0.

Definition encode (x : spec_float) : Z :=
  match x with
  | S754_zero s => sign_bit s
  | S754_infinity s => sign_bit s + 255 * 2 ^ 23
  | S754_nan => 255 * 2 ^ 23 + 2 ^ 22
  | S754_finite s m e =>
      sign_bit s +
      (if Zpos m <? 2 ^ 23 then Zpos m
       else (e + 150) * 2 ^ 23 + (Zpos m - 2 ^ 23))
  end.

Definition value (x : float) : spec_float := decode (bits x).
Definition of_value (v : spec_float) : float := of_bits (encode v).

Definition zero : float := of_bits 0.

Definition add (x y : float) : float :=
  of_value (SFadd 24 128 (value x) (value y)).

Definition mul (x y : float) : float :=
  of_value (SFmul 24 128 (value x) (value y)).

Definition sub (x y : float) : float :=
  of_value (SFsub 24 128 (value x) (value y)).

Definition div (x y : float) : float :=
  of_value (SFdiv 24 128 (value x) (value y)).

(** [x > 0], the int 0 converted to [0.0f]. *)
Definition gt0 (x : float) : bool := SFltb (S754_zero false) (value x).

(** Conversion of an integer, [float(n)]. *)
Definition of_Z (n : Z) : float :=
  of_value (binary_normalize 24 128 n 0 false).

#[global] Instance float_inhabited : Inhabited float := populate zero.

#[global] Instance float_eq_dec : EqDecision float.
Proof.
  intros [a0 a1 a2 a3] [c0 c1 c2 c3].
  destruct (Byte.eqb a0 c0) eqn:E0; [|right; intros [=]; subst;
    rewrite Byte.byte_dec_lb in E0; congruence].
  destruct (Byte.eqb a1 c1) eqn:E1; [|right; intros [=]; subst;
    rewrite Byte.byte_dec_lb in E1; congruence].
  destruct (Byte.eqb a2 c2) eqn:E2; [|right; intros [=]; subst;
    rewrite Byte.byte_dec_lb in E2; congruence].
  destruct (Byte.eqb a3 c3) eqn:E3; [|right; intros [=]; subst;
    rewrite Byte.byte_dec_lb in E3; congruence].
  left. apply Byte.byte_dec_bl in E0, E1, E2, E3. congruence.
Defined.

End F32.

Abbreviation float := F32.float.

(** ** Counted loops

    [for (unsigned i = first; i != first + n; ++i) body], the body being
    able to reach undefined behaviour. *)

Fixpoint for_from {A : Type} (i n : nat) (body : nat → A → option A) (a : A)
  : option A :=
  match n with
  | O => Some a
  | S n' => a' ← body i a; for_from (S i) n' body a'
  end.

Definition for_upto {A : Type} (n : nat) (body : nat → A → option A) (a : A)
  : option A := for_from 0 n body a.

(** ** The index *)

(** [struct Parameter].  [Parameter] is a reserved word here, and the
    field names [M], [L], [D], [N], [S], [I] are those of constructors and
    modules of the standard library, hence [Param] and the prefix [p]. *)
Record Param := mkParam {
  pM : Z;  (** hash table size *)
  pL : Z;  (** number of hash tables *)
  pD : Z;  (** dimension of the vectors *)
  pN : Z;  (** binary code length *)
  pS : Z;  (** size of the training sample *)
  pI : Z   (** training iterations *)
}.

(** The private members of [itqLsh]. *)
Record itqLsh := mkLsh {
  param : Param;
  pcsAll : list (list (list float));
  omegasAll : list (list (list float));
  rndArray : list (list Z);
  tables : list (gmap Z (list Z))
}.

Definition nL (st : itqLsh) : nat := Z.to_nat (pL (param st)).
Definition nN (st : itqLsh) : nat := Z.to_nat (pN (param st)).
Definition nD (st : itqLsh) : nat := Z.to_nat (pD (param st)).

(** ** getHashVal *)

(** The inner loop of the projection, [domin_pc[i] += domin[j] * pcsAll[k][i][j]]. *)
Definition project_row (domin row : list float) (i : nat)
  (domin_pc : list float) : option (list float) :=
  for_upto (length row)
    (λ j dp,
       x ← domin !! j;
       c ← row !! j;
       acc ← dp !! i;
       Some (<[i := F32.add acc (F32.mul x c)]> dp))
    domin_pc.

(** The inner loop of a bit, [product += float(domin_pc[j] * omegasAll[k][i][j])]. *)
Definition rotate_row (domin_pc orow : list float) : option float :=
  for_upto (length orow)
    (λ j product,
       p ← domin_pc !! j;
       w ← orow !! j;
       Some (F32.add product (F32.mul p w)))
    F32.zero.

(** [if (product > 0) sum += rndArray[k][i]] *)
Definition add_weight (st : itqLsh) (k i : nat) (product : float) (sum : Z)
  : option Z :=
  if F32.gt0 product then
    rnd ← rndArray st !! k;
    r ← rnd !! i;
    Some (wrap32 (sum + r))
  else Some sum.

(** [getHashVal].  A pointer [const float *domin] is the storage it points
    to, from the pointed element on.  [sum % param.M] is undefined for
    [M = 0]. *)
Definition getHashVal (st : itqLsh) (k : nat) (domin : list float) : option Z :=
  pcs ← pcsAll st !! k;
  domin_pc ← for_upto (length pcs)
    (λ i dp, row ← pcs !! i; project_row domin row i dp)
    (replicate (length pcs) F32.zero);
  sum ← for_upto (length domin_pc)
    (λ i sum,
       om ← omegasAll st !! k;
       orow ← om !! i;
       product ← rotate_row domin_pc orow;
       add_weight st k i product sum)
    0;
  if pM (param st) =? 0 then None else Some (sum mod pM (param st)).

(** ** The bucket index *)

(** [std::map::operator[]]: the mapped vector, created empty when the key
    is absent. *)
Definition map_subscript (t : gmap Z (list Z)) (h : Z)
  : list Z * gmap Z (list Z) :=
  match t !! h with
  | Some ids => (ids, t)
  | None => ([], <[h := []]> t)
  end.

(** [t[h].push_back(key)] *)
Definition bucket_push (t : gmap Z (list Z)) (h key : Z) : gmap Z (list Z) :=
  let '(ids, t') := map_subscript t h in <[h := ids ++ [key]]> t'.

Definition set_tables (ts : list (gmap Z (list Z))) (st : itqLsh) : itqLsh :=
  mkLsh (param st) (pcsAll st) (omegasAll st) (rndArray st) ts.

(** One turn of the loop of [insert]:
    [tables[k][getHashVal(k, domin)].push_back(key)]. *)
Definition insert_table (key : Z) (domin : list float) (k : nat) (st : itqLsh)
  : option itqLsh :=
  hashVal ← getHashVal st k domin;
  t ← tables st !! k;
  Some (set_tables (<[k := bucket_push t hashVal key]> (tables st)) st).

Definition insert (key : Z) (domin : list float) (st : itqLsh) : option itqLsh :=
  for_upto (nL st) (insert_table key domin) st.

(** Modelled from the spec: the vector container [Matrix<float>], which is
    not part of the file.  It supplies the number of rows, the dimension
    and row access by index; rows are contiguous in memory, so that the
    pointer [data[i]] is the storage from offset [i * dim] on. *)
Record Matrix := mkMatrix {
  mat_dim : nat;
  mat_size : nat;
  mat_dims : list float
}.

Definition getSize (data : Matrix) : nat := mat_size data.
Definition getDim (data : Matrix) : nat := mat_dim data.
Definition mat_row (data : Matrix) (i : nat) : list float :=
  drop (i * mat_dim data) (mat_dims data).

(** [hash]; the progress display has no effect on the index. *)
Definition hash (data : Matrix) (st : itqLsh) : option itqLsh :=
  for_upto (getSize data)
    (λ i st, insert (Z.of_nat i) (mat_row data i) st) st.

(** ** The query path

    The scanner is a collaborator; a query is observed through the calls
    it makes on the scanner, in order. *)
Inductive ScannerCall :=
| ScanReset (domin : list float)
| ScanOffer (id : Z)
| ScanGenTopk.

(** One turn of the loop of [query]: the bucket is read through
    [operator[]] only when [find] has found it. *)
Definition query_table (domin : list float) (k : nat)
  (acc : itqLsh * list ScannerCall) : option (itqLsh * list ScannerCall) :=
  let '(st, calls) := acc in
  hashVal ← getHashVal st k domin;
  t ← tables st !! k;
  match t !! hashVal with
  | Some _ =>
      let '(ids, t') := map_subscript t hashVal in
      Some (set_tables (<[k := t']> (tables st)) st,
            calls ++ (ScanOffer <$> ids))
  | None => Some (st, calls)
  end.

Definition query (domin : list float) (st : itqLsh)
  : option (itqLsh * list ScannerCall) :=
  '(st', calls) ← for_upto (nL st) (query_table domin) (st, [ScanReset domin]);
  Some (st', calls ++ [ScanGenTopk]).

(** ** Random numbers

    [std::mt19937] and the two distributions used by the index belong to
    the C++ library.  The index only relies on the range of
    [uniform_int_distribution]. *)
Class StdRandom := {
  mt19937 : Type;
  mt_seed : Z → mt19937;
  uniform_int : Z → Z → mt19937 → Z * mt19937;
  normal_state : Type;
  normal_init : normal_state;
  normal_float : normal_state → mt19937 → float * normal_state * mt19937;
  uniform_int_range : ∀ a b g, a ≤ b → a ≤ (uniform_int a b g).1 ≤ b
}.

Section Reset.
Context {RNG : StdRandom}.

(** [for (i = 0; i != N; ++i) iter->push_back(usArray(rng))] *)
Fixpoint push_draws (n : nat) (hi : Z) (v : list Z) (g : mt19937)
  : list Z * mt19937 :=
  match n with
  | O => (v, g)
  | S n' =>
      let '(x, g') := uniform_int 0 hi g in
      push_draws n' hi (v ++ [x]) g'
  end.

(** The loop over the iterators of [rndArray]. *)
Fixpoint fill_rnd (n : nat) (hi : Z) (vs : list (list Z)) (g : mt19937)
  : list (list Z) * mt19937 :=
  match vs with
  | [] => ([], g)
  | v :: vs' =>
      let '(v', g') := push_draws n hi v g in
      let '(vs'', g'') := fill_rnd n hi vs' g' in
      (v' :: vs'', g'')
  end.

(** [reset]; [now] is the value of [std::time(0)]. *)
Definition reset (param_ : Param) (now : Z) (st : itqLsh) : itqLsh :=
  let l := Z.to_nat (pL param_) in
  let tables' := resize l ∅ (tables st) in
  let rndArray' := resize l [] (rndArray st) in
  let pcsAll' := resize l [] (pcsAll st) in
  let omegasAll' := resize l [] (omegasAll st) in
  let rng := mt_seed (wrap32 now) in
  let hi := wrap32 (pM param_ - 1) in
  let '(rndArray'', _) := fill_rnd (Z.to_nat (pN param_)) hi rndArray' rng in
  mkLsh param_ pcsAll' omegasAll' rndArray'' tables'.

End Reset.

(** A default-constructed index: empty arrays; [param] is not initialised
    by the constructor and holds whatever [garbage] the storage had. *)
Definition fresh (garbage : Param) : itqLsh := mkLsh garbage [] [] [] [].

(** ** Training

    Dense matrices are those of the Eigen library: a number of rows, a
    number of columns and the coefficients.  Access to a coefficient
    outside the matrix is undefined. *)
Record MatrixXf := mkMat {
  rows : nat;
  cols : nat;
  coefs : list (list float)
}.

Definition coeff (m : MatrixXf) (i j : nat) : option float :=
  if ((i <? rows m) && (j <? cols m))%nat then r ← coefs m !! i; r !! j
  else None.

Definition set_coeff (m : MatrixXf) (i j : nat) (x : float) : option MatrixXf :=
  if ((i <? rows m) && (j <? cols m))%nat then
    r ← coefs m !! i;
    Some (mkMat (rows m) (cols m) (<[i := <[j := x]> r]> (coefs m)))
  else None.

Definition set_row (m : MatrixXf) (i : nat) (vals : list float) : option MatrixXf :=
  if ((i <? rows m) && (length vals =? cols m))%nat then
    Some (mkMat (rows m) (cols m) (<[i := vals]> (coefs m)))
  else None.

(** [MatrixXf m(r, c)]: the coefficients are not initialised; the code
    below assigns every one of them before it reads any. *)
Definition mat_new (r c : nat) : MatrixXf :=
  mkMat r c (replicate r (replicate c F32.zero)).

Definition mat_map (f : float → float) (m : MatrixXf) : MatrixXf :=
  mkMat (rows m) (cols m) ((λ r : list float, f <$> r) <$> coefs m).

Definition transpose (m : MatrixXf) : MatrixXf :=
  mkMat (cols m) (rows m)
    ((λ j, (λ i, default F32.zero (coeff m i j)) <$> seq 0 (rows m))
       <$> seq 0 (cols m)).

Definition rightCols (n : nat) (m : MatrixXf) : option MatrixXf :=
  if (n <=? cols m)%nat then
    Some (mkMat (rows m) n ((λ r : list float, drop (cols m - n) r) <$> coefs m))
  else None.

(** [m.rowwise() - mean], [mean] a row vector. *)
Definition rowwise_sub (m mean : MatrixXf) : option MatrixXf :=
  if ((rows mean =? 1) && (cols mean =? cols m))%nat then
    mu ← coefs mean !! 0%nat;
    Some (mkMat (rows m) (cols m)
            ((λ r : list float, (λ xy : float * float, F32.sub xy.1 xy.2) <$> zip r mu)
               <$> coefs m))
  else None.

(** The numeric kernels of Eigen that the trainer calls.  The order in
    which they accumulate floating-point sums is Eigen's business. *)
Class EigenKernels := {
  colwise_mean : MatrixXf → MatrixXf;
  mat_mul : MatrixXf → MatrixXf → MatrixXf;
  selfadjoint_eigenvectors : MatrixXf → MatrixXf;
  jacobi_svd_U : MatrixXf → MatrixXf;
  jacobi_svd_V : MatrixXf → MatrixXf
}.

(** The quantisation of the ITQ iteration:
    [if (Z(i, j) > 0) UX(i, j) = 1; else UX(i, j) = -1;] *)
Definition sign_code (z : float) : float :=
  if F32.gt0 z then F32.of_Z 1 else F32.of_Z (-1).

Definition quantize (Zm : MatrixXf) : option MatrixXf :=
  for_upto (rows Zm)
    (λ i UX,
       for_upto (cols Zm)
         (λ j UX, z ← coeff Zm i j; set_coeff UX i j (sign_code z)) UX)
    (mat_new (rows Zm) (cols Zm)).

(** The two storing loops at the end of a table: [rowsN] rows of [width]
    coefficients, row [i] being column [i] of [m]. *)
Definition store_transposed (m : MatrixXf) (rowsN width : nat)
  (old : list (list float)) : option (list (list float)) :=
  let resized := resize rowsN [] old in
  for_upto (length resized)
    (λ i out,
       r ← out !! i;
       let r' := resize width F32.zero r in
       r'' ← for_upto (length r')
                (λ j r, x ← coeff m j i; Some (<[j := x]> r)) r';
       Some (<[i := r'']> out))
    resized.

Section Train.
Context {RNG : StdRandom} {EIG : EigenKernels}.

(** [while (seqs.size() != param.S)]: rejection sampling of distinct row
    indices.  The loop need not terminate; [fuel] bounds its turns. *)
Fixpoint sample_seqs (fuel : nat) (s : nat) (hi : Z) (seqs : list Z)
  (rng : mt19937) : option (list Z * mt19937) :=
  if (length seqs =? s)%nat then Some (seqs, rng)
  else
    match fuel with
    | O => None
    | S fuel' =>
        let '(target, rng') := uniform_int 0 hi rng in
        sample_seqs fuel' s hi
          (if decide (target ∈ seqs) then seqs else seqs ++ [target]) rng'
    end.

(** [for ... R(i, j) = nd(rng)] *)
Definition random_matrix (n : nat) (nd : normal_state) (rng : mt19937)
  : option (MatrixXf * normal_state * mt19937) :=
  for_upto n
    (λ i acc,
       for_upto n
         (λ j '(R, nd, rng),
            let '(x, nd', rng') := normal_float nd rng in
            R' ← set_coeff R i j x;
            Some (R', nd', rng'))
         acc)
    (mat_new n n, nd, rng).

Definition itq_iteration (mat_c R : MatrixXf) : option MatrixXf :=
  let Zm := mat_mul mat_c R in
  UX ← quantize Zm;
  let prod := mat_mul (transpose UX) mat_c in
  Some (mat_mul (jacobi_svd_V prod) (transpose (jacobi_svd_U prod))).

Definition set_model (k : nat) (pcs omegas : list (list float)) (st : itqLsh)
  : itqLsh :=
  mkLsh (param st) (<[k := pcs]> (pcsAll st)) (<[k := omegas]> (omegasAll st))
        (rndArray st) (tables st).

Definition train_table (fuel : nat) (data : Matrix) (k : nat)
  (acc : itqLsh * normal_state * mt19937)
  : option (itqLsh * normal_state * mt19937) :=
  let '(st, nd, rng) := acc in
  let npca := nN st in
  let hi := wrap32 (Z.of_nat (getSize data) - 1) in
  '(seqs, rng) ← sample_seqs fuel (Z.to_nat (pS (param st))) hi [] rng;
  let seqs := merge_sort Z.le seqs in
  tmp ← for_upto (Z.to_nat (pS (param st)))
    (λ i tmp,
       s ← seqs !! i;
       vals ← mapM (λ j, mat_row data (Z.to_nat s) !! j) (seq 0 (getDim data));
       set_row tmp i vals)
    (mat_new (Z.to_nat (pS (param st))) (getDim data));
  centered ← rowwise_sub tmp (colwise_mean tmp);
  let cov := mat_map (λ x, F32.div x (F32.of_Z (Z.of_nat (rows tmp) - 1)))
               (mat_mul (transpose centered) centered) in
  mat_pca ← rightCols npca (selfadjoint_eigenvectors cov);
  let mat_c := mat_mul tmp mat_pca in
  '(R, nd, rng) ← random_matrix npca nd rng;
  let R := jacobi_svd_U R in
  R ← for_upto (Z.to_nat (pI (param st))) (λ _ R, itq_iteration mat_c R) R;
  om ← omegasAll st !! k;
  om' ← store_transposed R npca npca om;
  pcs ← pcsAll st !! k;
  pcs' ← store_transposed mat_pca npca (nD st) pcs;
  Some (set_model k pcs' om' st, nd, rng).

(** [train]; [now] is the value of [std::time(0)].  [int npca = param.N]
    has no meaning for [N] above [INT_MAX]. *)
Definition train (fuel : nat) (now : Z) (data : Matrix) (st : itqLsh)
  : option itqLsh :=
  if 2 ^ 31 <=? pN (param st) then None
  else
    '(st', _, _) ← for_upto (nL st) (train_table fuel data)
                     (st, normal_init, mt_seed (wrap32 now));
    Some st'.

End Train.

(** ** Persistence

    The file is its sequence of bytes.  An [unsigned] is written as its
    four bytes of storage, least significant first; a [float] as its four
    bytes of storage. *)

Definition u32s_bytes (v : list Z) : list byte := v ≫= le_split 4.
Definition floats_bytes (v : list float) : list byte := v ≫= F32.to_bytes.

(** The storage of the first [n] elements of a vector, [&v[0]] for
    [n * sizeof] bytes. *)
Definition storage_prefix {A : Type} (n : nat) (v : list A) : option (list A) :=
  if (n <=? length v)%nat then Some (take n v) else None.

Definition key_le (a b : Z * list Z) : Prop := a.1 ≤ b.1.

#[global] Instance key_le_dec : RelDecision key_le.
Proof. intros a b. unfold key_le. apply _. Defined.

(** The entries of a [std::map] in iteration order. *)
Definition map_items (t : gmap Z (list Z)) : list (Z * list Z) :=
  merge_sort key_le (map_to_list t).

Definition save_bucket (out : list byte) (entry : Z * list Z) : list byte :=
  let target := entry.1 in
  let out := out ++ le_split 4 target in
  let length := wrap32 (Z.of_nat (length entry.2)) in
  let out := out ++ le_split 4 length in
  out ++ u32s_bytes (take (Z.to_nat length) entry.2).

(** The output stream is the sequence of bytes written so far. *)
Definition save_rows (st : itqLsh) (i j : nat) (out : list byte)
  : option (list byte) :=
  pcs ← pcsAll st !! i;
  prow ← pcs !! j;
  pw ← storage_prefix (nD st) prow;
  om ← omegasAll st !! i;
  orow ← om !! j;
  ow ← storage_prefix (nN st) orow;
  Some ((out ++ floats_bytes pw) ++ floats_bytes ow).

Definition save_table (st : itqLsh) (i : nat) (out : list byte)
  : option (list byte) :=
  rnd ← rndArray st !! i;
  w ← storage_prefix (nN st) rnd;
  let out := out ++ u32s_bytes w in
  t ← tables st !! i;
  let count := wrap32 (Z.of_nat (size t)) in
  let out := out ++ le_split 4 count in
  let out := foldl save_bucket out (map_items t) in
  for_upto (nN st) (save_rows st i) out.

Definition save_header (p : Param) : list byte :=
  le_split 4 (pM p) ++ le_split 4 (pL p) ++ le_split 4 (pD p)
    ++ le_split 4 (pN p) ++ le_split 4 (pS p).

(** [save]: the bytes written to the file. *)
Definition save (st : itqLsh) : option (list byte) :=
  for_upto (nL st) (save_table st) (save_header (param st)).

(** An input file stream: the bytes not yet read, and whether the stream
    is still good.  Once a read meets the end of the file the stream
    fails and every later read extracts nothing. *)
Record ifstream := mkIfs { ibuf : list byte; igood : bool }.

(** A file that cannot be opened gives a failed stream. *)
Definition ifs_open (file : option (list byte)) : ifstream :=
  match file with
  | Some bs => mkIfs bs true
  | None => mkIfs [] false
  end.

(** [in.read(p, n)]: the bytes extracted, which are stored at [p]. *)
Definition ifs_read (n : nat) (s : ifstream) : list byte * ifstream :=
  if igood s then
    if (n <=? length (ibuf s))%nat
    then (take n (ibuf s), mkIfs (drop n (ibuf s)) true)
    else (ibuf s, mkIfs [] false)
  else ([], s).

(** Storage after a read: the extracted bytes replace the leading ones. *)
Definition overlay (bs old : list byte) : list byte :=
  bs ++ drop (length bs) old.

Fixpoint words_of_bytes (n : nat) (bs : list byte) : list (list byte) :=
  match n with
  | O => []
  | S n' => take 4 bs :: words_of_bytes n' (drop 4 bs)
  end.

(** Read into an [unsigned] object that holds [old]. *)
Definition read_u32 (old : Z) (s : ifstream) : Z * ifstream :=
  let '(bs, s') := ifs_read 4 s in
  (le_combine (overlay bs (le_split 4 old)), s').

(** Read into a local [unsigned] that was not initialised: when the read
    falls short the value is indeterminate, and its use undefined. *)
Definition read_local (s : ifstream) : option (Z * ifstream) :=
  let '(bs, s') := ifs_read 4 s in
  if (length bs =? 4)%nat then Some (le_combine bs, s') else None.

(** Read into the storage of a vector, all of its elements. *)
Definition read_u32s (v : list Z) (s : ifstream) : list Z * ifstream :=
  let '(bs, s') := ifs_read (4 * length v) s in
  (le_combine <$> words_of_bytes (length v) (overlay bs (u32s_bytes v)), s').

Definition read_floats (v : list float) (s : ifstream)
  : list float * ifstream :=
  let '(bs, s') := ifs_read (4 * length v) s in
  (F32.of_bytes <$> words_of_bytes (length v) (overlay bs (floats_bytes v)), s').

Definition load_bucket (i : nat) (j : nat)
  (acc : list (gmap Z (list Z)) * ifstream)
  : option (list (gmap Z (list Z)) * ifstream) :=
  let '(ts, s) := acc in
  '(target, s) ← read_local s;
  '(len, s) ← read_local s;
  t ← ts !! i;
  let '(ids, t) := map_subscript t target in
  let '(ids, s) := read_u32s (resize (Z.to_nat len) 0 ids) s in
  Some (<[i := <[target := ids]> t]> ts, s).

Definition load_rows (st : itqLsh) (j : nat)
  (acc : list (list float) * list (list float) * ifstream)
  : option (list (list float) * list (list float) * ifstream) :=
  let '(pcs, om, s) := acc in
  prow ← pcs !! j;
  orow ← om !! j;
  let '(prow, s) := read_floats (resize (nD st) F32.zero prow) s in
  let '(orow, s) := read_floats (resize (nN st) F32.zero orow) s in
  Some (<[j := prow]> pcs, <[j := orow]> om, s).

Definition load_table (i : nat) (acc : itqLsh * ifstream)
  : option (itqLsh * ifstream) :=
  let '(st, s) := acc in
  rnd ← rndArray st !! i;
  let '(rnd, s) := read_u32s (resize (nN st) 0 rnd) s in
  '(count, s) ← read_local s;
  '(ts, s) ← for_upto (Z.to_nat count) (load_bucket i) (tables st, s);
  pcs ← pcsAll st !! i;
  om ← omegasAll st !! i;
  '(pcs, om, s) ← for_upto (nN st) (load_rows st)
                    (resize (nN st) [] pcs, resize (nN st) [] om, s);
  Some (mkLsh (param st) (<[i := pcs]> (pcsAll st))
          (<[i := om]> (omegasAll st)) (<[i := rnd]> (rndArray st)) ts, s).

(** [load]; [file] is the content of the file, [None] when it cannot be
    opened. *)
Definition load (file : option (list byte)) (st : itqLsh) : option itqLsh :=
  let s := ifs_open file in
  let '(m, s) := read_u32 (pM (param st)) s in
  let '(l, s) := read_u32 (pL (param st)) s in
  let '(d, s) := read_u32 (pD (param st)) s in
  let '(n, s) := read_u32 (pN (param st)) s in
  let '(s_, s) := read_u32 (pS (param st)) s in
  let p := mkParam m l d n s_ (pI (param st)) in
  let st := mkLsh p
              (resize (Z.to_nat l) [] (pcsAll st))
              (resize (Z.to_nat l) [] (omegasAll st))
              (resize (Z.to_nat l) [] (rndArray st))
              (resize (Z.to_nat l) ∅ (tables st)) in
  '(st, _) ← for_upto (Z.to_nat l) load_table (st, s);
  Some st.

Arguments wrap32 : simpl never.
Arguments F32.add : simpl never.
Arguments F32.mul : simpl never.
Arguments F32.sub : simpl never.
Arguments F32.div : simpl never.
Arguments F32.gt0 : simpl never.
Arguments F32.of_Z : simpl never.
Arguments F32.zero : simpl never.
Arguments for_upto : simpl never.
Arguments getHashVal : simpl never.

(** ** The hasher in the words of the specification

    [p[i] = Σ_j v[j] · pcs[k][i][j]], [s[i] = Σ_j p[j] · omegas[k][i][j]],
    the weights [rnd[k][i]] of the bits with [s[i] > 0] summed in
    [unsigned], and the sum reduced modulo [M].  A sum [Σ_j] of floats is
    accumulated from [0.0f] in increasing [j]. *)

Definition spec_dot (n : nat) (x w : nat → float) : float :=
  foldl (λ acc j, F32.add acc (F32.mul (x j) (w j))) F32.zero (seq 0 n).

Definition spec_p (st : itqLsh) (k : nat) (v : list float) (i : nat) : float :=
  spec_dot (nD st) (λ j, v !!! j) (λ j, ((pcsAll st !!! k) !!! i) !!! j).

Definition spec_s (st : itqLsh) (k : nat) (v : list float) (i : nat) : float :=
  spec_dot (nN st) (spec_p st k v) (λ j, ((omegasAll st !!! k) !!! i) !!! j).

Definition spec_sum (st : itqLsh) (k : nat) (v : list float) : Z :=
  foldl (λ sum i,
           if F32.gt0 (spec_s st k v i)
           then wrap32 (sum + (rndArray st !!! k) !!! i) else sum)
        0 (seq 0 (nN st)).

Definition spec_getHashVal (st : itqLsh) (k : nat) (v : list float) : Z :=
  spec_sum st k v mod pM (param st).

(** Table [k] has the shape that [train] and [load] give it: [N]
    principal directions of [D] coefficients, [N] rotation rows of [N]
    coefficients, and at least [N] weights. *)
Definition table_ready (st : itqLsh) (k : nat) : Prop :=
  (∃ pcs, pcsAll st !! k = Some pcs ∧ length pcs = nN st
          ∧ Forall (λ r, length r = nD st) pcs)
  ∧ (∃ om, omegasAll st !! k = Some om ∧ length om = nN st
           ∧ Forall (λ r, length r = nN st) om)
  ∧ (∃ rnd, rndArray st !! k = Some rnd ∧ (nN st ≤ length rnd)%nat).

(** ** Predicates and layouts used by the properties *)

(** A sequence of [insert] calls. *)
Fixpoint insert_all (ops : list (Z * list float)) (st : itqLsh)
  : option itqLsh :=
  match ops with
  | [] => Some st
  | (key, v) :: ops' => st' ← insert key v st; insert_all ops' st'
  end.

(** [key] is stored in bucket [h] of table [k]. *)
Definition stored (st : itqLsh) (k : nat) (h key : Z) : Prop :=
  ∃ t ids, tables st !! k = Some t ∧ t !! h = Some ids ∧ key ∈ ids.

(** The same model (parameters, projections, rotations, weights), the
    same number of tables. *)
Definition same_model (st st' : itqLsh) : Prop :=
  param st' = param st ∧ pcsAll st' = pcsAll st
  ∧ omegasAll st' = omegasAll st ∧ rndArray st' = rndArray st
  ∧ length (tables st') = length (tables st).

(** The whole index is shaped: [M ≥ 1], [L] tables, each one ready. *)
Definition index_ready (st : itqLsh) : Prop :=
  1 ≤ pM (param st)
  ∧ (nL st ≤ length (tables st))%nat
  ∧ ∀ k, (k < nL st)%nat → table_ready st k.

(** Every stored id is a row index of [data] whose row hashes to the
    bucket it is stored in. *)
Definition consistent (data : Matrix) (st : itqLsh) : Prop :=
  ∀ k b id, stored st k b id →
    ∃ i : nat, id = Z.of_nat i ∧ (i < getSize data)%nat
               ∧ getHashVal st k (mat_row data i) = Some b.

(** The calls [insert(i, data[i])] for the row indices [js]. *)
Definition row_inserts (data : Matrix) (js : list nat) : list (Z * list float) :=
  (λ i, (Z.of_nat i, mat_row data i)) <$> js.

(** The container holds [getSize] rows of [getDim] coefficients, of the
    dimension of the index. *)
Definition matrix_fits (data : Matrix) (st : itqLsh) : Prop :=
  getDim data = nD st
  ∧ length (mat_dims data) = (getSize data * getDim data)%nat.

(** Classification of a binary32 by its decoded value. *)
Definition is_zero (x : float) : Prop := ∃ s, F32.value x = S754_zero s.

Definition is_negative (x : float) : Prop :=
  F32.value x = S754_infinity true ∨ ∃ m e, F32.value x = S754_finite true m e.

Definition is_positive (x : float) : Prop :=
  F32.value x = S754_infinity false ∨ ∃ m e, F32.value x = S754_finite false m e.

Definition is_nan (x : float) : Prop := F32.value x = S754_nan.

#[global] Instance is_positive_dec x : Decision (is_positive x).
Proof.
  unfold is_positive.
  destruct (F32.value x) as [s|[]| |[] m e];
    first [ left; eauto; fail
          | right; intros [?|(? & ? & ?)]; discriminate ].
Defined.

(** The bits of the code of [v] in table [k] whose rotated projection
    [s[i]] is strictly positive, in increasing order; and the sum of the
    weights [rnd[k][i]] of a list of bits. *)
Definition positive_bits (st : itqLsh) (k : nat) (v : list float) : list nat :=
  filter (λ i, is_positive (spec_s st k v i)) (seq 0 (nN st)).

Definition weight_sum (st : itqLsh) (k : nat) (bits : list nat) : Z :=
  foldl (λ acc i, acc + (rndArray st !!! k) !!! i) 0 bits.

(** Shape of a dense matrix: [rows] rows of [cols] coefficients. *)
Definition mat_wf (m : MatrixXf) : Prop :=
  length (coefs m) = rows m ∧ Forall (λ r, length r = cols m) (coefs m).

Definition same_frame (st st' : itqLsh) : Prop :=
  param st' = param st ∧ rndArray st' = rndArray st ∧ tables st' = tables st
  ∧ length (pcsAll st') = length (pcsAll st)
  ∧ length (omegasAll st') = length (omegasAll st).

(** What [train] leaves in table [k]: [N] principal directions of [D]
    coefficients and [N] rotation rows of [N] coefficients. *)
Definition trained_table (st : itqLsh) (k : nat) : Prop :=
  (∃ pcs, pcsAll st !! k = Some pcs ∧ length pcs = nN st
          ∧ Forall (λ r, length r = nD st) pcs)
  ∧ (∃ om, omegasAll st !! k = Some om ∧ length om = nN st
           ∧ Forall (λ r, length r = nN st) om).

Definition bucket_bytes (e : Z * list Z) : list byte :=
  le_split 4 e.1 ++ le_split 4 (Z.of_nat (length e.2)) ++ u32s_bytes e.2.

Definition row_bytes (pcs om : list (list float)) (j : nat) : list byte :=
  floats_bytes (pcs !!! j) ++ floats_bytes (om !!! j).

Definition table_bytes (st : itqLsh) (i : nat) : list byte :=
  u32s_bytes (rndArray st !!! i)
  ++ le_split 4 (Z.of_nat (size (tables st !!! i)))
  ++ (map_items (tables st !!! i) ≫= bucket_bytes)
  ++ (seq 0 (nN st) ≫= row_bytes (pcsAll st !!! i) (omegasAll st !!! i)).

Definition file_bytes (st : itqLsh) : list byte :=
  save_header (param st) ++ (seq 0 (nL st) ≫= table_bytes st).

(** A bucket that the format can hold: 32-bit key, 32-bit ids, fewer
    than [2^32] of them. *)
Definition bucket_ok (e : Z * list Z) : Prop :=
  is_u32 e.1 ∧ Z.of_nat (length e.2) < 2 ^ 32 ∧ Forall is_u32 e.2.

Definition table_saveable (st : itqLsh) (i : nat) : Prop :=
  trained_table st i
  ∧ (∃ rnd, rndArray st !! i = Some rnd ∧ length rnd = nN st
            ∧ Forall is_u32 rnd)
  ∧ (∃ t, tables st !! i = Some t ∧ Z.of_nat (size t) < 2 ^ 32
          ∧ map_Forall (λ h ids, bucket_ok (h, ids)) t).

Definition header_ok (p : Param) : Prop :=
  is_u32 (pM p) ∧ is_u32 (pL p) ∧ is_u32 (pD p) ∧ is_u32 (pN p)
  ∧ is_u32 (pS p).

Definition saveable (st : itqLsh) : Prop :=
  header_ok (param st)
  ∧ length (pcsAll st) = nL st ∧ length (omegasAll st) = nL st
  ∧ length (rndArray st) = nL st ∧ length (tables st) = nL st
  ∧ ∀ i, (i < nL st)%nat → table_saveable st i.

(** The state of [load] after [i] tables of the file of [st]. *)
Definition loaded_upto (st : itqLsh) (p : Param) (i : nat) (cur : itqLsh)
  : Prop :=
  param cur = p
  ∧ pcsAll cur = take i (pcsAll st) ++ replicate (nL st - i) []
  ∧ omegasAll cur = take i (omegasAll st) ++ replicate (nL st - i) []
  ∧ rndArray cur = take i (rndArray st) ++ replicate (nL st - i) []
  ∧ tables cur = take i (tables st) ++ replicate (nL st - i) ∅.

Definition with_I (i : Z) (p : Param) : Param :=
  mkParam (pM p) (pL p) (pD p) (pN p) (pS p) i.

(** The buckets of every table hold 32-bit ids under keys in [0, M). *)
Definition tables_ok (st : itqLsh) : Prop :=
  ∀ k t h ids, tables st !! k = Some t → t !! h = Some ids →
    0 ≤ h < pM (param st) ∧ Forall is_u32 ids.

(** Every bucket of every table holds fewer than [2^32] ids. *)
Definition buckets_bounded (st : itqLsh) : Prop :=
  ∀ k t h ids, tables st !! k = Some t → t !! h = Some ids →
    Z.of_nat (length ids) < 2 ^ 32.

(** The same, as a check that computes. *)
Definition buckets_bounded_b (st : itqLsh) : bool :=
  forallb (λ t : gmap Z (list Z),
             forallb (λ e : Z * list Z, Z.of_nat (length e.2) <? 2 ^ 32)
                     (map_to_list t))
          (tables st).

(** The parts of [saveable] that do not depend on the buckets: the
    32-bit header, [L] entries in each array and [N] 32-bit weights per
    table; and every table trained. *)
Definition model_base (st : itqLsh) : Prop :=
  header_ok (param st)
  ∧ length (pcsAll st) = nL st ∧ length (omegasAll st) = nL st
  ∧ length (rndArray st) = nL st ∧ length (tables st) = nL st
  ∧ ∀ i, (i < nL st)%nat →
      ∃ rnd, rndArray st !! i = Some rnd ∧ length rnd = nN st
             ∧ Forall is_u32 rnd.

Definition all_trained (st : itqLsh) : Prop :=
  ∀ i, (i < nL st)%nat → trained_table st i.

(** [save] then [load] on a default-constructed index gives back the
    header fields [M, L, D, N, S], [pcs], [omegas], [rnd] and every
    table. *)
Definition roundtrips (st : itqLsh) (garbage : Param) : Prop :=
  ∃ file st',
    save st = Some file ∧ load (Some file) (fresh garbage) = Some st'
    ∧ pcsAll st' = pcsAll st ∧ omegasAll st' = omegasAll st
    ∧ rndArray st' = rndArray st ∧ tables st' = tables st
    ∧ with_I 0 (param st') = with_I 0 (param st).

Section Built.
Context {RNG : StdRandom} {EIG : EigenKernels}.

(** The states of an index that was default-constructed and reset once
    with 32-bit parameters, and on which [train], [insert] with 32-bit
    keys and [hash] were then called in any order; the flag tells whether
    [train] was among the calls. *)
Inductive built : bool → itqLsh → Prop :=
| built_reset garbage p now :
    header_ok p → built false (reset p now (fresh garbage))
| built_train b fuel now data st st' :
    built b st → train fuel now data st = Some st' → built true st'
| built_insert b st key v st' :
    built b st → is_u32 key → insert key v st = Some st' → built b st'
| built_hash b st data st' :
    built b st → Z.of_nat (getSize data) ≤ 2 ^ 32 →
    hash data st = Some st' → built b st'.

End Built.

Definition set_I (i : Z) (st : itqLsh) : itqLsh :=
  mkLsh (with_I i (param st)) (pcsAll st) (omegasAll st) (rndArray st)
        (tables st).

(** ** A run of the index

    A small deterministic generator and naive dense kernels stand for the
    C++ library and for Eigen, so that the model can be run.  The run is
    scenario S1 of the specification: [D = 4], [N = 2], [M = 8], [L = 1],
    [S = 4], [I = 10], the four unit vectors as data. *)

Definition lcg_next (g : Z) : Z := (g * 1103515245 + 12345) mod 2 ^ 31.

Definition lcg : StdRandom.
Proof.
  refine {| mt19937 := Z;
            mt_seed := λ s, s;
            uniform_int := λ a b g, (a + g mod (b - a + 1), lcg_next g);
            normal_state := unit;
            normal_init := tt;
            normal_float := λ nd g, (F32.of_Z (g mod 7 - 3), nd, lcg_next g) |}.
  intros a b g Hab. cbn [fst].
  pose proof (Z.mod_pos_bound g (b - a + 1)). lia.
Defined.

Definition identity (n : nat) : MatrixXf :=
  mkMat n n
    ((λ i, (λ j, if decide (i = j) then F32.of_Z 1 else F32.zero) <$> seq 0 n)
       <$> seq 0 n).

Definition naive_dot (xs ys : list float) : float :=
  foldl (λ acc xy, F32.add acc (F32.mul xy.1 xy.2)) F32.zero (zip xs ys).

Definition naive_mul (a b : MatrixXf) : MatrixXf :=
  mkMat (rows a) (cols b)
    ((λ r, naive_dot r <$> coefs (transpose b)) <$> coefs a).

Definition naive_mean (m : MatrixXf) : MatrixXf :=
  mkMat 1 (cols m)
    [(λ c, F32.div (foldl F32.add F32.zero c) (F32.of_Z (Z.of_nat (rows m))))
       <$> coefs (transpose m)].

Definition naive_kernels : EigenKernels :=
  {| colwise_mean := naive_mean;
     mat_mul := naive_mul;
     selfadjoint_eigenvectors := λ m, identity (rows m);
     jacobi_svd_U := λ m, identity (rows m);
     jacobi_svd_V := λ m, identity (cols m) |}.

Definition ex_param : Param := mkParam 8 1 4 2 4 10.
Definition ex_garbage : Param := mkParam 7 7 7 7 7 7.

Definition ex_data : Matrix :=
  mkMatrix 4 4 (F32.of_Z <$> [1; 0; 0; 0; 0; 1; 0; 0; 0; 0; 1; 0; 0; 0; 0; 1]).

Definition ex_reset : itqLsh :=
  reset (RNG := lcg) ex_param 12345 (fresh ex_garbage).

Definition ex_trained : itqLsh :=
  Eval vm_compute in
    default ex_reset
      (train (RNG := lcg) (EIG := naive_kernels) 100 999 ex_data ex_reset).

Definition ex_hashed : itqLsh :=
  Eval vm_compute in default ex_trained (hash ex_data ex_trained).

Definition ex_row0 : list float := mat_row ex_data 0.

Definition ex_inserted : itqLsh :=
  Eval vm_compute in default ex_trained (insert 0 ex_row0 ex_trained).

(** A second [reset], with a smaller modulus, of the index reset above. *)
Definition ex_param2 : Param := mkParam 2 1 4 2 4 10.

Definition ex_reset_again : itqLsh :=
  Eval vm_compute in reset (RNG := lcg) ex_param2 777 ex_reset.

Definition ex_trained_again : itqLsh :=
  Eval vm_compute in
    default ex_reset_again
      (train (RNG := lcg) (EIG := naive_kernels) 100 999 ex_data
         ex_reset_again).

Definition ex_Z : MatrixXf :=
  mkMat 1 3 [[F32.zero; F32.of_Z (-2); F32.of_Z 3]].

Definition ex_UX : MatrixXf :=
  mkMat 1 3 [[F32.of_Z (-1); F32.of_Z (-1); F32.of_Z 1]].

Definition ex_file : list byte :=
  Eval vm_compute in default [] (save ex_hashed).

Definition ex_loaded : itqLsh :=
  Eval vm_compute in
    default (fresh ex_garbage) (load (Some ex_file) (fresh ex_garbage)).

Definition ex_calls : list ScannerCall :=
  [ScanReset ex_row0; ScanOffer 0; ScanOffer 1; ScanGenTopk].

(** Two more runs: a further [insert] of row 0 under the key 3 after
    [hash]; and an [insert] of row 0 under the key 3 before [train],
    followed by [train] and [hash]. *)
Definition ex_extra : itqLsh :=
  Eval vm_compute in default ex_hashed (insert 3 ex_row0 ex_hashed).

Definition ex_early : itqLsh :=
  Eval vm_compute in default ex_reset (insert 3 ex_row0 ex_reset).

Definition ex_early_trained : itqLsh :=
  Eval vm_compute in
    default ex_early
      (train (RNG := lcg) (EIG := naive_kernels) 100 999 ex_data ex_early).

Definition ex_early_hashed : itqLsh :=
  Eval vm_compute in default ex_early_trained (hash ex_data ex_early_trained).

(** ** Further notions used by the properties *)

(** The constructor [itqLsh(const Parameter &param_)]: a default-constructed
    object on which [reset] is called. *)
Definition itqLsh_new {RNG : StdRandom} (param_ : Param) (now : Z)
  (garbage : Param) : itqLsh :=
  reset param_ now (fresh garbage).

(** Table [k] after [tables[k][getHashVal(k, v)].push_back(key)]. *)
Definition pushed (st : itqLsh) (key : Z) (v : list float) (k : nat)
  : option (gmap Z (list Z)) :=
  h ← getHashVal st k v;
  t ← tables st !! k;
  Some (<[h := default [] (t !! h) ++ [key]]> t).

(** The bucket of table [k] that [v] hashes to; empty when there is
    none. *)
Definition bucket_hit (st : itqLsh) (k : nat) (v : list float) : list Z :=
  match getHashVal st k v, tables st !! k with
  | Some h, Some t => default [] (t !! h)
  | _, _ => []
  end.

(** The binary code of [v] in table [k]: bit [i] is set when the rotated
    projection [s[i]] is strictly positive. *)
Definition binary_code (st : itqLsh) (k : nat) (v : list float) : list bool :=
  (λ i, F32.gt0 (spec_s st k v i)) <$> seq 0 (nN st).

(** All the ids of a table, bucket after bucket. *)
Definition table_ids (t : gmap Z (list Z)) : list Z :=
  map_to_list t ≫= snd.

(** A zero of either sign, or a NaN. *)
Definition zero_or_nan (x : float) : Prop :=
  F32.value x = S754_zero false ∨ F32.value x = S754_zero true
  ∨ F32.value x = S754_nan.

(** The shape of table [k] that does not depend on the buckets. *)
Definition table_shaped (st : itqLsh) (k : nat) : Prop :=
  trained_table st k
  ∧ ∃ rnd, rndArray st !! k = Some rnd ∧ length rnd = nN st
           ∧ Forall is_u32 rnd.

(** The tables after the file of [st] is loaded over the tables [old]:
    in each table the buckets of the file, and those of [old] under the
    other keys. *)
Definition merged_tables (st : itqLsh) (old : list (gmap Z (list Z)))
  : list (gmap Z (list Z)) :=
  zip_with (∪) (tables st) (resize (nL st) ∅ old).

(** The state of [load] after [i] tables of the file of [st], when the
    index held [cur] before. *)
Definition loaded_over (st cur : itqLsh) (p : Param) (i : nat) (x : itqLsh)
  : Prop :=
  param x = p
  ∧ pcsAll x = take i (pcsAll st) ++ drop i (resize (nL st) [] (pcsAll cur))
  ∧ omegasAll x
    = take i (omegasAll st) ++ drop i (resize (nL st) [] (omegasAll cur))
  ∧ rndArray x
    = take i (rndArray st) ++ drop i (resize (nL st) [] (rndArray cur))
  ∧ tables x
    = take i (merged_tables st (tables cur))
      ++ drop i (resize (nL st) ∅ (tables cur)).

(** [w] coefficients of column [i] of [m], from the top; and the first
    [r] columns of [m] written that way, one after the other. *)
Definition column_prefix (m : MatrixXf) (w i : nat) : option (list float) :=
  mapM (λ j, coeff m j i) (seq 0 w).

Definition transposed_rows (m : MatrixXf) (r w : nat)
  : option (list (list float)) :=
  mapM (column_prefix m w) (seq 0 r).

Definition is_sign_code (x : float) : Prop :=
  x = F32.of_Z 1 ∨ x = F32.of_Z (-1).

(** Further states of the run: an index with modulus [M = 0], an index
    that asks for a sample of five rows, a sample drawn from four rows,
    and a model with stale contents. *)
Definition ex_param0 : Param := mkParam 0 1 4 2 4 10.

Definition ex_reset0 : itqLsh :=
  Eval vm_compute in reset (RNG := lcg) ex_param0 12345 (fresh ex_garbage).

Definition ex_param5 : Param := mkParam 8 1 4 2 5 10.

Definition ex_reset5 : itqLsh :=
  Eval vm_compute in reset (RNG := lcg) ex_param5 12345 (fresh ex_garbage).

Definition ex_sample : list Z * Z :=
  Eval vm_compute in
    default ([], 0) (sample_seqs (RNG := lcg) 100 4 3 [] 999).

Definition ex_row1 : list float := mat_row ex_data 1.

Definition ex_zero_row : list float := replicate 4 F32.zero.

Definition ex_stale : list (list float) := [[F32.of_Z 5]; []; [F32.zero]].

(** ** Loops *)

Section Loops.
Context {A : Type}.
Implicit Types (body : nat → A → option A).

Lemma for_from_S_l body i n a :
  for_from i (S n) body a = body i a ≫= for_from (S i) n body.
Proof. done. Qed.

Lemma for_from_S_r body i n a :
  for_from i (S n) body a = for_from i n body a ≫= body (i + n)%nat.
Proof.
  revert i a. induction n as [|n IH]; intros i a.
  - simpl. rewrite Nat.add_0_r. by destruct (body i a).
  - rewrite (for_from_S_l body i (S n)), (for_from_S_l body i n).
    destruct (body i a) as [a'|]; [|done].
    change (for_from (S i) (S n) body a'
            = for_from (S i) n body a' ≫= body (i + S n)%nat).
    rewrite IH. by replace (S i + n)%nat with (i + S n)%nat by lia.
Qed.

(** The invariant rule, total form: every turn succeeds, so the loop
    does. *)
Lemma for_from_inv (Inv : nat → A → Prop) body n :
  ∀ i a,
    Inv i a →
    (∀ j x, (i ≤ j < i + n)%nat → Inv j x →
            ∃ y, body j x = Some y ∧ Inv (S j) y) →
    ∃ r, for_from i n body a = Some r ∧ Inv (i + n)%nat r.
Proof.
  induction n as [|n IH]; intros i a Ha Hstep.
  - exists a. rewrite Nat.add_0_r. done.
  - destruct (Hstep i a) as (y & Hy & HI); [lia|done|].
    destruct (IH (S i) y) as (r & Hr & HIr); [done| |].
    + intros j x Hj. apply Hstep. lia.
    + exists r. simpl. rewrite Hy. simpl.
      by replace (i + S n)%nat with (S i + n)%nat by lia.
Qed.

(** The invariant rule, partial form: whenever the loop returns. *)
Lemma for_from_inv_partial (Inv : nat → A → Prop) body n :
  ∀ i a r,
    Inv i a →
    (∀ j x y, (i ≤ j < i + n)%nat → Inv j x → body j x = Some y → Inv (S j) y) →
    for_from i n body a = Some r → Inv (i + n)%nat r.
Proof.
  induction n as [|n IH]; intros i a r Ha Hstep Hr.
  - simpl in Hr. rewrite Nat.add_0_r. congruence.
  - simpl in Hr. destruct (body i a) as [y|] eqn:Hy; simpl in Hr; [|done].
    replace (i + S n)%nat with (S i + n)%nat by lia.
    apply (IH (S i) y); [|intros j x z Hj; apply Hstep; lia|done].
    apply (Hstep i a); [lia|done..].
Qed.

Lemma for_upto_inv (Inv : nat → A → Prop) body n a :
  Inv 0%nat a →
  (∀ j x, (j < n)%nat → Inv j x → ∃ y, body j x = Some y ∧ Inv (S j) y) →
  ∃ r, for_upto n body a = Some r ∧ Inv n r.
Proof.
  intros Ha Hstep.
  destruct (for_from_inv Inv body n 0 a Ha) as (r & Hr & HI); eauto.
  intros j x Hj. apply Hstep. lia.
Qed.

Lemma for_upto_inv_partial (Inv : nat → A → Prop) body n a r :
  Inv 0%nat a →
  (∀ j x y, (j < n)%nat → Inv j x → body j x = Some y → Inv (S j) y) →
  for_upto n body a = Some r → Inv n r.
Proof.
  intros Ha Hstep Hr.
  apply (for_from_inv_partial Inv body n 0 a r Ha); [|done].
  intros j x y Hj. apply Hstep. lia.
Qed.

(** A loop whose turns compute a function is a fold. *)
Lemma for_upto_fold (f : A → nat → A) (Inv : nat → A → Prop) body n a :
  Inv 0%nat a →
  (∀ j x, (j < n)%nat → Inv j x → body j x = Some (f x j) ∧ Inv (S j) (f x j)) →
  for_upto n body a = Some (foldl f a (seq 0 n)) ∧ Inv n (foldl f a (seq 0 n)).
Proof.
  intros Ha Hstep.
  destruct (for_upto_inv (λ j x, x = foldl f a (seq 0 j) ∧ Inv j x) body n a)
    as (r & Hr & -> & HI); [done| |done].
  intros j x Hj [-> Hx]. destruct (Hstep j _ Hj Hx) as [Hb Hi].
  eexists; split; [done|]. split; [|done].
  by rewrite seq_S, foldl_app.
Qed.

End Loops.

(** ** Properties of the hasher *)

Lemma spec_dot_ext n x x' w w' :
  (∀ j, (j < n)%nat → x j = x' j ∧ w j = w' j) →
  spec_dot n x w = spec_dot n x' w'.
Proof.
  unfold spec_dot. induction n as [|n IH]; intros Hext; [done|].
  rewrite seq_S, !foldl_app. simpl.
  destruct (Hext n) as [-> ->]; [lia|].
  rewrite IH; [done|]. intros j Hj. apply Hext. lia.
Qed.

Lemma project_row_spec domin row l1 x l2 :
  (length row ≤ length domin)%nat →
  project_row domin row (length l1) (l1 ++ x :: l2)
  = Some (l1 ++
          foldl (λ acc j, F32.add acc (F32.mul (domin !!! j) (row !!! j)))
                x (seq 0 (length row)) :: l2).
Proof.
  intros Hlen. unfold project_row.
  set (step := λ acc j, F32.add acc (F32.mul (domin !!! j) (row !!! j))).
  destruct (for_upto_inv
              (λ j dp, dp = l1 ++ foldl step x (seq 0 j) :: l2)
              (λ j dp, x ← domin !! j; c ← row !! j; acc ← dp !! length l1;
                       Some (<[length l1 := F32.add acc (F32.mul x c)]> dp))
              (length row) (l1 ++ x :: l2)) as (r & Hr & ->); [done| |done].
  intros j dp Hj ->. eexists; split.
  - rewrite (list_lookup_lookup_total_lt domin j) by lia.
    rewrite (list_lookup_lookup_total_lt row j) by lia. simpl.
    rewrite list_lookup_middle by done. done.
  - rewrite seq_S, foldl_app.
    rewrite insert_app_r_alt by lia. by rewrite Nat.sub_diag.
Qed.

Lemma rotate_row_spec dp orow :
  (length orow ≤ length dp)%nat →
  rotate_row dp orow
  = Some (spec_dot (length orow) (λ j, dp !!! j) (λ j, orow !!! j)).
Proof.
  intros Hlen. unfold rotate_row, spec_dot.
  apply (for_upto_fold
           (λ acc j, F32.add acc (F32.mul (dp !!! j) (orow !!! j)))
           (λ _ _, True)); [done|].
  intros j acc Hj _.
  rewrite (list_lookup_lookup_total_lt dp j) by lia.
  rewrite (list_lookup_lookup_total_lt orow j) by lia. done.
Qed.

Lemma project_spec st k v pcs :
  pcsAll st !! k = Some pcs →
  Forall (λ r, length r = nD st) pcs →
  (nD st ≤ length v)%nat →
  for_upto (length pcs)
    (λ i dp, row ← pcs !! i; project_row v row i dp)
    (replicate (length pcs) F32.zero)
  = Some (spec_p st k v <$> seq 0 (length pcs)).
Proof.
  intros Hk Hrows Hv.
  destruct (for_upto_inv
    (λ i dp, dp = (spec_p st k v <$> seq 0 i)
                    ++ replicate (length pcs - i) F32.zero)
    (λ i dp, row ← pcs !! i; project_row v row i dp)
    (length pcs) (replicate (length pcs) F32.zero)) as (r & Hr & ->).
  - by rewrite Nat.sub_0_r.
  - intros i dp Hi ->.
    destruct (lookup_lt_is_Some_2 pcs i Hi) as [row Hrow].
    pose proof (Forall_lookup_1 _ _ _ _ Hrows Hrow) as Hlen.
    simpl in Hlen.
    replace (length pcs - i)%nat with (S (length pcs - S i)) by lia.
    cbn [replicate].
    pose proof (project_row_spec v row (spec_p st k v <$> seq 0 i) F32.zero
                  (replicate (length pcs - S i) F32.zero)) as Hp.
    rewrite length_fmap, length_seq in Hp.
    eexists; split; [rewrite Hrow; cbn [mbind option_bind]; apply Hp; lia|].
    rewrite seq_S, fmap_app, <- app_assoc. cbn [fmap list_fmap app].
    do 2 f_equal.
    unfold spec_p, spec_dot. rewrite Hlen.
    rewrite (list_lookup_total_correct _ _ _ Hk).
    by rewrite (list_lookup_total_correct _ _ _ Hrow).
  - by rewrite Nat.sub_diag, app_nil_r in Hr.
Qed.

Lemma getHashVal_unfold_spec st k v :
  table_ready st k → (nD st ≤ length v)%nat →
  getHashVal st k v
  = if pM (param st) =? 0 then None else Some (spec_getHashVal st k v).
Proof.
  intros ((pcs & Hpcs & Hn & Hrows) & (om & Hom & Hon & Horows)
          & (rnd & Hrnd & Hrn)) Hv.
  unfold getHashVal. rewrite Hpcs. cbn [mbind option_bind].
  rewrite (project_spec st k v pcs Hpcs Hrows Hv). cbn [mbind option_bind].
  rewrite length_fmap, length_seq, Hn.
  destruct (for_upto_fold
    (λ sum i, if F32.gt0 (spec_s st k v i)
              then wrap32 (sum + (rndArray st !!! k) !!! i) else sum)
    (λ _ _, True)
    (λ i sum, om ← omegasAll st !! k; orow ← om !! i;
              product ← rotate_row (spec_p st k v <$> seq 0 (nN st)) orow;
              add_weight st k i product sum)
    (nN st) 0) as [Hsum _]; [exact I| |].
  - intros i sum Hi _. split; [|exact I].
    rewrite Hom. cbn [mbind option_bind].
    destruct (lookup_lt_is_Some_2 om i) as [orow Horow]; [lia|].
    pose proof (Forall_lookup_1 _ _ _ _ Horows Horow) as Hlen.
    cbn beta in Hlen.
    rewrite Horow. cbn [mbind option_bind].
    rewrite rotate_row_spec by (rewrite length_fmap, length_seq; lia).
    cbn [mbind option_bind].
    assert (spec_dot (length orow)
              (λ j, (spec_p st k v <$> seq 0 (nN st)) !!! j) (λ j, orow !!! j)
            = spec_s st k v i) as ->.
    { unfold spec_s. rewrite Hlen. apply spec_dot_ext. intros j Hj. split.
      - apply list_lookup_total_correct.
        rewrite list_lookup_fmap, lookup_seq_lt by exact Hj. reflexivity.
      - rewrite (list_lookup_total_correct _ _ _ Hom).
        by rewrite (list_lookup_total_correct _ _ _ Horow). }
    unfold add_weight. destruct (F32.gt0 (spec_s st k v i)); [|reflexivity].
    rewrite Hrnd. cbn [mbind option_bind].
    rewrite (list_lookup_lookup_total_lt rnd i) by lia.
    cbn [mbind option_bind].
    by rewrite (list_lookup_total_correct _ _ _ Hrnd).
  - rewrite Hsum. reflexivity.
Qed.

(** Whatever the shape of the model, a returned hash value is a residue
    modulo [M]. *)
Lemma getHashVal_residue st k v h :
  getHashVal st k v = Some h → pM (param st) ≠ 0 ∧ ∃ sum, h = sum mod pM (param st).
Proof.
  unfold getHashVal. intros Hh.
  destruct (pcsAll st !! k) as [pcs|]; simpl in Hh; [|done].
  destruct (for_upto (length pcs) _ _) as [dp|]; simpl in Hh; [|done].
  destruct (for_upto (length dp) _ _) as [sum|]; simpl in Hh; [|done].
  destruct (pM (param st) =? 0) eqn:HM; [done|].
  apply Z.eqb_neq in HM. split; [done|]. exists sum. congruence.
Qed.

(** The hasher reads the model, not the buckets. *)
Lemma getHashVal_model st st' k v :
  param st' = param st → pcsAll st' = pcsAll st →
  omegasAll st' = omegasAll st → rndArray st' = rndArray st →
  getHashVal st' k v = getHashVal st k v.
Proof.
  intros Hp Hpc Hom Hrnd. unfold getHashVal, add_weight.
  by rewrite Hp, Hpc, Hom, Hrnd.
Qed.

(** C2.  On a table shaped by training ([N] directions of [D]
    coefficients, [N] rotation rows of [N] coefficients, [N] weights) and
    a vector of at least [D] coefficients, with [M ≥ 1], [getHashVal]
    returns the value the specification words describe: the projection [p]
    of the uncentered vector, the rotated projection [s], the wrapped
    unsigned sum of the weights of the bits with [s[i] > 0], modulo [M]. *)
Theorem getHashVal_refines_spec st k v :
  table_ready st k → (nD st ≤ length v)%nat → 1 ≤ pM (param st) →
  getHashVal st k v = Some (spec_getHashVal st k v).
Proof.
  intros Hready Hv HM. rewrite getHashVal_unfold_spec by done.
  destruct (pM (param st) =? 0) eqn:E; [|done].
  apply Z.eqb_eq in E. lia.
Qed.

(** C3.  With [M ≥ 1], every value returned by [getHashVal] lies in
    [0, M); and on a table shaped by training and a vector of at least [D]
    coefficients, [getHashVal] does return a value. *)
Theorem getHashVal_range st k v :
  1 ≤ pM (param st) →
  (∀ h, getHashVal st k v = Some h → 0 ≤ h < pM (param st))
  ∧ (table_ready st k → (nD st ≤ length v)%nat →
     ∃ h, getHashVal st k v = Some h ∧ 0 ≤ h < pM (param st)).
Proof.
  intros HM.
  assert (∀ h, getHashVal st k v = Some h → 0 ≤ h < pM (param st)) as Hrange.
  { intros h Hh. apply getHashVal_residue in Hh as (_ & sum & ->).
    apply Z.mod_pos_bound. lia. }
  split; [done|]. intros Hready Hv.
  exists (spec_getHashVal st k v).
  assert (getHashVal st k v = Some (spec_getHashVal st k v)) as Hs; [|auto].
  rewrite getHashVal_unfold_spec by done.
  destruct (pM (param st) =? 0) eqn:E; [|done].
  apply Z.eqb_eq in E. lia.
Qed.

(** ** Properties of the bucket index *)

Lemma same_model_refl st : same_model st st.
Proof. by repeat split. Qed.

Lemma same_model_trans st1 st2 st3 :
  same_model st1 st2 → same_model st2 st3 → same_model st1 st3.
Proof.
  intros (? & ? & ? & ? & ?) (? & ? & ? & ? & ?).
  repeat split; congruence.
Qed.

Lemma same_model_hash st st' k v :
  same_model st st' → getHashVal st' k v = getHashVal st k v.
Proof. intros (? & ? & ? & ? & ?). by apply getHashVal_model. Qed.

Lemma set_tables_id st : set_tables (tables st) st = st.
Proof. by destruct st. Qed.

Lemma map_subscript_present (t : gmap Z (list Z)) h ids :
  t !! h = Some ids → map_subscript t h = (ids, t).
Proof. unfold map_subscript. by intros ->. Qed.

Lemma bucket_push_same (t : gmap Z (list Z)) h key :
  bucket_push t h key !! h = Some (default [] (t !! h) ++ [key]).
Proof.
  unfold bucket_push, map_subscript.
  destruct (t !! h); simpl; by rewrite lookup_insert_eq.
Qed.

Lemma bucket_push_other (t : gmap Z (list Z)) h key b :
  b ≠ h → bucket_push t h key !! b = t !! b.
Proof.
  intros Hne. unfold bucket_push, map_subscript.
  destruct (t !! h) eqn:E; simpl; by rewrite !lookup_insert_ne.
Qed.

(** A bucket only grows under [push_back]. *)
Lemma bucket_push_keeps (t : gmap Z (list Z)) h key b ids id :
  t !! b = Some ids → id ∈ ids →
  ∃ ids', bucket_push t h key !! b = Some ids' ∧ id ∈ ids'.
Proof.
  intros Hb Hid. destruct (decide (b = h)) as [->|Hne].
  - rewrite bucket_push_same, Hb. simpl. eexists; split; [done|].
    apply elem_of_app. by left.
  - rewrite bucket_push_other by done. eauto.
Qed.

Lemma insert_table_spec key v k st st' :
  insert_table key v k st = Some st' →
  ∃ h t, getHashVal st k v = Some h ∧ tables st !! k = Some t
         ∧ st' = set_tables (<[k := bucket_push t h key]> (tables st)) st.
Proof.
  unfold insert_table. intros Hi.
  destruct (getHashVal st k v) as [h|]; simpl in Hi; [|done].
  destruct (tables st !! k) as [t|]; simpl in Hi; [|done].
  exists h, t. by injection Hi as <-.
Qed.

Lemma insert_table_same_model key v k st st' :
  insert_table key v k st = Some st' → same_model st st'.
Proof.
  intros (h & t & _ & _ & ->)%insert_table_spec.
  repeat split. simpl. by rewrite length_insert.
Qed.

Lemma insert_table_keeps key v k st st' k' h' key' :
  insert_table key v k st = Some st' →
  stored st k' h' key' → stored st' k' h' key'.
Proof.
  intros (h & t & _ & Ht & ->)%insert_table_spec (t' & ids & Ht' & Hb & Hin).
  unfold stored. simpl. destruct (decide (k' = k)) as [->|Hne].
  - rewrite list_lookup_insert_eq by (by eapply lookup_lt_Some).
    assert (t' = t) as -> by congruence.
    destruct (bucket_push_keeps t h key h' ids key' Hb Hin) as (ids' & ? & ?).
    eauto.
  - rewrite list_lookup_insert_ne by done. eauto.
Qed.

Lemma insert_table_stores key v k st st' :
  insert_table key v k st = Some st' →
  ∃ h, getHashVal st k v = Some h ∧ stored st' k h key.
Proof.
  intros (h & t & Hh & Ht & ->)%insert_table_spec.
  exists h. split; [done|]. unfold stored. simpl.
  rewrite list_lookup_insert_eq by (by eapply lookup_lt_Some).
  eexists _, _. split; [done|]. rewrite bucket_push_same. split; [done|].
  apply elem_of_app. right. by apply list_elem_of_singleton.
Qed.

(** Every bucket entry of the result of [insert_table] is an old entry or
    the new key in the bucket of its hash value. *)
Lemma insert_table_origin key v k st st' k' b id :
  insert_table key v k st = Some st' →
  stored st' k' b id →
  stored st k' b id ∨ (k' = k ∧ id = key ∧ getHashVal st k v = Some b).
Proof.
  intros (h & t & Hh & Ht & ->)%insert_table_spec (t' & ids & Ht' & Hb & Hin).
  simpl in Ht'. destruct (decide (k' = k)) as [->|Hne].
  - rewrite list_lookup_insert_eq in Ht' by (by eapply lookup_lt_Some).
    injection Ht' as <-. destruct (decide (b = h)) as [->|Hbh].
    + rewrite bucket_push_same in Hb. injection Hb as <-.
      apply elem_of_app in Hin as [Hin|Hin].
      * left. destruct (t !! h) as [old|] eqn:E; simpl in Hin.
        -- by exists t, old.
        -- by apply elem_of_nil in Hin.
      * right. apply list_elem_of_singleton in Hin. done.
    + rewrite bucket_push_other in Hb by done. left. by exists t, ids.
  - rewrite list_lookup_insert_ne in Ht' by done. left. by exists t', ids.
Qed.

Lemma insert_same_model key v st st' :
  insert key v st = Some st' → same_model st st'.
Proof.
  unfold insert. intros Hi.
  apply (for_upto_inv_partial (λ _ s, same_model st s) _ _ _ _
           (same_model_refl st)) in Hi; [done|].
  intros j x y _ Hx Hy. eapply same_model_trans; [done|].
  by eapply insert_table_same_model.
Qed.

Lemma insert_keeps key v st st' k h key' :
  insert key v st = Some st' → stored st k h key' → stored st' k h key'.
Proof.
  unfold insert. intros Hi Hs.
  apply (for_upto_inv_partial (λ _ s, stored s k h key') _ _ _ _ Hs) in Hi;
    [done|].
  intros j x y _ Hx Hy. by eapply insert_table_keeps.
Qed.

(** After [insert], the key sits in every table, in the bucket of the
    vector's hash value. *)
Lemma insert_stores key v st st' k :
  insert key v st = Some st' → (k < nL st)%nat →
  ∃ h, getHashVal st k v = Some h ∧ stored st' k h key.
Proof.
  unfold insert. intros Hi Hk.
  apply (for_upto_inv_partial
           (λ j s, same_model st s ∧
                   ∀ k, (k < j)%nat →
                        ∃ h, getHashVal st k v = Some h ∧ stored s k h key))
    in Hi.
  - destruct Hi as [_ Hi]. by apply Hi.
  - split; [apply same_model_refl|]. intros ? ?. lia.
  - intros j x y Hj [Hm Hx] Hy. split.
    + eapply same_model_trans; [done|]. by eapply insert_table_same_model.
    + intros k' Hk'. destruct (decide (k' = j)) as [->|Hne].
      * destruct (insert_table_stores _ _ _ _ _ Hy) as (h & Hh & Hs).
        exists h. split; [|done]. by rewrite <- (same_model_hash st x).
      * destruct (Hx k') as (h & Hh & Hs); [lia|].
        exists h. split; [done|]. by eapply insert_table_keeps.
Qed.

Lemma insert_origin key v st st' k b id :
  insert key v st = Some st' →
  stored st' k b id →
  stored st k b id ∨ (id = key ∧ getHashVal st k v = Some b).
Proof.
  unfold insert. intros Hi.
  apply (for_upto_inv_partial
           (λ _ s, same_model st s ∧
                   (stored s k b id →
                    stored st k b id ∨ (id = key ∧ getHashVal st k v = Some b))))
    in Hi.
  - by destruct Hi.
  - split; [apply same_model_refl|]. by left.
  - intros j x y _ [Hm Hx] Hy. split.
    + eapply same_model_trans; [done|]. by eapply insert_table_same_model.
    + intros Hs.
      destruct (insert_table_origin _ _ _ _ _ _ _ _ Hy Hs)
        as [?|(Hkj & ? & ?)].
      * by apply Hx.
      * right. split; [done|]. subst k.
        by rewrite <- (same_model_hash st x).
Qed.

Lemma insert_all_same_model ops st st' :
  insert_all ops st = Some st' → same_model st st'.
Proof.
  revert st. induction ops as [|[key v] ops IH]; intros st Hi; simpl in Hi.
  - injection Hi as <-. apply same_model_refl.
  - destruct (insert key v st) as [s|] eqn:E; simpl in Hi; [|done].
    eapply same_model_trans; [by eapply insert_same_model|by apply IH].
Qed.

Lemma insert_all_keeps ops st st' k h key :
  insert_all ops st = Some st' → stored st k h key → stored st' k h key.
Proof.
  revert st. induction ops as [|[key' v] ops IH]; intros st Hi Hs; simpl in Hi.
  - by injection Hi as <-.
  - destruct (insert key' v st) as [s|] eqn:E; simpl in Hi; [|done].
    apply (IH s); [done|]. by eapply insert_keeps.
Qed.

(** ** Properties of the query path *)

Lemma query_table_present v k st calls h t ids :
  getHashVal st k v = Some h → tables st !! k = Some t → t !! h = Some ids →
  query_table v k (st, calls) = Some (st, calls ++ (ScanOffer <$> ids)).
Proof.
  intros Hh Ht Hb. unfold query_table. rewrite Hh, Ht. simpl. rewrite Hb.
  rewrite (map_subscript_present t h ids Hb).
  by rewrite (list_insert_id _ _ _ Ht), set_tables_id.
Qed.

Lemma query_table_frame v k st calls st' calls' :
  query_table v k (st, calls) = Some (st', calls') → st' = st.
Proof.
  unfold query_table. intros Hq.
  destruct (getHashVal st k v) as [h|]; simpl in Hq; [|done].
  destruct (tables st !! k) as [t|] eqn:Ht; simpl in Hq; [|done].
  destruct (t !! h) as [ids|] eqn:Hb.
  - rewrite (map_subscript_present t h ids Hb) in Hq.
    rewrite (list_insert_id _ _ _ Ht), set_tables_id in Hq. congruence.
  - congruence.
Qed.

(** A query offers every key that is stored, in each table, in the
    bucket the queried vector hashes to. *)
Lemma query_offers_stored key v st :
  1 ≤ pL (param st) →
  (∀ k, (k < nL st)%nat →
        ∃ h, getHashVal st k v = Some h ∧ stored st k h key) →
  ∃ calls, query v st = Some (st, calls) ∧ ScanOffer key ∈ calls.
Proof.
  intros HL Hall. unfold query.
  destruct (for_upto_inv
    (λ j (acc : itqLsh * list ScannerCall),
       acc.1 = st ∧ ((0 < j)%nat → ScanOffer key ∈ acc.2))
    (query_table v) (nL st) (st, [ScanReset v]))
    as ([s calls] & Hr & Hs & Hin).
  - split; [done|]. simpl. lia.
  - intros j [s calls] Hj [Hs Hin]. simpl in Hs, Hin. subst s.
    destruct (Hall j Hj) as (h & Hh & t & ids & Ht & Hb & Hkey).
    rewrite (query_table_present v j st calls h t ids Hh Ht Hb).
    eexists; split; [done|]. split; [done|]. intros _. simpl.
    apply elem_of_app. right. by apply list_elem_of_fmap_2.
  - simpl in Hs, Hin. subst s. rewrite Hr. simpl.
    eexists; split; [done|]. apply elem_of_app. left. apply Hin.
    unfold nL. lia.
Qed.

Lemma query_after_insert key v st st1 more st2 :
  1 ≤ pL (param st) →
  insert key v st = Some st1 →
  insert_all more st1 = Some st2 →
  ∃ calls, query v st2 = Some (st2, calls) ∧ ScanOffer key ∈ calls.
Proof.
  intros HL Hins Hmore.
  pose proof (insert_same_model _ _ _ _ Hins) as Hm1.
  pose proof (insert_all_same_model _ _ _ Hmore) as Hm2.
  pose proof (same_model_trans _ _ _ Hm1 Hm2) as Hm.
  assert (param st2 = param st) as Hp by (by destruct Hm as [-> _]).
  apply query_offers_stored; [by rewrite Hp|].
  intros k Hk. unfold nL in Hk. rewrite Hp in Hk.
  destruct (insert_stores _ _ _ _ k Hins Hk) as (h & Hh & Hs).
  exists h. split; [by rewrite (same_model_hash st st2)|].
  by eapply insert_all_keeps.
Qed.

Lemma insert_all_app a b st :
  insert_all (a ++ b) st = insert_all a st ≫= insert_all b.
Proof.
  revert st. induction a as [|[key v] a IH]; intros st; [done|].
  simpl. destruct (insert key v st) as [s|]; simpl; [apply IH|done].
Qed.

(** [hash] is the sequence of calls [insert(i, data[i])], in row order. *)
Lemma hash_from_as_inserts data n : ∀ i st,
  for_from i n (λ i st, insert (Z.of_nat i) (mat_row data i) st) st
  = insert_all (row_inserts data (seq i n)) st.
Proof.
  induction n as [|n IH]; intros i st; [done|].
  rewrite for_from_S_l. simpl.
  destruct (insert _ _ st) as [s|]; simpl; [apply IH|done].
Qed.

Lemma hash_as_inserts data st :
  hash data st = insert_all (row_inserts data (seq 0 (getSize data))) st.
Proof. apply hash_from_as_inserts. Qed.

(** C1.  On an index of [L ≥ 1] tables: once [insert key v] has returned,
    and whatever further [insert] calls follow it, the model being
    otherwise untouched, a query for [v] returns and offers [key] to the
    scanner; and after [hash data] (and any further [insert] calls) a
    query for row [i] of [data] returns and offers [i]. *)
Theorem query_delivers_inserted st :
  1 ≤ pL (param st) →
  (∀ key v st1 more st2,
     insert key v st = Some st1 →
     insert_all more st1 = Some st2 →
     ∃ calls, query v st2 = Some (st2, calls) ∧ ScanOffer key ∈ calls)
  ∧ (∀ data st1 more st2 i,
       hash data st = Some st1 →
       insert_all more st1 = Some st2 →
       (i < getSize data)%nat →
       ∃ calls, query (mat_row data i) st2 = Some (st2, calls)
                ∧ ScanOffer (Z.of_nat i) ∈ calls).
Proof.
  intros HL. split.
  - intros key v st1 more st2. by apply query_after_insert.
  - intros data st1 more st2 i Hhash Hmore Hi.
    rewrite hash_as_inserts in Hhash.
    replace (seq 0 (getSize data))
      with (seq 0 i ++ i :: seq (S i) (getSize data - S i)) in Hhash.
    2:{ change (i :: seq (S i) (getSize data - S i))
          with (seq i (S (getSize data - S i))).
        rewrite <- seq_app. f_equal. lia. }
    unfold row_inserts in Hhash. rewrite fmap_app, fmap_cons in Hhash.
    rewrite insert_all_app in Hhash.
    destruct (insert_all _ st) as [s|] eqn:Hbefore; simpl in Hhash; [|done].
    destruct (insert (Z.of_nat i) (mat_row data i) s) as [s'|] eqn:Hins;
      simpl in Hhash; [|done].
    pose proof (insert_all_same_model _ _ _ Hbefore) as (Hp & _).
    apply (query_after_insert _ _ s s'
             (((λ i, (Z.of_nat i, mat_row data i))
                 <$> seq (S i) (getSize data - S i)) ++ more));
      [by rewrite Hp|done|].
    rewrite insert_all_app, Hhash. done.
Qed.

Lemma table_ready_same_model st st' k :
  same_model st st' → table_ready st k → table_ready st' k.
Proof.
  intros (Hp & Hpc & Hom & Hrnd & _). unfold table_ready, nN, nD.
  by rewrite Hp, Hpc, Hom, Hrnd.
Qed.

Lemma index_ready_same_model st st' :
  same_model st st' → index_ready st → index_ready st'.
Proof.
  intros Hm (HM & Hlen & Hk).
  pose proof Hm as (Hp & _ & _ & _ & Hl).
  unfold index_ready, nL. rewrite Hp, Hl. split; [done|]. split; [done|].
  intros k Hlt. eapply table_ready_same_model; [done|]. by apply Hk.
Qed.

Lemma getHashVal_total st k v :
  index_ready st → (k < nL st)%nat → (nD st ≤ length v)%nat →
  ∃ h, getHashVal st k v = Some h.
Proof.
  intros (HM & _ & Hk) Hlt Hv. exists (spec_getHashVal st k v).
  rewrite getHashVal_unfold_spec by auto.
  destruct (pM (param st) =? 0) eqn:E; [|done].
  apply Z.eqb_eq in E. lia.
Qed.

Lemma insert_total key v st :
  index_ready st → (nD st ≤ length v)%nat →
  ∃ st', insert key v st = Some st'.
Proof.
  intros Hready Hv. unfold insert.
  destruct (for_upto_inv (λ _ s, same_model st s)
              (insert_table key v) (nL st) st) as (r & Hr & _); [| |eauto].
  { apply same_model_refl. }
  intros j x Hj Hx.
  pose proof (index_ready_same_model _ _ Hx Hready) as Hrx.
  pose proof Hx as (Hp & _ & _ & _ & Hl).
  assert (nL x = nL st) as HnL by (unfold nL; by rewrite Hp).
  assert (nD x = nD st) as HnD by (unfold nD; by rewrite Hp).
  destruct (getHashVal_total x j v Hrx) as [h Hh]; [lia..|].
  destruct Hrx as (_ & Hlen & _).
  destruct (lookup_lt_is_Some_2 (tables x) j) as [t Ht]; [lia|].
  unfold insert_table. rewrite Hh, Ht. simpl.
  eexists; split; [done|].
  eapply same_model_trans; [done|].
  repeat split. simpl. by rewrite length_insert.
Qed.

Lemma query_total v st :
  index_ready st → (nD st ≤ length v)%nat →
  ∃ calls, query v st = Some (st, calls).
Proof.
  intros Hready Hv. unfold query.
  destruct (for_upto_inv
    (λ _ (acc : itqLsh * list ScannerCall), acc.1 = st)
    (query_table v) (nL st) (st, [ScanReset v]))
    as ([s calls] & Hr & Hs); [done| |].
  - intros j [s calls] Hj Hs. simpl in Hs. subst s.
    destruct (getHashVal_total st j v Hready Hj Hv) as [h Hh].
    destruct Hready as (_ & Hlen & _).
    destruct (lookup_lt_is_Some_2 (tables st) j) as [t Ht]; [lia|].
    destruct (t !! h) as [ids|] eqn:Hb.
    + rewrite (query_table_present v j st calls h t ids Hh Ht Hb). eauto.
    + unfold query_table. rewrite Hh, Ht. simpl. rewrite Hb. eauto.
  - simpl in Hs. subst s. rewrite Hr. simpl. eauto.
Qed.

(** C10.  A query leaves the index as it was: parameters, weights,
    projections, rotations and every table; in particular a bucket that
    is not populated before the query is not populated after it.  On a
    shaped index and a vector of at least [D] coefficients the query does
    return. *)
Theorem query_read_only v st :
  (∀ st' calls, query v st = Some (st', calls) →
     st' = st
     ∧ ∀ k t h, tables st !! k = Some t → t !! h = None →
                ∃ t', tables st' !! k = Some t' ∧ t' !! h = None)
  ∧ (index_ready st → (nD st ≤ length v)%nat →
     ∃ calls, query v st = Some (st, calls)).
Proof.
  split; [|apply query_total].
  unfold query. intros st' calls Hq.
  destruct (for_upto (nL st) (query_table v) (st, [ScanReset v]))
    as [[s cs]|] eqn:Hloop; simpl in Hq; [|done].
  injection Hq as <- _.
  apply (for_upto_inv_partial
           (λ _ (acc : itqLsh * list ScannerCall), acc.1 = st)) in Hloop.
  - simpl in Hloop. subst s. split; [done|]. eauto.
  - done.
  - intros j [x cx] [y cy] _ Hx Hy. simpl in *. subst x.
    by eapply query_table_frame.
Qed.

(** ** Consistency of the buckets with the hasher *)

Lemma mat_row_length data st i :
  matrix_fits data st → (i < getSize data)%nat →
  (nD st ≤ length (mat_row data i))%nat.
Proof.
  intros [Hd Hlen] Hi. unfold mat_row. rewrite length_drop, Hlen.
  unfold getSize, getDim in *. rewrite <- Hd. nia.
Qed.

Lemma insert_consistent data st st' i :
  consistent data st → (i < getSize data)%nat →
  insert (Z.of_nat i) (mat_row data i) st = Some st' →
  consistent data st'.
Proof.
  intros Hc Hi Hins k b id Hs.
  pose proof (insert_same_model _ _ _ _ Hins) as Hm.
  destruct (insert_origin _ _ _ _ _ _ _ Hins Hs) as [Hold|[-> Hh]].
  - destruct (Hc k b id Hold) as (i' & -> & Hi' & Hh).
    exists i'. by rewrite (same_model_hash st st').
  - exists i. by rewrite (same_model_hash st st').
Qed.

Lemma hash_consistent data st st' :
  consistent data st → hash data st = Some st' → consistent data st'.
Proof.
  unfold hash. intros Hc Hh.
  apply (for_upto_inv_partial (λ _ s, consistent data s) _ _ _ _ Hc) in Hh;
    [done|].
  intros j x y Hj Hx Hy. by eapply insert_consistent.
Qed.

Lemma row_inserts_consistent data js st st' :
  Forall (λ i, (i < getSize data)%nat) js →
  consistent data st → insert_all (row_inserts data js) st = Some st' →
  consistent data st'.
Proof.
  revert st. induction js as [|i js IH]; intros st His Hc Hi; simpl in Hi.
  - by injection Hi as <-.
  - apply Forall_cons in His as [Hi0 His].
    destruct (insert _ _ st) as [s|] eqn:E; simpl in Hi; [|done].
    apply (IH s); [done| |done]. by eapply insert_consistent.
Qed.

Lemma hash_total data st :
  index_ready st → matrix_fits data st → ∃ st', hash data st = Some st'.
Proof.
  intros Hready Hfit. unfold hash.
  destruct (for_upto_inv (λ _ s, same_model st s)
    (λ i s, insert (Z.of_nat i) (mat_row data i) s) (getSize data) st)
    as (r & Hr & _); [apply same_model_refl| |eauto].
  intros j x Hj Hx.
  pose proof (index_ready_same_model _ _ Hx Hready) as Hrx.
  assert (nD x = nD st) as HnD by (unfold nD; by destruct Hx as [-> _]).
  destruct (insert_total (Z.of_nat j) (mat_row data j) x Hrx) as [y Hy].
  { rewrite HnD. by apply mat_row_length. }
  exists y. split; [done|].
  eapply same_model_trans; [done|]. by eapply insert_same_model.
Qed.

(** C5.  On an index whose tables are empty (a trained index before any
    insertion), after [hash data] and after any further calls
    [insert(i, data[i])], every id stored in bucket [b] of table [k] is a
    row index [i] with [getHashVal(k, data[i]) = b].  When the index is
    shaped and [data] has the dimension of the index, [hash data] does
    return. *)
Theorem hash_buckets_consistent data st :
  Forall (λ t, t = ∅) (tables st) →
  (∀ st1 more st2,
     hash data st = Some st1 →
     Forall (λ i, (i < getSize data)%nat) more →
     insert_all (row_inserts data more) st1 = Some st2 →
     ∀ k t b ids id,
       tables st2 !! k = Some t → t !! b = Some ids → id ∈ ids →
       ∃ i : nat, id = Z.of_nat i ∧ (i < getSize data)%nat
                  ∧ getHashVal st2 k (mat_row data i) = Some b)
  ∧ (index_ready st → matrix_fits data st →
     ∃ st1, hash data st = Some st1).
Proof.
  intros Hempty. split; [|apply hash_total].
  intros st1 more st2 Hhash Hmore Hins k t b ids id Ht Hb Hid.
  assert (consistent data st) as Hc.
  { intros k' b' id' (t' & ids' & Ht' & Hb' & _).
    pose proof (Forall_lookup_1 _ _ _ _ Hempty Ht') as He. simpl in He.
    subst t'. by rewrite lookup_empty in Hb'. }
  pose proof (hash_consistent _ _ _ Hc Hhash) as Hc1.
  pose proof (row_inserts_consistent _ _ _ _ Hmore Hc1 Hins) as Hc2.
  apply Hc2. by exists t, ids.
Qed.

(** ** The sign convention *)

Lemma gt0_positive x : F32.gt0 x = true ↔ is_positive x.
Proof.
  unfold F32.gt0, is_positive, SFltb, SFcompare.
  destruct (F32.value x) as [s|[]| |[] m e]; split;
    try done; try (intros [?|(? & ? & ?)]; done); eauto.
Qed.

Lemma not_positive x : is_zero x ∨ is_negative x → F32.gt0 x = false.
Proof.
  unfold F32.gt0, is_zero, is_negative.
  intros [[s ->]|[->|(m & e & ->)]]; done.
Qed.

Lemma mat_new_wf r c : mat_wf (mat_new r c).
Proof.
  split; simpl; [by rewrite length_replicate|].
  apply Forall_replicate. by rewrite length_replicate.
Qed.

Lemma set_coeff_spec m i j x m' :
  mat_wf m → set_coeff m i j x = Some m' →
  mat_wf m' ∧ rows m' = rows m ∧ cols m' = cols m
  ∧ coeff m' i j = Some x
  ∧ ∀ i' j', (i', j') ≠ (i, j) → coeff m' i' j' = coeff m i' j'.
Proof.
  intros [Hlen Hrows] Hset. unfold set_coeff in Hset.
  destruct ((i <? rows m)%nat && (j <? cols m)%nat) eqn:Hin; [|done].
  apply andb_true_iff in Hin as [Hi%Nat.ltb_lt Hj%Nat.ltb_lt].
  destruct (coefs m !! i) as [r|] eqn:Hr; simpl in Hset; [|done].
  injection Hset as <-.
  pose proof (Forall_lookup_1 _ _ _ _ Hrows Hr) as Hrl. simpl in Hrl.
  split; [|split; [done|split; [done|split]]].
  - split; simpl; [by rewrite length_insert|].
    apply Forall_insert; [done|]. by rewrite length_insert.
  - unfold coeff. simpl.
    rewrite (proj2 (Nat.ltb_lt _ _) Hi), (proj2 (Nat.ltb_lt _ _) Hj). simpl.
    rewrite list_lookup_insert_eq by lia. simpl.
    by rewrite list_lookup_insert_eq by lia.
  - intros i' j' Hne. unfold coeff. simpl.
    destruct ((i' <? rows m)%nat && (j' <? cols m)%nat); [|done].
    destruct (decide (i' = i)) as [->|Hi'].
    + rewrite list_lookup_insert_eq by lia. rewrite Hr. simpl.
      rewrite list_lookup_insert_ne; [done|]. congruence.
    + by rewrite list_lookup_insert_ne.
Qed.

(** Every coefficient of the quantised matrix is the sign code of the
    coefficient of [Zm] at the same place. *)
Lemma quantize_coeff Zm UX i j z :
  quantize Zm = Some UX → coeff Zm i j = Some z →
  coeff UX i j = Some (sign_code z).
Proof.
  unfold quantize. intros Hq Hz.
  assert (i < rows Zm ∧ j < cols Zm)%nat as [Hi Hj].
  { unfold coeff in Hz.
    destruct ((i <? rows Zm)%nat && (j <? cols Zm)%nat) eqn:E; [|done].
    apply andb_true_iff in E as [?%Nat.ltb_lt ?%Nat.ltb_lt]. done. }
  set (done_upto := λ (i' j' : nat) (m : MatrixXf),
         mat_wf m ∧ rows m = rows Zm ∧ cols m = cols Zm
         ∧ ∀ a b y, ((a < i')%nat ∨ (a = i' ∧ b < j')%nat) →
                    coeff Zm a b = Some y → coeff m a b = Some (sign_code y)).
  apply (for_upto_inv_partial (λ i' m, done_upto i' 0%nat m)) in Hq.
  - destruct Hq as (_ & _ & _ & Hq). apply Hq; [left; lia|done].
  - split; [apply mat_new_wf|]. split; [done|]. split; [done|].
    intros a b y [?|[_ ?]]; lia.
  - intros i' m m' Hi' Hm Hrow.
    apply (for_upto_inv_partial (λ j' m, done_upto i' j' m)) in Hrow.
    + destruct Hrow as (Hwf & Hr & Hc & Hrow).
      split; [done|]. split; [done|]. split; [done|].
      intros a b y [Ha|[_ ?]] Hy; [|lia].
      apply Hrow; [|done].
      destruct (decide (a = i')) as [->|]; [right|left; lia].
      split; [done|]. unfold coeff in Hy.
      destruct ((i' <? rows Zm)%nat && (b <? cols Zm)%nat) eqn:E; [|done].
      apply andb_true_iff in E as [_ ?%Nat.ltb_lt]. done.
    + done.
    + intros j' x y' Hj' (Hwf & Hr & Hc & Hx) Hy.
      destruct (coeff Zm i' j') as [zz|] eqn:Hzz; simpl in Hy; [|done].
      destruct (set_coeff_spec _ _ _ _ _ Hwf Hy)
        as (Hwf' & Hr' & Hc' & Hsame & Hother).
      split; [done|]. split; [congruence|]. split; [congruence|].
      intros a b y [Ha|[-> Hb]] Hab.
      * rewrite Hother by (intros [=]; lia). apply Hx; [by left|done].
      * destruct (decide (b = j')) as [->|Hne].
        -- congruence.
        -- rewrite Hother by (intros [=]; done).
           apply Hx; [right; lia|done].
Qed.

Lemma coeff_wf m i j :
  mat_wf m → (i < rows m)%nat → (j < cols m)%nat → is_Some (coeff m i j).
Proof.
  intros [Hlen Hrows] Hi Hj. unfold coeff.
  rewrite (proj2 (Nat.ltb_lt _ _) Hi), (proj2 (Nat.ltb_lt _ _) Hj). simpl.
  destruct (lookup_lt_is_Some_2 (coefs m) i) as [r Hr]; [lia|].
  rewrite Hr. simpl. apply lookup_lt_is_Some_2.
  pose proof (Forall_lookup_1 _ _ _ _ Hrows Hr) as Hrl. simpl in Hrl. lia.
Qed.

Lemma coeff_in_range m i j x :
  coeff m i j = Some x → (i < rows m)%nat ∧ (j < cols m)%nat.
Proof.
  unfold coeff.
  destruct ((i <? rows m)%nat && (j <? cols m)%nat) eqn:E; [|done].
  apply andb_true_iff in E as [?%Nat.ltb_lt ?%Nat.ltb_lt]. done.
Qed.

Lemma quantize_total Zm :
  mat_wf Zm →
  ∃ UX, quantize Zm = Some UX ∧ mat_wf UX
        ∧ rows UX = rows Zm ∧ cols UX = cols Zm.
Proof.
  intros Hwf. unfold quantize.
  set (shaped := λ (m : MatrixXf),
         mat_wf m ∧ rows m = rows Zm ∧ cols m = cols Zm).
  destruct (for_upto_inv (λ _ m, shaped m)
    (λ i UX,
       for_upto (cols Zm)
         (λ j UX, z ← coeff Zm i j; set_coeff UX i j (sign_code z)) UX)
    (rows Zm) (mat_new (rows Zm) (cols Zm))) as (UX & HUX & Hs).
  - split; [apply mat_new_wf|done].
  - intros i m Hi Hm.
    apply (for_upto_inv (λ _ m, shaped m)); [done|].
    intros j x Hj (Hxwf & Hxr & Hxc).
    destruct (coeff_wf Zm i j Hwf Hi Hj) as [z Hz]. rewrite Hz. simpl.
    destruct (set_coeff x i j (sign_code z)) as [y|] eqn:Hy.
    + exists y. split; [done|].
      destruct (set_coeff_spec _ _ _ _ _ Hxwf Hy) as (? & ? & ? & _).
      split; [done|]. split; congruence.
    + unfold set_coeff in Hy. rewrite Hxr, Hxc in Hy.
      rewrite (proj2 (Nat.ltb_lt _ _) Hi), (proj2 (Nat.ltb_lt _ _) Hj) in Hy.
      simpl in Hy. destruct Hxwf as [Hlen _].
      destruct (lookup_lt_is_Some_2 (coefs x) i) as [r Hr]; [lia|].
      by rewrite Hr in Hy.
  - exists UX. by destruct Hs as (? & ? & ?).
Qed.

Lemma add_weight_skip st k i z sum :
  F32.gt0 z = false → add_weight st k i z sum = Some sum.
Proof. unfold add_weight. by intros ->. Qed.

Lemma add_weight_add st k i z sum rnd r :
  F32.gt0 z = true → rndArray st !! k = Some rnd → rnd !! i = Some r →
  add_weight st k i z sum = Some (wrap32 (sum + r)).
Proof. unfold add_weight. intros -> -> ?. simpl. by simplify_option_eq. Qed.

Lemma gt0_false x :
  F32.gt0 x = false ↔ is_zero x ∨ is_negative x ∨ is_nan x.
Proof.
  unfold F32.gt0, is_zero, is_negative, is_nan, SFltb, SFcompare.
  destruct (F32.value x) as [s|[]| |[] m e]; split; try done; eauto 7;
    intros [[s' ?] | [[? | (? & ? & ?)] | ?]]; done.
Qed.

(** The sum as the code accumulates it, in [unsigned], is the sum of the
    weights of the strictly positive bits reduced modulo [2^32]. *)
Lemma spec_sum_positive_bits st k v :
  spec_sum st k v = wrap32 (weight_sum st k (positive_bits st k v)).
Proof.
  unfold spec_sum, positive_bits, weight_sum.
  induction (nN st) as [|n IH]; [done|].
  rewrite seq_S, filter_app, !foldl_app. cbn [Nat.add foldl].
  rewrite IH, filter_cons, filter_nil.
  destruct (decide (is_positive (spec_s st k v n))) as [Hp|Hn].
  - rewrite (proj2 (gt0_positive _) Hp). cbn [foldl].
    unfold wrap32. by rewrite Zplus_mod_idemp_l.
  - destruct (F32.gt0 (spec_s st k v n)) eqn:Hg.
    + by apply gt0_positive in Hg.
    + done.
Qed.

(** C6.  The sign convention is strict positivity, in training and in
    hashing.  The test [x > 0] holds exactly for the positive finite
    numbers and [+∞]; it fails exactly for the zeros of either sign, the
    negative numbers and NaN.  In an ITQ iteration of [train], on the
    matrix [Z = mat_c * R], the matrix [UX] that enters the SVD has the
    shape of [Z], [+1] where [Z(i, j)] is strictly positive and [-1]
    where it is a zero, negative or NaN.  In [getHashVal], on a trained
    table, the value returned is the sum, in [unsigned] and then modulo
    [M], of the weights [rnd[k][i]] of exactly the bits [i < N] whose
    rotated projection [s[i]] is strictly positive: a bit whose [s[i]] is
    a zero, negative or NaN adds nothing. *)
Theorem sign_convention :
  (∀ z, F32.gt0 z = true ↔ is_positive z)
  ∧ (∀ z, F32.gt0 z = false ↔ is_zero z ∨ is_negative z ∨ is_nan z)
  ∧ (∀ (EIG : EigenKernels) mat_c R,
       mat_wf (mat_mul mat_c R) →
       ∃ UX,
         rows UX = rows (mat_mul mat_c R) ∧ cols UX = cols (mat_mul mat_c R)
         ∧ (∀ i j z, coeff (mat_mul mat_c R) i j = Some z →
              (is_positive z → coeff UX i j = Some (F32.of_Z 1))
              ∧ (is_zero z ∨ is_negative z ∨ is_nan z →
                 coeff UX i j = Some (F32.of_Z (-1))))
         ∧ itq_iteration mat_c R
           = Some (mat_mul (jacobi_svd_V (mat_mul (transpose UX) mat_c))
                     (transpose (jacobi_svd_U (mat_mul (transpose UX) mat_c)))))
  ∧ (∀ st k v,
       table_ready st k → (nD st ≤ length v)%nat → 1 ≤ pM (param st) →
       getHashVal st k v
       = Some (wrap32 (weight_sum st k (positive_bits st k v))
                 mod pM (param st))
       ∧ ∀ i, (i ∈ positive_bits st k v
               ↔ (i < nN st)%nat ∧ is_positive (spec_s st k v i))
              ∧ (is_zero (spec_s st k v i) ∨ is_negative (spec_s st k v i)
                 ∨ is_nan (spec_s st k v i) → i ∉ positive_bits st k v)).
Proof.
  split; [apply gt0_positive|]. split; [apply gt0_false|]. split.
  - intros EIG mat_c R Hwf.
    destruct (quantize_total _ Hwf) as (UX & Hq & _ & Hr & Hc).
    exists UX. split; [done|]. split; [done|]. split.
    + intros i j z Hz.
      rewrite (quantize_coeff _ UX i j z Hq Hz). unfold sign_code. split.
      * intros Hp. by rewrite (proj2 (gt0_positive z) Hp).
      * intros Hn. by rewrite (proj2 (gt0_false z) Hn).
    + unfold itq_iteration. by rewrite Hq.
  - intros st k v Hready Hv HM. split.
    + rewrite (getHashVal_unfold_spec st k v Hready Hv).
      destruct (pM (param st) =? 0) eqn:E; [apply Z.eqb_eq in E; lia|].
      unfold spec_getHashVal. by rewrite spec_sum_positive_bits.
    + intros i. unfold positive_bits. split.
      * rewrite list_elem_of_filter, elem_of_seq. split.
        -- intros [Hp Hi]. split; [lia|done].
        -- intros [Hi Hp]. split; [done|lia].
      * intros Hn [Hp _]%list_elem_of_filter.
        apply gt0_false in Hn. apply gt0_positive in Hp. congruence.
Qed.

(** ** Properties of [reset] *)

Section ResetFacts.
Context {RNG : StdRandom}.

(** The draws are appended to what the vector already holds. *)
Lemma push_draws_spec n hi : ∀ v g,
  0 ≤ hi →
  ∃ new, (push_draws n hi v g).1 = v ++ new ∧ length new = n
         ∧ Forall (λ x, 0 ≤ x ≤ hi) new.
Proof.
  induction n as [|n IH]; intros v g Hhi; simpl.
  - exists []. by rewrite app_nil_r.
  - pose proof (uniform_int_range 0 hi g Hhi) as Hx.
    destruct (uniform_int 0 hi g) as [x g']. simpl in Hx.
    destruct (IH (v ++ [x]) g' Hhi) as (new & -> & Hlen & Hall).
    exists (x :: new). rewrite <- app_assoc. simpl.
    split; [done|]. split; [by rewrite Hlen|]. by constructor.
Qed.

Lemma fill_rnd_spec n hi : ∀ vs g,
  0 ≤ hi →
  Forall2 (λ v v', ∃ new, v' = v ++ new ∧ length new = n
                          ∧ Forall (λ x, 0 ≤ x ≤ hi) new)
          vs (fill_rnd n hi vs g).1.
Proof.
  induction vs as [|v vs IH]; intros g Hhi; simpl; [constructor|].
  pose proof (push_draws_spec n hi v g Hhi) as Hv.
  destruct (push_draws n hi v g) as [v' g'].
  pose proof (IH g' Hhi) as Hvs.
  destruct (fill_rnd n hi vs g') as [vs' g'']. by constructor.
Qed.

Lemma wrap32_nonneg z : 0 ≤ wrap32 z.
Proof. unfold wrap32. apply Z.mod_pos_bound. lia. Qed.

Lemma reset_param p now st : param (reset p now st) = p.
Proof. unfold reset. by destruct (fill_rnd _ _ _ _). Qed.

Lemma reset_tables p now st :
  tables (reset p now st) = resize (Z.to_nat (pL p)) ∅ (tables st).
Proof. unfold reset. by destruct (fill_rnd _ _ _ _). Qed.

Lemma reset_pcsAll p now st :
  pcsAll (reset p now st) = resize (Z.to_nat (pL p)) [] (pcsAll st).
Proof. unfold reset. by destruct (fill_rnd _ _ _ _). Qed.

Lemma reset_omegasAll p now st :
  omegasAll (reset p now st) = resize (Z.to_nat (pL p)) [] (omegasAll st).
Proof. unfold reset. by destruct (fill_rnd _ _ _ _). Qed.

Lemma reset_rndArray p now st :
  Forall2 (λ v v', ∃ new, v' = v ++ new ∧ length new = Z.to_nat (pN p)
                          ∧ Forall (λ x, 0 ≤ x ≤ wrap32 (pM p - 1)) new)
          (resize (Z.to_nat (pL p)) [] (rndArray st))
          (rndArray (reset p now st)).
Proof.
  unfold reset.
  pose proof (fill_rnd_spec (Z.to_nat (pN p)) (wrap32 (pM p - 1))
                (resize (Z.to_nat (pL p)) [] (rndArray st))
                (mt_seed (wrap32 now)) (wrap32_nonneg _)) as Hf.
  by destruct (fill_rnd _ _ _ _).
Qed.

(** The four arrays have length [L] after [reset]. *)
Lemma reset_lengths p now st :
  length (tables (reset p now st)) = Z.to_nat (pL p)
  ∧ length (rndArray (reset p now st)) = Z.to_nat (pL p)
  ∧ length (pcsAll (reset p now st)) = Z.to_nat (pL p)
  ∧ length (omegasAll (reset p now st)) = Z.to_nat (pL p).
Proof.
  rewrite reset_tables, reset_pcsAll, reset_omegasAll.
  rewrite <- (Forall2_length _ _ _ (reset_rndArray p now st)).
  by rewrite !length_resize.
Qed.

(** After the first [reset] of a default-constructed index, every
    [rnd[k]] holds exactly [N] weights, each in [0, M). *)
Lemma reset_fresh_rndArray p now garbage :
  1 ≤ pM p < 2 ^ 32 →
  Forall (λ v, length v = Z.to_nat (pN p) ∧ Forall (λ x, 0 ≤ x < pM p) v)
         (rndArray (reset p now (fresh garbage))).
Proof.
  intros HM. pose proof (reset_rndArray p now (fresh garbage)) as Hf.
  simpl in Hf. rewrite resize_nil in Hf.
  assert (wrap32 (pM p - 1) = pM p - 1) as Hw
    by (unfold wrap32; apply Z.mod_small; lia).
  rewrite Hw in Hf.
  apply Forall_lookup_2. intros i v' Hv'.
  destruct (Forall2_lookup_r _ _ _ _ _ Hf Hv')
    as (v & Hv & new & -> & Hlen & Hnew).
  apply lookup_replicate in Hv as [-> _]. simpl. split; [done|].
  eapply Forall_impl; [done|]. simpl. lia.
Qed.

(** C7 (the code at a second [reset]).  The weights drawn by [reset] are
    appended: a table that held the weights [old] holds [old ++ new]
    afterwards, [new] being the [N] fresh draws.  So [reset] on an index
    that was reset before, with [N ≥ 1], leaves more than [N] weights in
    [rnd[k]], the first of them drawn for the earlier modulus. *)
Theorem reset_appends_weights p now st k old :
  rndArray st !! k = Some old → (k < Z.to_nat (pL p))%nat →
  ∃ new, rndArray (reset p now st) !! k = Some (old ++ new)
         ∧ length new = Z.to_nat (pN p).
Proof.
  intros Hold Hk.
  pose proof (reset_rndArray p now st) as Hf.
  assert (resize (Z.to_nat (pL p)) [] (rndArray st) !! k = Some old) as Hr.
  { rewrite lookup_resize; [done|lia|by eapply lookup_lt_Some]. }
  destruct (Forall2_lookup_l _ _ _ _ _ Hf Hr) as (v' & Hv' & new & -> & ? & _).
  eauto.
Qed.

End ResetFacts.

(** ** Properties of [train] *)

Lemma same_frame_refl st : same_frame st st.
Proof. by repeat split. Qed.

Lemma same_frame_trans st1 st2 st3 :
  same_frame st1 st2 → same_frame st2 st3 → same_frame st1 st3.
Proof.
  intros (? & ? & ? & ? & ?) (? & ? & ? & ? & ?). repeat split; congruence.
Qed.

Lemma store_transposed_shape m r w old out :
  store_transposed m r w old = Some out →
  length out = r ∧ Forall (λ row, length row = w) out.
Proof.
  unfold store_transposed. rewrite length_resize. intros Hs.
  apply (for_upto_inv_partial
    (λ i o, length o = r
            ∧ ∀ i' row, (i' < i)%nat → o !! i' = Some row → length row = w))
    in Hs.
  - destruct Hs as [Hlen Hrows]. split; [done|].
    apply Forall_lookup_2. intros i row Hrow. apply (Hrows i row); [|done].
    rewrite <- Hlen. by eapply lookup_lt_Some.
  - split; [by rewrite length_resize|]. intros ? ? ?. lia.
  - intros i o o' Hi [Hlen Hrows] Hstep.
    destruct (o !! i) as [row|] eqn:Hrow; simpl in Hstep; [|done].
    rewrite length_resize in Hstep.
    destruct (for_upto w _ _) as [row'|] eqn:Hinner; simpl in Hstep; [|done].
    injection Hstep as <-.
    apply (for_upto_inv_partial (λ _ (x : list float), length x = w))
      in Hinner.
    + split; [by rewrite length_insert|]. intros i' row2 Hi' Hrow2.
      destruct (decide (i' = i)) as [->|Hne].
      * rewrite list_lookup_insert_eq in Hrow2 by lia. congruence.
      * rewrite list_lookup_insert_ne in Hrow2 by done.
        apply (Hrows i' row2); [lia|done].
    + by rewrite length_resize.
    + intros j x y _ Hx Hy.
      destruct (coeff m j i); simpl in Hy; [|done].
      injection Hy as <-. by rewrite length_insert.
Qed.

Section TrainFacts.
Context {RNG : StdRandom} {EIG : EigenKernels}.

Lemma train_table_spec fuel data k st nd rng st' nd' rng' :
  train_table fuel data k (st, nd, rng) = Some (st', nd', rng') →
  ∃ R mat_pca om pcs om' pcs',
    omegasAll st !! k = Some om ∧ pcsAll st !! k = Some pcs
    ∧ store_transposed R (nN st) (nN st) om = Some om'
    ∧ store_transposed mat_pca (nN st) (nD st) pcs = Some pcs'
    ∧ st' = set_model k pcs' om' st.
Proof.
  unfold train_table. intros Ht.
  destruct (sample_seqs _ _ _ _ _) as [[seqs rng1]|]; simpl in Ht; [|done].
  destruct (for_upto (Z.to_nat (pS (param st))) _ _) as [tmp|];
    simpl in Ht; [|done].
  destruct (rowwise_sub _ _) as [centered|]; simpl in Ht; [|done].
  destruct (rightCols _ _) as [mat_pca|]; simpl in Ht; [|done].
  destruct (random_matrix _ _ _) as [[[R0 nd1] rng2]|]; simpl in Ht; [|done].
  destruct (for_upto (Z.to_nat (pI (param st))) _ _) as [R|];
    simpl in Ht; [|done].
  destruct (omegasAll st !! k) as [om|]; simpl in Ht; [|done].
  destruct (store_transposed R _ _ om) as [om'|] eqn:Hom; simpl in Ht; [|done].
  destruct (pcsAll st !! k) as [pcs|]; simpl in Ht; [|done].
  destruct (store_transposed mat_pca _ _ pcs) as [pcs'|] eqn:Hpcs;
    simpl in Ht; [|done].
  injection Ht as <- <- <-.
  exists R, mat_pca, om, pcs, om', pcs'. done.
Qed.

Lemma train_table_frame fuel data k st nd rng st' nd' rng' :
  train_table fuel data k (st, nd, rng) = Some (st', nd', rng') →
  same_frame st st'.
Proof.
  intros (R & mat_pca & om & pcs & om' & pcs' & _ & _ & _ & _ & ->)
    %train_table_spec.
  repeat split; simpl; by rewrite length_insert.
Qed.

Lemma train_table_trains fuel data k st nd rng st' nd' rng' :
  train_table fuel data k (st, nd, rng) = Some (st', nd', rng') →
  trained_table st' k.
Proof.
  intros (R & mat_pca & om & pcs & om' & pcs' & Hom & Hpcs & Hso & Hsp & ->)
    %train_table_spec.
  apply store_transposed_shape in Hso as [? ?].
  apply store_transposed_shape in Hsp as [? ?].
  split; simpl.
  - exists pcs'. rewrite list_lookup_insert_eq by (by eapply lookup_lt_Some).
    done.
  - exists om'. rewrite list_lookup_insert_eq by (by eapply lookup_lt_Some).
    done.
Qed.

Lemma train_table_keeps fuel data k st nd rng st' nd' rng' k' :
  train_table fuel data k (st, nd, rng) = Some (st', nd', rng') →
  trained_table st k' → trained_table st' k'.
Proof.
  intros Ht. destruct (decide (k' = k)) as [->|Hne].
  { intros _. by eapply train_table_trains. }
  apply train_table_spec in Ht
    as (R & mat_pca & om & pcs & om' & pcs' & _ & _ & _ & _ & ->).
  unfold trained_table. simpl. by rewrite !list_lookup_insert_ne.
Qed.

Lemma train_loop fuel data st acc :
  for_upto (nL st) (train_table fuel data)
    (st, normal_init, mt_seed acc.1) = Some acc.2 →
  same_frame st acc.2.1.1
  ∧ ∀ k, (k < nL st)%nat → trained_table acc.2.1.1 k.
Proof.
  intros Hloop.
  apply (for_upto_inv_partial
    (λ j (a : itqLsh * normal_state * mt19937),
       same_frame st a.1.1 ∧ ∀ k, (k < j)%nat → trained_table a.1.1 k))
    in Hloop; [done| |].
  - split; [apply same_frame_refl|]. intros ? ?. lia.
  - intros j [[x nd] rng] [[y nd'] rng'] Hj [Hf Hk] Hy. simpl in *. split.
    + eapply same_frame_trans; [done|]. by eapply train_table_frame.
    + intros k Hlt. destruct (decide (k = j)) as [->|Hne].
      * by eapply train_table_trains.
      * eapply train_table_keeps; [done|]. apply Hk. lia.
Qed.

Lemma train_spec fuel now data st st' :
  train fuel now data st = Some st' →
  same_frame st st' ∧ ∀ k, (k < nL st)%nat → trained_table st' k.
Proof.
  unfold train. intros Ht.
  destruct (2 ^ 31 <=? pN (param st)); [done|].
  destruct (for_upto _ _ _) as [[[s nd] rng]|] eqn:Hloop; simpl in Ht; [|done].
  injection Ht as <-.
  exact (train_loop fuel data st (wrap32 now, (s, nd, rng)) Hloop).
Qed.

(** C8.  A call of [train] that returns has written [pcs] and [omegas]
    only: the parameters, every [rnd[k]] and every table of buckets are
    what they were before the call. *)
Theorem train_frame fuel now data st st' :
  train fuel now data st = Some st' →
  param st' = param st ∧ rndArray st' = rndArray st ∧ tables st' = tables st.
Proof.
  intros [(Hp & Hr & Ht & _) _]%train_spec. done.
Qed.

End TrainFacts.

(** ** Bytes and streams *)

Lemma le_combine_split_u32 z : is_u32 z → le_combine (le_split 4 z) = z.
Proof.
  intros Hz. rewrite le_combine_split.
  change (2 ^ (Z.of_nat 4 * 8)) with (2 ^ 32). by apply Z.mod_small.
Qed.

Lemma to_bytes_length x : length (F32.to_bytes x) = 4%nat.
Proof. done. Qed.

Lemma of_to_bytes x : F32.of_bytes (F32.to_bytes x) = x.
Proof. by destruct x. Qed.

Lemma ifs_read_app n bs rest :
  length bs = n → ifs_read n (mkIfs (bs ++ rest) true) = (bs, mkIfs rest true).
Proof.
  intros <-. unfold ifs_read. cbn [ibuf igood].
  rewrite length_app.
  destruct (Nat.leb_spec (length bs) (length bs + length rest)); [|lia].
  by rewrite take_app_length, drop_app_length.
Qed.

Section Words.
Context {A : Type} (enc : A → list byte).
Hypothesis enc_length : ∀ a, length (enc a) = 4%nat.

Lemma bind_enc_length (v : list A) : length (v ≫= enc) = (4 * length v)%nat.
Proof.
  induction v as [|a v IH]; [done|].
  cbn [mbind list_bind]. rewrite length_app, enc_length, IH. simpl. lia.
Qed.

Lemma words_of_bytes_enc (v : list A) :
  words_of_bytes (length v) (v ≫= enc) = enc <$> v.
Proof.
  induction v as [|a v IH]; [done|].
  cbn [mbind list_bind length words_of_bytes fmap list_fmap].
  rewrite take_app_length', drop_app_length' by (by rewrite enc_length).
  by rewrite IH.
Qed.

(** A read of a whole vector from a stream that holds it. *)
Lemma read_whole (old new : list A) rest :
  length old = length new →
  ifs_read (4 * length old) (mkIfs ((new ≫= enc) ++ rest) true)
  = (new ≫= enc, mkIfs rest true)
  ∧ overlay (new ≫= enc) (old ≫= enc) = new ≫= enc.
Proof.
  intros Hlen.
  assert (length (new ≫= enc) = (4 * length old)%nat) as Hn
    by (rewrite bind_enc_length; lia).
  split; [by apply ifs_read_app|]. unfold overlay.
  rewrite drop_ge; [by rewrite app_nil_r|].
  rewrite bind_enc_length. lia.
Qed.

End Words.

Lemma read_u32_ok old z rest :
  is_u32 z →
  read_u32 old (mkIfs (le_split 4 z ++ rest) true) = (z, mkIfs rest true).
Proof.
  intros Hz. unfold read_u32, overlay.
  rewrite ifs_read_app by apply length_le_split.
  rewrite drop_ge by (rewrite !length_le_split; lia).
  by rewrite app_nil_r, le_combine_split_u32.
Qed.

Lemma read_local_ok z rest :
  is_u32 z →
  read_local (mkIfs (le_split 4 z ++ rest) true) = Some (z, mkIfs rest true).
Proof.
  intros Hz. unfold read_local.
  rewrite ifs_read_app by apply length_le_split.
  rewrite length_le_split. cbn [Nat.eqb].
  by rewrite le_combine_split_u32.
Qed.

Lemma read_u32s_ok old new rest :
  length old = length new → Forall is_u32 new →
  read_u32s old (mkIfs (u32s_bytes new ++ rest) true)
  = (new, mkIfs rest true).
Proof.
  intros Hlen Hnew. unfold read_u32s, u32s_bytes.
  destruct (read_whole (le_split 4) (length_le_split 4) old new rest Hlen)
    as [-> ->].
  rewrite Hlen, words_of_bytes_enc by apply length_le_split.
  f_equal. rewrite <- list_fmap_compose.
  rewrite <- (list_fmap_id new) at 2.
  apply Forall_fmap_ext_1. eapply Forall_impl; [done|].
  intros z Hz. simpl. by apply le_combine_split_u32.
Qed.

Lemma read_floats_ok old new rest :
  length old = length new →
  read_floats old (mkIfs (floats_bytes new ++ rest) true)
  = (new, mkIfs rest true).
Proof.
  intros Hlen. unfold read_floats, floats_bytes.
  destruct (read_whole F32.to_bytes to_bytes_length old new rest Hlen)
    as [-> ->].
  rewrite Hlen, words_of_bytes_enc by apply to_bytes_length.
  f_equal. rewrite <- list_fmap_compose.
  rewrite <- (list_fmap_id new) at 2.
  apply list_fmap_ext. intros i x _. simpl. apply of_to_bytes.
Qed.

(** ** The layout of the file *)

Lemma foldl_append {A} (blk : A → list byte) (l : list A) out :
  foldl (λ out a, out ++ blk a) out l = out ++ (l ≫= blk).
Proof.
  revert out. induction l as [|a l IH]; intros out; simpl.
  - by rewrite app_nil_r.
  - by rewrite IH, <- app_assoc.
Qed.

Lemma map_items_perm (t : gmap Z (list Z)) : map_items t ≡ₚ map_to_list t.
Proof. apply merge_sort_Permutation. Qed.

Lemma map_items_ok (t : gmap Z (list Z)) :
  map_Forall (λ h ids, bucket_ok (h, ids)) t → Forall bucket_ok (map_items t).
Proof.
  intros Hall. rewrite map_items_perm. apply Forall_forall.
  intros [h ids] Hin. apply elem_of_map_to_list in Hin. by apply Hall.
Qed.

Lemma save_buckets_bytes out items :
  Forall bucket_ok items →
  foldl save_bucket out items = out ++ (items ≫= bucket_bytes).
Proof.
  intros Hok. rewrite <- foldl_append. revert out.
  induction Hok as [|e items (_ & Hlen & _) _ IH]; intros out; [done|].
  simpl. rewrite <- IH. f_equal. unfold save_bucket, bucket_bytes.
  assert (wrap32 (Z.of_nat (length e.2)) = Z.of_nat (length e.2)) as ->
    by (unfold wrap32; apply Z.mod_small; lia).
  rewrite Nat2Z.id, firstn_all. by rewrite <- !app_assoc.
Qed.

Lemma save_rows_loop st i out pcs om :
  pcsAll st !! i = Some pcs → omegasAll st !! i = Some om →
  length pcs = nN st → Forall (λ r, length r = nD st) pcs →
  length om = nN st → Forall (λ r, length r = nN st) om →
  for_upto (nN st) (save_rows st i) out
  = Some (out ++ (seq 0 (nN st) ≫= row_bytes pcs om)).
Proof.
  intros Hpcs Hom Hlp Hrp Hlo Hro. rewrite <- foldl_append.
  apply (for_upto_fold (λ out j, out ++ row_bytes pcs om j) (λ _ _, True));
    [done|].
  intros j o Hj _. split; [|done].
  unfold save_rows, row_bytes. rewrite Hpcs, Hom. cbn [mbind option_bind].
  destruct (lookup_lt_is_Some_2 pcs j) as [prow Hprow]; [lia|].
  destruct (lookup_lt_is_Some_2 om j) as [orow Horow]; [lia|].
  pose proof (Forall_lookup_1 _ _ _ _ Hrp Hprow) as Hp. cbn beta in Hp.
  pose proof (Forall_lookup_1 _ _ _ _ Hro Horow) as Ho. cbn beta in Ho.
  rewrite Hprow, Horow. cbn [mbind option_bind]. unfold storage_prefix.
  rewrite Hp, Ho, !Nat.leb_refl. cbn [mbind option_bind].
  rewrite <- Hp at 1. rewrite <- Ho at 1. rewrite !firstn_all.
  rewrite (list_lookup_total_correct _ _ _ Hprow).
  rewrite (list_lookup_total_correct _ _ _ Horow).
  by rewrite <- app_assoc.
Qed.

Lemma save_table_spec st i out :
  table_saveable st i →
  save_table st i out = Some (out ++ table_bytes st i).
Proof.
  intros (((pcs & Hpcs & Hlp & Hrp) & (om & Hom & Hlo & Hro))
          & (rnd & Hrnd & Hlr & _) & (t & Ht & Hsize & Hall)).
  unfold save_table, table_bytes.
  rewrite Hrnd. cbn [mbind option_bind]. unfold storage_prefix.
  rewrite <- Hlr, Nat.leb_refl, firstn_all. cbn [mbind option_bind].
  rewrite Ht. cbn [mbind option_bind].
  rewrite save_buckets_bytes by (by apply map_items_ok).
  rewrite Hlr. rewrite (save_rows_loop st i _ pcs om) by done.
  assert (wrap32 (Z.of_nat (size t)) = Z.of_nat (size t)) as ->
    by (unfold wrap32; apply Z.mod_small; lia).
  rewrite (list_lookup_total_correct _ _ _ Hrnd).
  rewrite (list_lookup_total_correct _ _ _ Ht).
  rewrite (list_lookup_total_correct _ _ _ Hpcs).
  rewrite (list_lookup_total_correct _ _ _ Hom).
  by rewrite <- !app_assoc.
Qed.

Lemma save_spec st : saveable st → save st = Some (file_bytes st).
Proof.
  intros (_ & _ & _ & _ & _ & Htab). unfold save, file_bytes.
  rewrite <- foldl_append.
  apply (for_upto_fold (λ out i, out ++ table_bytes st i) (λ _ _, True));
    [done|].
  intros i out Hi _. split; [|done]. apply save_table_spec. by apply Htab.
Qed.

(** ** Reading the file back *)

(** A loop that consumes one block of the stream per turn. *)
Lemma for_from_consume {A} (Inv : nat → A → Prop) (blk : nat → list byte)
  (body : nat → A * ifstream → option (A * ifstream)) n :
  ∀ i a rest,
    Inv i a →
    (∀ j x rest', (i ≤ j < i + n)%nat → Inv j x →
       ∃ y, body j (x, mkIfs (blk j ++ rest') true)
            = Some (y, mkIfs rest' true) ∧ Inv (S j) y) →
    ∃ r, for_from i n body (a, mkIfs ((seq i n ≫= blk) ++ rest) true)
         = Some (r, mkIfs rest true) ∧ Inv (i + n)%nat r.
Proof.
  induction n as [|n IH]; intros i a rest Ha Hstep.
  - exists a. rewrite Nat.add_0_r. done.
  - cbn [seq mbind list_bind]. rewrite <- app_assoc.
    destruct (Hstep i a ((seq (S i) n ≫= blk) ++ rest)) as (y & Hy & HI);
      [lia|done|].
    destruct (IH (S i) y rest HI) as (r & Hr & HIr).
    { intros j x rest' Hj. apply Hstep. lia. }
    exists r. rewrite for_from_S_l, Hy. cbn [mbind option_bind].
    by replace (i + S n)%nat with (S i + n)%nat by lia.
Qed.

Lemma lookup_take_replicate {A} (l : list A) d n j :
  (j < n)%nat → (j ≤ length l)%nat →
  (take j l ++ replicate (n - j) d) !! j = Some d.
Proof.
  intros Hj Hl. rewrite lookup_app_r by (rewrite length_take; lia).
  rewrite length_take, Nat.min_l, Nat.sub_diag by lia.
  apply lookup_replicate_2. lia.
Qed.

Lemma insert_take_replicate {A} (l : list A) d n j x :
  l !! j = Some x → (j < n)%nat →
  <[j := x]> (take j l ++ replicate (n - j) d)
  = take (S j) l ++ replicate (n - S j) d.
Proof.
  intros Hx Hj. pose proof (lookup_lt_Some _ _ _ Hx) as Hl.
  rewrite insert_app_r_alt by (rewrite length_take; lia).
  rewrite length_take, Nat.min_l, Nat.sub_diag by lia.
  replace (n - j)%nat with (S (n - S j)) by lia. cbn [replicate].
  rewrite (take_S_r _ _ _ Hx), <- app_assoc. done.
Qed.

Lemma load_rows_loop st pcs om rest :
  length pcs = nN st → Forall (λ r, length r = nD st) pcs →
  length om = nN st → Forall (λ r, length r = nN st) om →
  for_upto (nN st) (load_rows st)
    (replicate (nN st) [], replicate (nN st) [],
     mkIfs ((seq 0 (nN st) ≫= row_bytes pcs om) ++ rest) true)
  = Some (pcs, om, mkIfs rest true).
Proof.
  intros Hlp Hrp Hlo Hro. unfold for_upto.
  destruct (for_from_consume
    (λ j (a : list (list float) * list (list float)),
       a.1 = take j pcs ++ replicate (nN st - j) []
       ∧ a.2 = take j om ++ replicate (nN st - j) [])
    (row_bytes pcs om) (load_rows st) (nN st) 0
    (replicate (nN st) [], replicate (nN st) []) rest)
    as ([p o] & Hr & Hp & Ho).
  - by rewrite Nat.sub_0_r.
  - intros j [p o] rest' Hj [Hp Ho]. simpl in Hp, Ho. subst p o.
    destruct (lookup_lt_is_Some_2 pcs j) as [prow Hprow]; [lia|].
    destruct (lookup_lt_is_Some_2 om j) as [orow Horow]; [lia|].
    pose proof (Forall_lookup_1 _ _ _ _ Hrp Hprow) as Hpl. cbn beta in Hpl.
    pose proof (Forall_lookup_1 _ _ _ _ Hro Horow) as Hol. cbn beta in Hol.
    unfold load_rows, row_bytes.
    rewrite !lookup_take_replicate by lia. cbn [mbind option_bind].
    rewrite (list_lookup_total_correct _ _ _ Hprow).
    rewrite (list_lookup_total_correct _ _ _ Horow).
    rewrite <- app_assoc.
    rewrite read_floats_ok by (by rewrite length_resize).
    rewrite read_floats_ok by (by rewrite length_resize).
    eexists; split; [done|]. simpl.
    by rewrite !insert_take_replicate by (done || lia).
  - simpl in Hp, Ho. rewrite Hr. subst p o.
    rewrite Nat.sub_diag, !app_nil_r.
    by rewrite !take_ge by lia.
Qed.

Lemma load_bucket_step i j ts t e rest :
  ts !! i = Some t → bucket_ok e →
  load_bucket i j (ts, mkIfs (bucket_bytes e ++ rest) true)
  = Some (<[i := <[e.1 := e.2]> t]> ts, mkIfs rest true).
Proof.
  intros Ht (Hkey & Hlen & Hids). unfold load_bucket, bucket_bytes.
  rewrite <- !app_assoc.
  rewrite read_local_ok by done. cbn [mbind option_bind].
  rewrite read_local_ok by (unfold is_u32; lia). cbn [mbind option_bind].
  rewrite Ht. cbn [mbind option_bind]. unfold map_subscript.
  destruct (t !! e.1) as [old|].
  - rewrite read_u32s_ok by (rewrite ?length_resize; done || lia). done.
  - rewrite read_u32s_ok by (rewrite ?length_resize; done || lia).
    by rewrite insert_insert_eq.
Qed.

Lemma load_buckets_loop i items : ∀ j ts t rest,
  ts !! i = Some t → Forall bucket_ok items →
  for_from j (length items) (load_bucket i)
    (ts, mkIfs ((items ≫= bucket_bytes) ++ rest) true)
  = Some (<[i := foldl (λ t e, <[e.1 := e.2]> t) t items]> ts,
          mkIfs rest true).
Proof.
  induction items as [|e items IH]; intros j ts t rest Ht Hok.
  - simpl. by rewrite list_insert_id.
  - apply Forall_cons in Hok as [He Hok].
    cbn [length mbind list_bind foldl]. rewrite <- app_assoc, for_from_S_l.
    rewrite (load_bucket_step i j ts t e _ Ht He). cbn [mbind option_bind].
    rewrite (IH (S j) _ (<[e.1 := e.2]> t)); [|..|done].
    + by rewrite list_insert_insert_eq.
    + apply list_lookup_insert_eq. by eapply lookup_lt_Some.
Qed.

Lemma foldl_insert_list_to_map (l : list (Z * list Z)) :
  NoDup (l.*1) →
  foldl (λ t e, <[e.1 := e.2]> t) (∅ : gmap Z (list Z)) l = list_to_map l.
Proof.
  induction l as [|[h ids] l IH] using rev_ind; intros Hnd; [done|].
  rewrite fmap_app in Hnd. apply NoDup_app in Hnd as (Hl & Hnot & _).
  rewrite foldl_app. simpl. rewrite IH by done.
  rewrite list_to_map_snoc; [done|].
  intros Hin. apply (Hnot h Hin). simpl. apply list_elem_of_here.
Qed.

Lemma rebuild_map_items (t : gmap Z (list Z)) :
  foldl (λ t e, <[e.1 := e.2]> t) (∅ : gmap Z (list Z)) (map_items t) = t.
Proof.
  assert (NoDup ((map_items t).*1)) as Hnd.
  { rewrite map_items_perm. apply NoDup_fst_map_to_list. }
  rewrite foldl_insert_list_to_map by done.
  rewrite (list_to_map_proper _ (map_to_list t) Hnd (map_items_perm t)).
  apply list_to_map_to_list.
Qed.

Lemma map_items_length (t : gmap Z (list Z)) : length (map_items t) = size t.
Proof. by rewrite map_items_perm, length_map_to_list. Qed.

Lemma load_table_step st p cur i rest :
  saveable st → (i < nL st)%nat →
  pN p = pN (param st) → pD p = pD (param st) →
  loaded_upto st p i cur →
  ∃ cur', load_table i (cur, mkIfs (table_bytes st i ++ rest) true)
          = Some (cur', mkIfs rest true)
          ∧ loaded_upto st p (S i) cur'.
Proof.
  intros (_ & Hlp & Hlo & Hlr & Hlt & Htab) Hi HN HD
         (Hp & Hpcs & Hom & Hrnd & Hts).
  destruct (Htab i Hi)
    as (((pcs & Hpcsi & Hpl & Hprows) & (om & Homi & Hol & Horows))
        & (rnd & Hrndi & Hrl & Hru) & (t & Hti & Hsize & Hall)).
  assert (nN cur = nN st) as HnN by (unfold nN; by rewrite Hp, HN).
  assert (nD cur = nD st) as HnD by (unfold nD; by rewrite Hp, HD).
  unfold load_table, table_bytes.
  rewrite (list_lookup_total_correct _ _ _ Hrndi).
  rewrite (list_lookup_total_correct _ _ _ Hti).
  rewrite (list_lookup_total_correct _ _ _ Hpcsi).
  rewrite (list_lookup_total_correct _ _ _ Homi).
  rewrite <- !app_assoc.
  rewrite Hrnd, lookup_take_replicate by lia. cbn [mbind option_bind].
  rewrite read_u32s_ok by (rewrite ?length_resize; done || lia).
  rewrite read_local_ok by (unfold is_u32; lia). cbn [mbind option_bind].
  rewrite Nat2Z.id, <- map_items_length.
  change (for_upto (length (map_items t)) (load_bucket i))
    with (for_from 0 (length (map_items t)) (load_bucket i)).
  rewrite (load_buckets_loop i (map_items t) 0 (tables cur) ∅).
  2:{ rewrite Hts. apply lookup_take_replicate; lia. }
  2:{ by apply map_items_ok. }
  cbn [mbind option_bind]. rewrite rebuild_map_items.
  rewrite Hpcs, Hom, !lookup_take_replicate by lia. cbn [mbind option_bind].
  rewrite !resize_nil, HnN, <- HnN.
  rewrite (load_rows_loop cur pcs om rest) by (rewrite ?HnN, ?HnD; done).
  cbn [mbind option_bind]. eexists; split; [done|].
  split; [done|]. simpl. rewrite Hts.
  by rewrite !insert_take_replicate by done.
Qed.

(** What [load] makes of the file of [st] on a default-constructed index:
    the state [st], except for [I], which keeps the value it had. *)
Lemma load_spec st garbage :
  saveable st →
  load (Some (file_bytes st)) (fresh garbage)
  = Some (mkLsh (with_I (pI garbage) (param st)) (pcsAll st) (omegasAll st)
            (rndArray st) (tables st)).
Proof.
  intros Hsav. pose proof Hsav as ((HM & HL & HD & HN & HS) & Hlp & Hlo
                                   & Hlr & Hlt & Htab).
  unfold load, file_bytes, save_header, ifs_open. rewrite <- !app_assoc.
  rewrite !read_u32_ok by done. cbn [fresh pcsAll omegasAll rndArray tables
                                     param pI].
  rewrite !resize_nil. fold (nL st). unfold for_upto.
  destruct (for_from_consume
    (loaded_upto st (with_I (pI garbage) (param st)))
    (table_bytes st) load_table (nL st) 0
    (mkLsh (with_I (pI garbage) (param st))
       (replicate (nL st) []) (replicate (nL st) [])
       (replicate (nL st) []) (replicate (nL st) ∅)) [])
    as (r & Hr & Hp & Hpcs & Hom & Hrnd & Hts).
  - repeat split; simpl; by rewrite Nat.sub_0_r.
  - intros j x rest' Hj Hx. apply load_table_step; [done|lia|done..].
  - rewrite app_nil_r in Hr. unfold with_I in Hr. rewrite Hr.
    cbn [mbind option_bind]. f_equal. destruct r as [rp rpcs rom rrnd rts].
    simpl in *. subst.
    rewrite Nat.sub_diag, !app_nil_r.
    by rewrite !take_ge by lia.
Qed.

(** ** States built by [reset], [train], [insert] *)

Lemma size_bounded_keys (t : gmap Z (list Z)) m :
  0 ≤ m → (∀ h ids, t !! h = Some ids → 0 ≤ h < m) → Z.of_nat (size t) ≤ m.
Proof.
  intros Hm Hkeys.
  assert (dom t ⊆ (list_to_set (seqZ 0 m) : gset Z)) as Hsub.
  { intros h [ids Hh]%elem_of_dom. apply elem_of_list_to_set, elem_of_seqZ.
    specialize (Hkeys h ids Hh). lia. }
  apply subseteq_size in Hsub.
  rewrite size_dom, size_list_to_set, length_seqZ in Hsub
    by apply NoDup_seqZ.
  lia.
Qed.

Lemma insert_table_tables_ok key v k st st' :
  is_u32 key → 0 ≤ pM (param st) → tables_ok st →
  insert_table key v k st = Some st' → tables_ok st'.
Proof.
  intros Hkey HM Hok (h & t & Hh & Ht & ->)%insert_table_spec
         k' t' h' ids Ht' Hb.
  simpl in *. destruct (decide (k' = k)) as [->|Hne].
  - rewrite list_lookup_insert_eq in Ht' by (by eapply lookup_lt_Some).
    injection Ht' as <-. destruct (decide (h' = h)) as [->|Hh'].
    + rewrite bucket_push_same in Hb. injection Hb as <-. split.
      * apply getHashVal_residue in Hh as (HM0 & sum & ->).
        apply Z.mod_pos_bound. lia.
      * apply Forall_app. split; [|by apply Forall_singleton].
        destruct (t !! h) as [old|] eqn:E; simpl; [|apply Forall_nil_2].
        by destruct (Hok k t h old Ht E).
    + rewrite bucket_push_other in Hb by done. by apply (Hok k t h' ids).
  - rewrite list_lookup_insert_ne in Ht' by done. by apply (Hok k' t' h' ids).
Qed.

Lemma insert_tables_ok key v st st' :
  is_u32 key → 0 ≤ pM (param st) → tables_ok st →
  insert key v st = Some st' → tables_ok st'.
Proof.
  unfold insert. intros Hkey HM Hok Hi.
  apply (for_upto_inv_partial (λ _ s, same_model st s ∧ tables_ok s)) in Hi.
  - by destruct Hi.
  - split; [apply same_model_refl|done].
  - intros j x y _ [Hm Hx] Hy. split.
    + eapply same_model_trans; [done|]. by eapply insert_table_same_model.
    + eapply insert_table_tables_ok; [done| |done..].
      by destruct Hm as [-> _].
Qed.

Lemma hash_same_model data st st' :
  hash data st = Some st' → same_model st st'.
Proof.
  unfold hash. intros Hh.
  apply (for_upto_inv_partial (λ _ s, same_model st s) _ _ _ _
           (same_model_refl st)) in Hh; [done|].
  intros j x y _ Hx Hy. eapply same_model_trans; [done|].
  by eapply insert_same_model.
Qed.

Lemma hash_tables_ok data st st' :
  Z.of_nat (getSize data) ≤ 2 ^ 32 → 0 ≤ pM (param st) → tables_ok st →
  hash data st = Some st' → tables_ok st'.
Proof.
  unfold hash. intros Hsz HM Hok Hh.
  apply (for_upto_inv_partial (λ _ s, same_model st s ∧ tables_ok s)) in Hh.
  - by destruct Hh.
  - split; [apply same_model_refl|done].
  - intros j x y Hj [Hm Hx] Hy. split.
    + eapply same_model_trans; [done|]. by eapply insert_same_model.
    + eapply insert_tables_ok; [| |done..].
      * unfold is_u32. lia.
      * by destruct Hm as [-> _].
Qed.

Lemma model_base_same_model st st' :
  same_model st st' → model_base st → model_base st'.
Proof.
  intros (Hp & Hpc & Hom & Hrnd & Hl).
  unfold model_base, nL, nN. by rewrite Hp, Hpc, Hom, Hrnd, Hl.
Qed.

Lemma all_trained_same_model st st' :
  same_model st st' → all_trained st → all_trained st'.
Proof.
  intros (Hp & Hpc & Hom & Hrnd & Hl).
  unfold all_trained, trained_table, nL, nN, nD. by rewrite Hp, Hpc, Hom.
Qed.

Lemma model_base_same_frame st st' :
  same_frame st st' → model_base st → model_base st'.
Proof.
  intros (Hp & Hrnd & Hts & Hlp & Hlo).
  unfold model_base, nL, nN. by rewrite Hp, Hrnd, Hts, Hlp, Hlo.
Qed.

Lemma tables_ok_same_frame st st' :
  same_frame st st' → tables_ok st → tables_ok st'.
Proof.
  intros (Hp & _ & Hts & _). unfold tables_ok. by rewrite Hp, Hts.
Qed.

Lemma saveable_intro st :
  model_base st → all_trained st → tables_ok st → buckets_bounded st →
  saveable st.
Proof.
  intros (Hh & Hlp & Hlo & Hlr & Hlt & Hi) Htr Hok Hb.
  split; [done|]. do 4 (split; [done|]). intros i Hlt'.
  split; [by apply Htr|]. split; [by apply Hi|].
  destruct (lookup_lt_is_Some_2 (tables st) i) as [t Ht]; [lia|].
  exists t. split; [done|]. destruct Hh as ((HM0 & HM1) & _). split.
  - pose proof (size_bounded_keys t (pM (param st)) HM0) as Hs.
    assert (Z.of_nat (size t) ≤ pM (param st)); [|lia].
    apply Hs. intros h ids Hhb. by destruct (Hok i t h ids Ht Hhb).
  - intros h ids Hhb. destruct (Hok i t h ids Ht Hhb) as [Hr Hids].
    split; [simpl; unfold is_u32; lia|]. split; [|done].
    by apply (Hb i t h ids).
Qed.

Lemma saveable_roundtrips st garbage : saveable st → roundtrips st garbage.
Proof.
  intros Hs. eexists _, _. split; [by apply save_spec|].
  split; [by apply load_spec|]. done.
Qed.

Section Populated.
Context {RNG : StdRandom} {EIG : EigenKernels}.

Lemma reset_fresh_base garbage p now :
  header_ok p →
  model_base (reset p now (fresh garbage))
  ∧ tables_ok (reset p now (fresh garbage)).
Proof.
  intros Hp.
  destruct (reset_lengths p now (fresh garbage)) as (Lt & Lr & Lp & Lo).
  assert (nL (reset p now (fresh garbage)) = Z.to_nat (pL p)) as HnL
    by (unfold nL; by rewrite reset_param).
  assert (nN (reset p now (fresh garbage)) = Z.to_nat (pN p)) as HnN
    by (unfold nN; by rewrite reset_param).
  split.
  - split; [by rewrite reset_param|].
    rewrite Lt, Lr, Lp, Lo, HnL. do 4 (split; [done|]).
    intros i Hi.
    destruct (lookup_lt_is_Some_2 (rndArray (reset p now (fresh garbage))) i)
      as [rnd Hr]; [lia|].
    exists rnd. split; [done|].
    pose proof (reset_rndArray p now (fresh garbage)) as Hf.
    destruct (Forall2_lookup_r _ _ _ _ _ Hf Hr)
      as (v & Hv & new & -> & Hlen & Hnew).
    simpl in Hv. rewrite resize_nil in Hv.
    apply lookup_replicate in Hv as [-> _]. simpl. split; [lia|].
    eapply Forall_impl; [done|]. intros x Hx. simpl in Hx.
    unfold is_u32. unfold wrap32 in Hx.
    pose proof (Z.mod_pos_bound (pM p - 1) (2 ^ 32)). lia.
  - intros k t h ids Ht Hb. rewrite reset_tables in Ht.
    simpl in Ht. rewrite resize_nil in Ht.
    apply lookup_replicate in Ht as [-> _]. by rewrite lookup_empty in Hb.
Qed.

Lemma built_invariant b st :
  built b st →
  model_base st ∧ tables_ok st ∧ (b = true → all_trained st).
Proof.
  induction 1 as [garbage p now Hp
                 |b fuel now data st st' _ (IHm & IHt & IHb) Htrain
                 |b st key v st' _ (IHm & IHt & IHb) Hkey Hins
                 |b st data st' _ (IHm & IHt & IHb) Hsz Hhash].
  - destruct (reset_fresh_base garbage p now Hp). done.
  - destruct (train_spec _ _ _ _ _ Htrain) as [Hf Htr].
    split; [by eapply model_base_same_frame|].
    split; [by eapply tables_ok_same_frame|].
    intros _ i Hi. apply Htr. destruct Hf as (Hpar & _).
    unfold nL in *. by rewrite <- Hpar.
  - pose proof (insert_same_model _ _ _ _ Hins) as Hm.
    split; [by eapply model_base_same_model|]. split.
    + eapply insert_tables_ok; [done| |done..].
      by destruct IHm as (((? & _) & _) & _).
    + intros Hb. eapply all_trained_same_model; [done|]. by apply IHb.
  - pose proof (hash_same_model _ _ _ Hhash) as Hm.
    split; [by eapply model_base_same_model|]. split.
    + eapply hash_tables_ok; [done| |done..].
      by destruct IHm as (((? & _) & _) & _).
    + intros Hb. eapply all_trained_same_model; [done|]. by apply IHb.
Qed.

(** C4 (amended).  For every state of an index that was
    default-constructed, reset once with 32-bit parameters, trained, and
    populated by [insert] with 32-bit keys or [hash] (in any order, [train]
    at least once), and in which every bucket holds fewer than [2^32] ids:
    [save] returns a file, and [load] of that file on a default-constructed
    index returns a state with the same [M, L, D, N, S], the same [pcs],
    [omegas] and [rnd], and the same tables, bucket for bucket, ids in
    insertion order. *)
Theorem save_load_roundtrip st garbage :
  built true st → buckets_bounded st → roundtrips st garbage.
Proof.
  intros (Hm & Ht & Hb)%built_invariant Hbound.
  apply saveable_roundtrips, saveable_intro; auto.
Qed.

End Populated.

(** ** The iteration count and the file *)

Lemma save_buckets_prefix items : ∀ out,
  out `prefix_of` foldl save_bucket out items.
Proof.
  induction items as [|e items IH]; intros out; simpl; [done|].
  etrans; [|apply IH]. unfold save_bucket.
  rewrite <- !app_assoc. by apply prefix_app_r.
Qed.

Lemma save_table_prefix st i out out' :
  save_table st i out = Some out' → out `prefix_of` out'.
Proof.
  unfold save_table. intros Hs.
  destruct (rndArray st !! i) as [rnd|]; simpl in Hs; [|done].
  destruct (storage_prefix (nN st) rnd) as [w|]; simpl in Hs; [|done].
  destruct (tables st !! i) as [t|]; simpl in Hs; [|done].
  apply (for_upto_inv_partial (λ _ o, out `prefix_of` o)) in Hs; [done| |].
  - etrans; [|apply save_buckets_prefix].
    rewrite <- app_assoc. by apply prefix_app_r.
  - intros j x y _ Hx Hy. unfold save_rows in Hy.
    destruct (pcsAll st !! i) as [pcs|]; simpl in Hy; [|done].
    destruct (pcs !! j) as [prow|]; simpl in Hy; [|done].
    destruct (storage_prefix (nD st) prow) as [pw|]; simpl in Hy; [|done].
    destruct (omegasAll st !! i) as [om|]; simpl in Hy; [|done].
    destruct (om !! j) as [orow|]; simpl in Hy; [|done].
    destruct (storage_prefix (nN st) orow) as [ow|]; simpl in Hy; [|done].
    injection Hy as <-. etrans; [done|].
    rewrite <- app_assoc. by apply prefix_app_r.
Qed.

Lemma save_header_prefix st file :
  save st = Some file → save_header (param st) `prefix_of` file.
Proof.
  unfold save. intros Hs.
  apply (for_upto_inv_partial
           (λ _ o, save_header (param st) `prefix_of` o)) in Hs; [done..|].
  intros j x y _ Hx Hy. etrans; [done|]. by eapply save_table_prefix.
Qed.

Lemma load_table_param i st s st' s' :
  load_table i (st, s) = Some (st', s') → param st' = param st.
Proof.
  unfold load_table. intros Hl.
  destruct (rndArray st !! i) as [rnd|]; simpl in Hl; [|done].
  destruct (read_u32s _ s) as [rnd' s1].
  destruct (read_local s1) as [[count s2]|]; simpl in Hl; [|done].
  destruct (for_upto (Z.to_nat count) _ _) as [[ts s3]|]; simpl in Hl; [|done].
  destruct (pcsAll st !! i) as [pcs|]; simpl in Hl; [|done].
  destruct (omegasAll st !! i) as [om|]; simpl in Hl; [|done].
  destruct (for_upto (nN st) _ _) as [[[pcs' om'] s4]|]; simpl in Hl; [|done].
  by injection Hl as <- _.
Qed.

(** C9.  [I] is not part of the file and [load] does not touch it: the
    bytes written by [save] do not depend on [I]; they begin with the five
    header words [M, L, D, N, S] and nothing else; and after a [load] that
    returns, of any file or of none, [param.I] has the value it had
    before. *)
Theorem iteration_count_not_persisted :
  (∀ st i, save (set_I i st) = save st)
  ∧ (∀ st file, save st = Some file →
       take 20 file
       = le_split 4 (pM (param st)) ++ le_split 4 (pL (param st))
         ++ le_split 4 (pD (param st)) ++ le_split 4 (pN (param st))
         ++ le_split 4 (pS (param st)))
  ∧ (∀ file st st', load file st = Some st' → pI (param st') = pI (param st)).
Proof.
  split; [|split].
  - by intros [[m l d n s i0] pcs om rnd ts] i.
  - intros st file [rest ->]%save_header_prefix.
    apply take_app_length'. unfold save_header.
    by rewrite !length_app, !length_le_split.
  - intros file st st'. unfold load. intros Hl.
    destruct (read_u32 (pM (param st)) _) as [m s1].
    destruct (read_u32 (pL (param st)) _) as [l s2].
    destruct (read_u32 (pD (param st)) _) as [d s3].
    destruct (read_u32 (pN (param st)) _) as [n s4].
    destruct (read_u32 (pS (param st)) _) as [s_ s5].
    destruct (for_upto (Z.to_nat l) load_table _) as [[r s6]|] eqn:Hloop;
      simpl in Hl; [|done].
    injection Hl as <-.
    apply (for_upto_inv_partial
             (λ _ (a : itqLsh * ifstream),
                pI (param a.1) = pI (param st))) in Hloop; [done..|].
    intros j [x sx] [y sy] _ Hx Hy. simpl in *.
    by rewrite (load_table_param _ _ _ _ _ Hy).
Qed.

(** ** The run: the properties on scenario S1 *)

Example ex_train_runs :
  train (RNG := lcg) (EIG := naive_kernels) 100 999 ex_data ex_reset
  = Some ex_trained.
Proof. vm_compute. reflexivity. Qed.

Example ex_hash_runs : hash ex_data ex_trained = Some ex_hashed.
Proof. vm_compute. reflexivity. Qed.

Lemma buckets_bounded_check st :
  buckets_bounded_b st = true → buckets_bounded st.
Proof.
  unfold buckets_bounded_b. intros Hb k t h ids Ht Hh.
  rewrite forallb_forall in Hb.
  assert (In t (tables st)) as Hin
    by (apply list_elem_of_In; by eapply list_elem_of_lookup_2).
  specialize (Hb t Hin). rewrite forallb_forall in Hb.
  assert (In (h, ids) (map_to_list t)) as Hin'
    by (apply list_elem_of_In; by apply elem_of_map_to_list).
  specialize (Hb _ Hin'). simpl in Hb. lia.
Qed.

Lemma query_delivers_inserted_witness :
  1 ≤ pL (param ex_trained)
  ∧ insert 0 ex_row0 ex_trained = Some ex_inserted
  ∧ insert_all (row_inserts ex_data [1; 2; 3]%nat) ex_inserted = Some ex_hashed
  ∧ (∃ calls, query ex_row0 ex_hashed = Some (ex_hashed, calls)
              ∧ ScanOffer 0 ∈ calls)
  ∧ hash ex_data ex_trained = Some ex_hashed
  ∧ (∃ calls, query (mat_row ex_data 3) ex_hashed = Some (ex_hashed, calls)
              ∧ ScanOffer 3 ∈ calls).
Proof.
  assert (1 ≤ pL (param ex_trained)) as H1 by (simpl; lia).
  assert (insert 0 ex_row0 ex_trained = Some ex_inserted) as H2
    by (vm_compute; reflexivity).
  assert (insert_all (row_inserts ex_data [1; 2; 3]%nat) ex_inserted
          = Some ex_hashed) as H3 by (vm_compute; reflexivity).
  assert (hash ex_data ex_trained = Some ex_hashed) as H4
    by (vm_compute; reflexivity).
  assert (3 < getSize ex_data)%nat as H5 by (vm_compute; lia).
  destruct (query_delivers_inserted ex_trained H1) as [Hinsert Hhash].
  split; [exact H1|]. split; [exact H2|]. split; [exact H3|].
  split; [exact (Hinsert 0 ex_row0 ex_inserted _ ex_hashed H2 H3)|].
  split; [exact H4|].
  exact (Hhash ex_data ex_hashed [] ex_hashed 3%nat H4 eq_refl H5).
Defined.

Lemma ex_table_ready : table_ready ex_trained 0.
Proof.
  split; [|split]; eexists; (split; [reflexivity|]).
  - split; [reflexivity|]. by repeat constructor.
  - split; [reflexivity|]. by repeat constructor.
  - vm_compute. lia.
Defined.

Lemma getHashVal_refines_spec_witness :
  table_ready ex_trained 0
  ∧ (nD ex_trained ≤ length ex_row0)%nat
  ∧ 1 ≤ pM (param ex_trained)
  ∧ getHashVal ex_trained 0 ex_row0
    = Some (spec_getHashVal ex_trained 0 ex_row0).
Proof.
  assert (nD ex_trained ≤ length ex_row0)%nat as H2 by (vm_compute; lia).
  assert (1 ≤ pM (param ex_trained)) as H3 by (simpl; lia).
  split; [exact ex_table_ready|]. split; [exact H2|]. split; [exact H3|].
  exact (getHashVal_refines_spec ex_trained 0 ex_row0 ex_table_ready H2 H3).
Defined.

Lemma getHashVal_range_witness :
  1 ≤ pM (param ex_trained)
  ∧ (∀ h, getHashVal ex_trained 0 ex_row0 = Some h → 0 ≤ h < 8)
  ∧ ∃ h, getHashVal ex_trained 0 ex_row0 = Some h ∧ 0 ≤ h < 8.
Proof.
  assert (1 ≤ pM (param ex_trained)) as H1 by (simpl; lia).
  assert (nD ex_trained ≤ length ex_row0)%nat as H2 by (vm_compute; lia).
  split; [exact H1|].
  destruct (getHashVal_range ex_trained 0 ex_row0 H1) as [Hr Ht].
  split; [exact Hr|]. exact (Ht ex_table_ready H2).
Defined.

Lemma ex_header_ok : header_ok ex_param.
Proof. unfold header_ok, is_u32. simpl. lia. Defined.

Lemma ex_built : built (RNG := lcg) (EIG := naive_kernels) true ex_hashed.
Proof.
  apply (built_hash true ex_trained ex_data).
  - apply (built_train false 100 999 ex_data ex_reset).
    + apply built_reset. exact ex_header_ok.
    + vm_compute. reflexivity.
  - vm_compute. discriminate.
  - vm_compute. reflexivity.
Defined.

Lemma save_load_roundtrip_witness :
  built (RNG := lcg) (EIG := naive_kernels) true ex_hashed
  ∧ buckets_bounded ex_hashed
  ∧ roundtrips ex_hashed ex_garbage.
Proof.
  assert (buckets_bounded ex_hashed) as H2
    by (apply buckets_bounded_check; vm_compute; reflexivity).
  split; [exact ex_built|]. split; [exact H2|].
  exact (save_load_roundtrip ex_hashed ex_garbage ex_built H2).
Defined.

(** C4, as stated, fails.  A state produced by [reset] alone has no file:
    [save] reads principal directions that [train] has not stored.  And a
    state produced by [reset], [reset], [train] has [2 N] weights in
    [rnd[0]], of which the file holds [N]: the loaded [rnd] differs. *)
Lemma save_load_roundtrip_counterexample :
  ¬ roundtrips ex_reset ex_garbage
  ∧ ¬ roundtrips ex_trained_again ex_garbage.
Proof.
  split.
  - intros (file & st' & Hs & _). vm_compute in Hs. discriminate.
  - intros (file & st' & Hs & Hl & _ & _ & Hr & _).
    vm_compute in Hs. injection Hs as <-.
    vm_compute in Hl. injection Hl as <-.
    vm_compute in Hr. discriminate.
Qed.

Lemma hash_buckets_consistent_witness :
  Forall (λ t, t = ∅) (tables ex_trained)
  ∧ ∀ k t b ids id,
      tables ex_hashed !! k = Some t → t !! b = Some ids → id ∈ ids →
      ∃ i : nat, id = Z.of_nat i ∧ (i < getSize ex_data)%nat
                 ∧ getHashVal ex_hashed k (mat_row ex_data i) = Some b.
Proof.
  assert (Forall (λ t, t = ∅) (tables ex_trained)) as H1
    by (by repeat constructor).
  split; [exact H1|].
  destruct (hash_buckets_consistent ex_data ex_trained H1) as [Hc _].
  apply (Hc ex_hashed [] ex_hashed).
  - vm_compute. reflexivity.
  - constructor.
  - reflexivity.
Defined.

(** C5, as stated, fails in two ways.  A further [insert] of a row of
    [data] under a key that is not its row index stores the key in the
    bucket of that row: after [hash], [insert(3, data[0])] leaves 3 in
    bucket 0 while row 3 hashes to 6.  And [hash] on a trained index that
    held keys before keeps them where they were: after
    [insert(3, data[0])], [train] and [hash], the key 3 is in bucket 0,
    where every vector fell before [train], and row 3 hashes to 6. *)
Lemma hash_buckets_consistent_counterexample :
  (hash ex_data ex_trained = Some ex_hashed
   ∧ insert 3 ex_row0 ex_hashed = Some ex_extra
   ∧ stored ex_extra 0 0 3
   ∧ getHashVal ex_extra 0 (mat_row ex_data 3) = Some 6
   ∧ ¬ consistent ex_data ex_extra)
  ∧ (insert 3 ex_row0 ex_reset = Some ex_early
     ∧ train (RNG := lcg) (EIG := naive_kernels) 100 999 ex_data ex_early
       = Some ex_early_trained
     ∧ hash ex_data ex_early_trained = Some ex_early_hashed
     ∧ stored ex_early_hashed 0 0 3
     ∧ getHashVal ex_early_hashed 0 (mat_row ex_data 3) = Some 6
     ∧ ¬ consistent ex_data ex_early_hashed).
Proof.
  assert (stored ex_extra 0 0 3) as Hs1.
  { eexists _, [0; 1; 3]. split; [reflexivity|].
    split; [vm_compute; reflexivity|].
    do 2 apply list_elem_of_further. apply list_elem_of_here. }
  assert (getHashVal ex_extra 0 (mat_row ex_data 3) = Some 6) as Hh1
    by (vm_compute; reflexivity).
  assert (stored ex_early_hashed 0 0 3) as Hs2.
  { eexists _, [3; 0; 1]. split; [reflexivity|].
    split; [vm_compute; reflexivity|]. apply list_elem_of_here. }
  assert (getHashVal ex_early_hashed 0 (mat_row ex_data 3) = Some 6) as Hh2
    by (vm_compute; reflexivity).
  split.
  - split; [vm_compute; reflexivity|]. split; [vm_compute; reflexivity|].
    split; [exact Hs1|]. split; [exact Hh1|].
    intros Hc. destruct (Hc 0%nat 0 3 Hs1) as (i & Hi & _ & Hh).
    assert (i = 3%nat) as -> by lia. congruence.
  - split; [vm_compute; reflexivity|]. split; [vm_compute; reflexivity|].
    split; [vm_compute; reflexivity|].
    split; [exact Hs2|]. split; [exact Hh2|].
    intros Hc. destruct (Hc 0%nat 0 3 Hs2) as (i & Hi & _ & Hh).
    assert (i = 3%nat) as -> by lia. congruence.
Qed.

Lemma sign_convention_witness :
  is_zero F32.zero ∧ is_negative (F32.of_Z (-2)) ∧ is_positive (F32.of_Z 3)
  ∧ F32.gt0 F32.zero = false ∧ F32.gt0 (F32.of_Z (-2)) = false
  ∧ F32.gt0 (F32.of_Z 3) = true
  ∧ mat_wf (mat_mul (EigenKernels := naive_kernels) ex_Z (identity 3))
  ∧ (∃ UX,
       rows UX = 1%nat ∧ cols UX = 3%nat
       ∧ coeff UX 0 0 = Some (F32.of_Z (-1))
       ∧ coeff UX 0 1 = Some (F32.of_Z (-1))
       ∧ coeff UX 0 2 = Some (F32.of_Z 1)
       ∧ itq_iteration (EIG := naive_kernels) ex_Z (identity 3)
         = Some (naive_mul (identity 3) (transpose (identity (cols UX)))))
  ∧ table_ready ex_trained 0
  ∧ (nD ex_trained ≤ length ex_row0)%nat
  ∧ 1 ≤ pM (param ex_trained)
  ∧ getHashVal ex_trained 0 ex_row0
    = Some (wrap32 (weight_sum ex_trained 0 (positive_bits ex_trained 0 ex_row0))
              mod pM (param ex_trained)).
Proof.
  assert (is_zero F32.zero) as Hz by (exists false; reflexivity).
  assert (is_negative (F32.of_Z (-2))) as Hn
    by (right; eexists _, _; vm_compute; reflexivity).
  assert (is_positive (F32.of_Z 3)) as Hp
    by (right; eexists _, _; vm_compute; reflexivity).
  assert (mat_wf (mat_mul (EigenKernels := naive_kernels) ex_Z (identity 3)))
    as Hwf by (split; [reflexivity|vm_compute; by repeat constructor]).
  assert (coeff (mat_mul (EigenKernels := naive_kernels) ex_Z (identity 3)) 0 0
          = Some F32.zero) as H00 by (vm_compute; reflexivity).
  assert (coeff (mat_mul (EigenKernels := naive_kernels) ex_Z (identity 3)) 0 1
          = Some (F32.of_Z (-2))) as H01 by (vm_compute; reflexivity).
  assert (coeff (mat_mul (EigenKernels := naive_kernels) ex_Z (identity 3)) 0 2
          = Some (F32.of_Z 3)) as H02 by (vm_compute; reflexivity).
  assert (nD ex_trained ≤ length ex_row0)%nat as Hv by (vm_compute; lia).
  assert (1 ≤ pM (param ex_trained)) as HM by (simpl; lia).
  destruct sign_convention as (Hgt & Hle & Htrain & Hhash).
  split; [exact Hz|]. split; [exact Hn|]. split; [exact Hp|].
  split; [exact (proj2 (Hle F32.zero) (or_introl Hz))|].
  split; [exact (proj2 (Hle (F32.of_Z (-2))) (or_intror (or_introl Hn)))|].
  split; [exact (proj2 (Hgt (F32.of_Z 3)) Hp)|].
  split; [exact Hwf|].
  split.
  - destruct (Htrain naive_kernels ex_Z (identity 3) Hwf)
      as (UX & Hr & Hc & Hsign & Hit).
    exists UX. split; [exact Hr|]. split; [exact Hc|].
    split; [exact (proj2 (Hsign 0%nat 0%nat F32.zero H00)
                     (or_introl Hz))|].
    split; [exact (proj2 (Hsign 0%nat 1%nat (F32.of_Z (-2)) H01)
                     (or_intror (or_introl Hn)))|].
    split; [exact (proj1 (Hsign 0%nat 2%nat (F32.of_Z 3) H02) Hp)|].
    exact Hit.
  - split; [exact ex_table_ready|]. split; [exact Hv|]. split; [exact HM|].
    exact (proj1 (Hhash ex_trained 0%nat ex_row0 ex_table_ready Hv HM)).
Defined.

Lemma reset_appends_weights_witness :
  rndArray ex_reset !! 0%nat = Some [1; 6]
  ∧ (0 < Z.to_nat (pL ex_param2))%nat
  ∧ ∃ new, rndArray (reset (RNG := lcg) ex_param2 777 ex_reset) !! 0%nat
           = Some ([1; 6] ++ new)
           ∧ length new = Z.to_nat (pN ex_param2).
Proof.
  assert (rndArray ex_reset !! 0%nat = Some [1; 6]) as H1
    by (vm_compute; reflexivity).
  assert (0 < Z.to_nat (pL ex_param2))%nat as H2 by (vm_compute; lia).
  split; [exact H1|]. split; [exact H2|].
  exact (reset_appends_weights (RNG := lcg) ex_param2 777 ex_reset 0 [1; 6]
           H1 H2).
Defined.

(** After the second [reset] table 0 holds four weights for [N = 2], and
    the weight 6 of the first [reset] lies outside [0, M) for the new
    [M = 2]. *)
Example reset_again_weights :
  rndArray ex_reset_again = [[1; 6; 1; 0]]
  ∧ pN (param ex_reset_again) = 2 ∧ pM (param ex_reset_again) = 2.
Proof. vm_compute. done. Qed.

Lemma train_frame_witness :
  train (RNG := lcg) (EIG := naive_kernels) 100 999 ex_data ex_reset
  = Some ex_trained
  ∧ param ex_trained = param ex_reset
  ∧ rndArray ex_trained = rndArray ex_reset
  ∧ tables ex_trained = tables ex_reset.
Proof.
  assert (train (RNG := lcg) (EIG := naive_kernels) 100 999 ex_data ex_reset
          = Some ex_trained) as H1 by (vm_compute; reflexivity).
  split; [exact H1|].
  exact (train_frame (RNG := lcg) (EIG := naive_kernels) 100 999 ex_data
           ex_reset ex_trained H1).
Defined.

Lemma iteration_count_not_persisted_witness :
  save (set_I 99 ex_hashed) = save ex_hashed
  ∧ save ex_hashed = Some ex_file
  ∧ take 20 ex_file
    = le_split 4 8 ++ le_split 4 1 ++ le_split 4 4 ++ le_split 4 2
      ++ le_split 4 4
  ∧ load (Some ex_file) (fresh ex_garbage) = Some ex_loaded
  ∧ pI (param ex_loaded) = pI ex_garbage.
Proof.
  assert (save ex_hashed = Some ex_file) as H1 by (vm_compute; reflexivity).
  assert (load (Some ex_file) (fresh ex_garbage) = Some ex_loaded) as H2
    by (vm_compute; reflexivity).
  destruct iteration_count_not_persisted as (Hsave & Hheader & Hload).
  split; [exact (Hsave ex_hashed 99)|]. split; [exact H1|].
  split; [exact (Hheader ex_hashed ex_file H1)|]. split; [exact H2|].
  exact (Hload (Some ex_file) (fresh ex_garbage) ex_loaded H2).
Defined.

Lemma query_read_only_witness :
  query ex_row0 ex_hashed = Some (ex_hashed, ex_calls)
  ∧ (ex_hashed = ex_hashed
     ∧ ∀ k t h, tables ex_hashed !! k = Some t → t !! h = None →
                ∃ t', tables ex_hashed !! k = Some t' ∧ t' !! h = None).
Proof.
  assert (query ex_row0 ex_hashed = Some (ex_hashed, ex_calls)) as H1
    by (vm_compute; reflexivity).
  split; [exact H1|].
  exact (proj1 (query_read_only ex_row0 ex_hashed) ex_hashed ex_calls H1).
Defined.

(** ** Further properties of [reset] and of the constructor *)

Section ResetMore.
Context {RNG : StdRandom}.

(** X1.  The constructor with parameters, [M] in [1, 2^32): the index
    holds the parameters, [L] empty tables, [L] empty sets of projections
    and rotations, and [L] vectors of exactly [N] weights, each in
    [0, M). *)
Theorem constructed_index p now garbage :
  1 ≤ pM p < 2 ^ 32 →
  param (itqLsh_new p now garbage) = p
  ∧ tables (itqLsh_new p now garbage) = replicate (Z.to_nat (pL p)) ∅
  ∧ pcsAll (itqLsh_new p now garbage) = replicate (Z.to_nat (pL p)) []
  ∧ omegasAll (itqLsh_new p now garbage) = replicate (Z.to_nat (pL p)) []
  ∧ length (rndArray (itqLsh_new p now garbage)) = Z.to_nat (pL p)
  ∧ Forall (λ v, length v = Z.to_nat (pN p) ∧ Forall (λ x, 0 ≤ x < pM p) v)
           (rndArray (itqLsh_new p now garbage)).
Proof.
  intros HM. unfold itqLsh_new.
  rewrite reset_param, reset_tables, reset_pcsAll, reset_omegasAll.
  simpl. rewrite !resize_nil.
  destruct (reset_lengths p now (fresh garbage)) as (_ & Hr & _).
  repeat split; try done. by apply reset_fresh_rndArray.
Qed.

(** X2.  [reset] clears nothing: a table, a set of projections or a
    rotation that the index held at a position below the new [L] is still
    there afterwards, buckets included. *)
Theorem reset_keeps_contents p now st k :
  (k < Z.to_nat (pL p))%nat →
  ((k < length (tables st))%nat →
     tables (reset p now st) !! k = tables st !! k)
  ∧ ((k < length (pcsAll st))%nat →
     pcsAll (reset p now st) !! k = pcsAll st !! k)
  ∧ ((k < length (omegasAll st))%nat →
     omegasAll (reset p now st) !! k = omegasAll st !! k).
Proof.
  intros Hk. rewrite reset_tables, reset_pcsAll, reset_omegasAll.
  repeat split; intros Hlen; by apply lookup_resize.
Qed.

End ResetMore.

(** ** Further properties of the hasher *)

Lemma getHashVal_modulus_zero st k v :
  pM (param st) = 0 → getHashVal st k v = None.
Proof.
  intros HM. destruct (getHashVal st k v) as [h|] eqn:E; [|done].
  by apply getHashVal_residue in E as [? _].
Qed.

Lemma for_upto_first_fails {A} (body : nat → A → option A) n a :
  body 0%nat a = None → for_upto (S n) body a = None.
Proof. unfold for_upto. simpl. by intros ->. Qed.

(** X3.  With [M = 0] no hash value is defined, and on an index of at
    least one table neither is an insertion or a query. *)
Theorem modulus_zero_undefined st key v :
  pM (param st) = 0 →
  (∀ k, getHashVal st k v = None)
  ∧ (1 ≤ pL (param st) → insert key v st = None ∧ query v st = None).
Proof.
  intros HM. split; [intros k; by apply getHashVal_modulus_zero|].
  intros HL. unfold insert, query, nL.
  destruct (Z.to_nat (pL (param st))) as [|n] eqn:En; [lia|].
  rewrite !for_upto_first_fails; [done|..].
  - unfold query_table. by rewrite getHashVal_modulus_zero.
  - unfold insert_table. by rewrite getHashVal_modulus_zero.
Qed.

Lemma getHashVal_untrained st k v :
  pcsAll st !! k = Some [] → pM (param st) ≠ 0 → getHashVal st k v = Some 0.
Proof.
  intros Hk HM. unfold getHashVal. rewrite Hk. simpl.
  destruct (pM (param st) =? 0) eqn:E; [by apply Z.eqb_eq in E|].
  by rewrite Z.mod_0_l.
Qed.

(** ** The exact effect of [insert] and the exact trace of [query] *)

Lemma bucket_push_closed (t : gmap Z (list Z)) h key :
  bucket_push t h key = <[h := default [] (t !! h) ++ [key]]> t.
Proof.
  unfold bucket_push, map_subscript.
  destruct (t !! h); simpl; [done|]. by rewrite insert_insert_eq.
Qed.

Lemma pushed_same_model st s key v k :
  same_model st s → tables s !! k = tables st !! k →
  pushed s key v k = pushed st key v k.
Proof.
  intros Hm Ht. unfold pushed. by rewrite (same_model_hash st s), Ht.
Qed.

Lemma insert_effect key v st st' :
  insert key v st = Some st' →
  ∀ k, tables st' !! k
       = if decide (k < nL st)%nat then pushed st key v k
         else tables st !! k.
Proof.
  unfold insert. intros Hi.
  apply (for_upto_inv_partial
    (λ j s, same_model st s
            ∧ ∀ k, tables s !! k
                   = if decide (k < j)%nat then pushed st key v k
                     else tables st !! k)) in Hi.
  - by destruct Hi.
  - split; [apply same_model_refl|]. intros k. by case_decide; [lia|].
  - intros j x y Hj [Hm Hx] Hy.
    pose proof (insert_table_same_model _ _ _ _ _ Hy) as Hxy.
    split; [by eapply same_model_trans|]. intros k.
    apply insert_table_spec in Hy as (h & t & Hh & Ht & ->). simpl.
    destruct (decide (k = j)) as [->|Hne].
    + rewrite list_lookup_insert_eq by (by eapply lookup_lt_Some).
      rewrite decide_True by lia.
      rewrite <- (pushed_same_model st x), bucket_push_closed.
      * unfold pushed. by rewrite Hh, Ht.
      * done.
      * rewrite Hx. by rewrite decide_False by lia.
    + rewrite list_lookup_insert_ne by done. rewrite Hx.
      repeat case_decide; done || lia.
Qed.

(** X4.  [insert(key, v)] appends [key] to one bucket of each of the [L]
    tables, the bucket of [getHashVal(k, v)], creating it when it is not
    there; every other bucket, every table beyond [L] and the model are
    left as they were.  Nothing is deduplicated: a key inserted twice is
    stored twice. *)
Theorem insert_appends_key key v st st' :
  insert key v st = Some st' →
  param st' = param st ∧ pcsAll st' = pcsAll st
  ∧ omegasAll st' = omegasAll st ∧ rndArray st' = rndArray st
  ∧ (∀ k, (k < nL st)%nat →
       ∃ h t, getHashVal st k v = Some h ∧ tables st !! k = Some t
              ∧ tables st' !! k
                = Some (<[h := default [] (t !! h) ++ [key]]> t))
  ∧ (∀ k, (nL st ≤ k)%nat → tables st' !! k = tables st !! k).
Proof.
  intros Hi. pose proof (insert_same_model _ _ _ _ Hi) as (? & ? & ? & ? & _).
  pose proof (insert_effect _ _ _ _ Hi) as He.
  do 4 (split; [done|]). split.
  - intros k Hk. destruct (insert_stores _ _ _ _ k Hi Hk) as (h & Hh & Hs).
    specialize (He k). rewrite decide_True in He by done.
    unfold pushed in He. rewrite Hh in He. simpl in He.
    destruct (tables st !! k) as [t|] eqn:Ht; simpl in He.
    + by exists h, t.
    + destruct Hs as (t' & ids & Ht' & _). congruence.
  - intros k Hk. rewrite He. by rewrite decide_False by lia.
Qed.

Section UntrainedInsert.
Context {RNG : StdRandom}.

(** X5.  Before [train] every vector hashes to bucket 0: on an index
    that was constructed with [M ≥ 1] and not trained, [getHashVal] is 0
    in every table, and the first [insert] leaves in each of the [L]
    tables the single bucket 0 holding the key. *)
Theorem untrained_index_single_bucket p now garbage key v :
  1 ≤ pM p < 2 ^ 32 →
  (∀ k, (k < Z.to_nat (pL p))%nat →
        getHashVal (itqLsh_new p now garbage) k v = Some 0)
  ∧ ∃ st', insert key v (itqLsh_new p now garbage) = Some st'
           ∧ tables st' = replicate (Z.to_nat (pL p)) {[0 := [key]]}.
Proof.
  intros HM.
  assert (param (itqLsh_new p now garbage) = p) as Hp
    by apply reset_param.
  assert (tables (itqLsh_new p now garbage)
          = replicate (Z.to_nat (pL p)) ∅) as Ht
    by (unfold itqLsh_new; rewrite reset_tables; apply resize_nil).
  assert (∀ k, (k < Z.to_nat (pL p))%nat →
             getHashVal (itqLsh_new p now garbage) k v = Some 0) as Hh.
  { intros k Hk. apply getHashVal_untrained; [|rewrite Hp; lia].
    unfold itqLsh_new. rewrite reset_pcsAll. simpl. rewrite resize_nil.
    by apply lookup_replicate_2. }
  split; [done|].
  assert (nL (itqLsh_new p now garbage) = Z.to_nat (pL p)) as HnL
    by (unfold nL; by rewrite Hp).
  destruct (for_upto_inv (λ _ s, same_model (itqLsh_new p now garbage) s)
              (insert_table key v) (nL (itqLsh_new p now garbage))
              (itqLsh_new p now garbage)) as (st' & Hr & _).
  { apply same_model_refl. }
  { intros j x Hj Hx. unfold insert_table.
    rewrite (same_model_hash _ x) by done. rewrite Hh by lia. simpl.
    destruct (lookup_lt_is_Some_2 (tables x) j) as [t Hjt].
    { destruct Hx as (_ & _ & _ & _ & ->). rewrite Ht, length_replicate. lia. }
    rewrite Hjt. simpl. eexists; split; [done|].
    eapply same_model_trans; [done|]. repeat split. simpl.
    by rewrite length_insert. }
  exists st'. split; [done|].
  pose proof (insert_effect _ _ _ _ Hr) as He.
  pose proof (insert_same_model _ _ _ _ Hr) as (_ & _ & _ & _ & Hl).
  apply list_eq. intros k. rewrite He, HnL. case_decide as Hk.
  - unfold pushed. rewrite Hh by done. simpl. rewrite Ht.
    rewrite !lookup_replicate_2 by done. simpl.
    by rewrite lookup_empty, insert_empty.
  - rewrite Ht.
    by rewrite !(proj1 (lookup_replicate_None _ _ _)) by lia.
Qed.

End UntrainedInsert.

Lemma query_table_hit v k st calls st' calls' :
  query_table v k (st, calls) = Some (st', calls') →
  calls' = calls ++ (ScanOffer <$> bucket_hit st k v).
Proof.
  unfold query_table, bucket_hit. intros Hq.
  destruct (getHashVal st k v) as [h|]; simpl in Hq; [|done].
  destruct (tables st !! k) as [t|] eqn:Ht; simpl in Hq; [|done].
  destruct (t !! h) as [ids|] eqn:Hb; simpl.
  - rewrite (map_subscript_present t h ids Hb) in Hq. congruence.
  - injection Hq as <- <-. by rewrite app_nil_r.
Qed.

Lemma query_calls v st st' calls :
  query v st = Some (st', calls) →
  calls = ScanReset v
            :: (seq 0 (nL st) ≫= λ k, ScanOffer <$> bucket_hit st k v)
            ++ [ScanGenTopk].
Proof.
  unfold query. intros Hq.
  destruct (for_upto (nL st) (query_table v) (st, [ScanReset v]))
    as [[s cs]|] eqn:Hloop; simpl in Hq; [|done].
  injection Hq as <- <-.
  apply (for_upto_inv_partial
    (λ j (acc : itqLsh * list ScannerCall),
       acc.1 = st
       ∧ acc.2 = ScanReset v
                   :: (seq 0 j ≫= λ k, ScanOffer <$> bucket_hit st k v)))
    in Hloop.
  - destruct Hloop as [_ Hc]. simpl in Hc. by rewrite Hc.
  - done.
  - intros j [x cx] [y cy] _ [Hx Hcx] Hy. cbn [fst snd] in *. subst x.
    split; [by eapply query_table_frame|].
    rewrite (query_table_hit _ _ _ _ _ _ Hy), Hcx.
    rewrite seq_S, bind_app, app_comm_cons. f_equal.
    cbn [mbind list_bind]. by rewrite app_nil_r.
Qed.

(** X6.  The calls a query makes on the scanner: [reset(v)] first; then,
    table after table in increasing [k], the ids of the bucket that [v]
    hashes to, in insertion order, nothing for a table without that
    bucket; [genTopk] last.  An id stored in the hit bucket of several
    tables is offered once per table. *)
Theorem query_trace v st st' calls :
  query v st = Some (st', calls) →
  calls = ScanReset v
            :: (seq 0 (nL st) ≫= λ k, ScanOffer <$> bucket_hit st k v)
            ++ [ScanGenTopk].
Proof. apply query_calls. Qed.

(** ** Which rows a query offers *)

Lemma insert_all_stores a key v b st st' k :
  insert_all (a ++ (key, v) :: b) st = Some st' → (k < nL st)%nat →
  ∃ h, getHashVal st' k v = Some h ∧ stored st' k h key.
Proof.
  rewrite insert_all_app. intros Hi Hk.
  destruct (insert_all a st) as [s|] eqn:Ha; simpl in Hi; [|done].
  destruct (insert key v s) as [s'|] eqn:Hins; simpl in Hi; [|done].
  pose proof (insert_all_same_model _ _ _ Ha) as Hm0.
  pose proof (insert_same_model _ _ _ _ Hins) as Hm1.
  pose proof (insert_all_same_model _ _ _ Hi) as Hm2.
  assert (nL s = nL st) as HnL by (unfold nL; by destruct Hm0 as [-> _]).
  destruct (insert_stores _ _ _ _ k Hins) as (h & Hh & Hs); [lia|].
  exists h. split.
  - rewrite (same_model_hash s st'); [done|].
    by eapply same_model_trans.
  - by eapply insert_all_keeps.
Qed.

Lemma hash_stores data st st1 i k :
  hash data st = Some st1 → (i < getSize data)%nat → (k < nL st)%nat →
  ∃ h, getHashVal st1 k (mat_row data i) = Some h
       ∧ stored st1 k h (Z.of_nat i).
Proof.
  rewrite hash_as_inserts. intros Hh Hi Hk.
  replace (seq 0 (getSize data))
    with (seq 0 i ++ i :: seq (S i) (getSize data - S i)) in Hh.
  2:{ change (i :: seq (S i) (getSize data - S i))
        with (seq i (S (getSize data - S i))).
      rewrite <- seq_app. f_equal. lia. }
  unfold row_inserts in Hh. rewrite fmap_app, fmap_cons in Hh.
  by eapply insert_all_stores.
Qed.

Lemma bucket_hit_stored st k v id :
  id ∈ bucket_hit st k v ↔
  ∃ h, getHashVal st k v = Some h ∧ stored st k h id.
Proof.
  unfold bucket_hit, stored. split.
  - intros Hin. destruct (getHashVal st k v) as [h|]; [|by apply elem_of_nil in Hin].
    destruct (tables st !! k) as [t|]; [|by apply elem_of_nil in Hin].
    destruct (t !! h) as [ids|] eqn:Hb; simpl in Hin;
      [|by apply elem_of_nil in Hin].
    exists h. split; [done|]. by exists t, ids.
  - intros (h & -> & t & ids & -> & Hb & Hin). by rewrite Hb.
Qed.

(** X7.  After [hash data] on an index with empty tables, a query for
    [v] offers exactly the rows that collide with [v] in at least one
    table: an id is offered if and only if it is a row index [i] with
    [getHashVal(k, data[i]) = getHashVal(k, v)] for some [k < L]. *)
Theorem query_offers_colliding_rows data st st1 v st' calls :
  Forall (λ t, t = ∅) (tables st) →
  hash data st = Some st1 →
  query v st1 = Some (st', calls) →
  ∀ id, ScanOffer id ∈ calls ↔
        ∃ (i k : nat) h,
          id = Z.of_nat i ∧ (i < getSize data)%nat ∧ (k < nL st)%nat
          ∧ getHashVal st1 k (mat_row data i) = Some h
          ∧ getHashVal st1 k v = Some h.
Proof.
  intros Hempty Hhash Hq id.
  assert (consistent data st1) as Hc.
  { eapply hash_consistent; [|done].
    intros k' b' id' (t' & ids' & Ht' & Hb' & _).
    pose proof (Forall_lookup_1 _ _ _ _ Hempty Ht') as He. simpl in He.
    subst t'. by rewrite lookup_empty in Hb'. }
  assert (nL st1 = nL st) as HnL.
  { apply hash_same_model in Hhash as (Hp & _). unfold nL. by rewrite Hp. }
  rewrite (query_calls _ _ _ _ Hq), HnL.
  rewrite elem_of_cons, elem_of_app, list_elem_of_bind.
  split.
  - intros [Hr|[(k & Hin & Hk)|Hg]]; [done| |].
    + apply elem_of_seq in Hk as [_ Hk]. simpl in Hk.
      apply list_elem_of_fmap in Hin as (id' & [= <-] & Hin).
      apply bucket_hit_stored in Hin as (h & Hh & Hs).
      destruct (Hc k h id Hs) as (i & -> & Hi & Hrow).
      by exists i, k, h.
    + apply list_elem_of_singleton in Hg. done.
  - intros (i & k & h & -> & Hi & Hk & Hrow & Hv).
    right. left. exists k. split; [|apply elem_of_seq; lia].
    apply list_elem_of_fmap_2. apply bucket_hit_stored.
    exists h. split; [done|].
    destruct (hash_stores _ _ _ i k Hhash Hi Hk) as (h' & Hh' & Hs).
    congruence.
Qed.

(** ** Every row once per table *)

Lemma table_ids_push (t : gmap Z (list Z)) h key :
  table_ids (<[h := default [] (t !! h) ++ [key]]> t) ≡ₚ key :: table_ids t.
Proof.
  unfold table_ids. rewrite <- insert_delete_eq.
  rewrite map_to_list_insert by apply lookup_delete_eq.
  cbn [mbind list_bind snd].
  destruct (t !! h) as [ids|] eqn:Hb; simpl.
  - rewrite <- (map_to_list_delete t h ids Hb).
    cbn [mbind list_bind snd]. rewrite <- app_assoc.
    rewrite (Permutation_app_comm ids), <- !app_assoc. simpl.
    constructor. apply Permutation_app_comm.
  - by rewrite delete_id.
Qed.

(** X8.  After [hash data] on an index with empty tables, each of the [L]
    tables holds every row index of [data] exactly once: the buckets of a
    table partition the rows. *)
Theorem hash_partitions_rows data st st1 k :
  Forall (λ t, t = ∅) (tables st) →
  hash data st = Some st1 → (k < nL st)%nat → (k < length (tables st))%nat →
  ∃ t, tables st1 !! k = Some t
       ∧ table_ids t ≡ₚ Z.of_nat <$> seq 0 (getSize data).
Proof.
  intros Hempty Hhash Hk Hlen. unfold hash in Hhash.
  apply (for_upto_inv_partial
    (λ j s, same_model st s
            ∧ ∃ t, tables s !! k = Some t
                   ∧ table_ids t ≡ₚ Z.of_nat <$> seq 0 j)) in Hhash.
  - by destruct Hhash.
  - split; [apply same_model_refl|].
    destruct (lookup_lt_is_Some_2 _ _ Hlen) as [t Ht].
    pose proof (Forall_lookup_1 _ _ _ _ Hempty Ht) as He. simpl in He.
    subst t. exists ∅. split; [done|].
    unfold table_ids. by rewrite map_to_list_empty.
  - intros j x y Hj [Hm (t & Ht & Hperm)] Hy.
    split; [eapply same_model_trans; [done|]; by eapply insert_same_model|].
    pose proof (insert_effect _ _ _ _ Hy k) as He.
    assert (nL x = nL st) as HnL by (unfold nL; by destruct Hm as [-> _]).
    rewrite decide_True in He by lia. unfold pushed in He.
    destruct (insert_stores _ _ _ _ k Hy) as (h & Hh & _); [lia|].
    rewrite Hh, Ht in He. simpl in He.
    eexists; split; [done|].
    rewrite table_ids_push, Hperm, seq_S, fmap_app. simpl.
    by rewrite <- Permutation_cons_append.
Qed.

(** ** What the hash value depends on *)

Lemma foldl_ext_seq {A} (f g : A → nat → A) n a :
  (∀ x i, (i < n)%nat → f x i = g x i) →
  foldl f a (seq 0 n) = foldl g a (seq 0 n).
Proof.
  induction n as [|n IH]; intros Hext; [done|].
  rewrite seq_S, !foldl_app. simpl. rewrite IH by (intros; apply Hext; lia).
  apply Hext. lia.
Qed.

Lemma spec_sum_code st k v v' :
  binary_code st k v = binary_code st k v' → spec_sum st k v = spec_sum st k v'.
Proof.
  intros Hcode. unfold spec_sum. apply foldl_ext_seq. intros sum i Hi.
  assert (binary_code st k v !! i = binary_code st k v' !! i) as Hb
    by (by rewrite Hcode).
  unfold binary_code in Hb.
  rewrite !list_lookup_fmap, !lookup_seq_lt in Hb by done.
  simpl in Hb. by injection Hb as ->.
Qed.

(** X9.  On a trained table the hash value is a function of the binary
    code: two vectors whose rotated projections are strictly positive at
    the same bits fall in the same bucket. *)
Theorem equal_codes_collide st k v v' :
  table_ready st k →
  (nD st ≤ length v)%nat → (nD st ≤ length v')%nat →
  binary_code st k v = binary_code st k v' →
  getHashVal st k v = getHashVal st k v'.
Proof.
  intros Hready Hv Hv' Hcode.
  rewrite !getHashVal_unfold_spec by done.
  unfold spec_getHashVal. by rewrite (spec_sum_code st k v v').
Qed.

Lemma spec_p_prefix st k v v' i :
  take (nD st) v = take (nD st) v' → spec_p st k v i = spec_p st k v' i.
Proof.
  intros Htake. unfold spec_p. apply spec_dot_ext. intros j Hj.
  split; [|done].
  assert (v !! j = v' !! j) as Hl.
  { rewrite <- (lookup_take_lt v (nD st) j), <- (lookup_take_lt v' (nD st) j)
      by done. by rewrite Htake. }
  rewrite !list_lookup_total_alt. by rewrite Hl.
Qed.

(** X10.  The hasher reads [D] coefficients and no more: on a trained
    table two pointers whose first [D] coefficients agree hash alike,
    whatever storage follows them.  In particular the hash of the row
    pointer [data[i]] is the hash of the [D] coefficients of the row. *)
Theorem hash_reads_D_coefficients st k v v' :
  table_ready st k →
  (nD st ≤ length v)%nat → (nD st ≤ length v')%nat →
  take (nD st) v = take (nD st) v' →
  getHashVal st k v = getHashVal st k v'.
Proof.
  intros Hready Hv Hv' Htake.
  rewrite !getHashVal_unfold_spec by done.
  unfold spec_getHashVal, spec_sum.
  rewrite (foldl_ext_seq _
    (λ sum i, if F32.gt0 (spec_s st k v' i)
              then wrap32 (sum + (rndArray st !!! k) !!! i) else sum));
    [done|].
  intros sum i Hi. unfold spec_s.
  rewrite (spec_dot_ext _ (spec_p st k v) (spec_p st k v') _
             (λ j, ((omegasAll st !!! k) !!! i) !!! j)); [done|].
  intros j Hj. split; [by apply spec_p_prefix|done].
Qed.

(** ** The zero vector *)

Lemma value_of_value_zn v :
  v = S754_zero false ∨ v = S754_zero true ∨ v = S754_nan →
  F32.value (F32.of_value v) = v.
Proof. intros [-> | [-> | ->]]; vm_compute; reflexivity. Qed.

Lemma zero_is_zn : zero_or_nan F32.zero.
Proof. left. vm_compute. reflexivity. Qed.

Lemma is_zero_zn x : is_zero x → zero_or_nan x.
Proof. intros [[] Hx]; unfold zero_or_nan; auto. Qed.

Lemma mul_zn x y : zero_or_nan x → zero_or_nan (F32.mul x y).
Proof.
  unfold zero_or_nan, F32.mul.
  intros [Hx|[Hx|Hx]]; rewrite Hx;
    destruct (F32.value y) as [sy|sy| |sy my ey]; try destruct sy;
    cbn [SFmul xorb]; rewrite value_of_value_zn; auto.
Qed.

Lemma add_zn x y : zero_or_nan x → zero_or_nan y → zero_or_nan (F32.add x y).
Proof.
  unfold zero_or_nan, F32.add.
  intros [Hx|[Hx|Hx]] [Hy|[Hy|Hy]]; rewrite Hx, Hy; cbn [SFadd];
    rewrite value_of_value_zn; auto.
Qed.

Lemma zn_not_gt0 x : zero_or_nan x → F32.gt0 x = false.
Proof. unfold zero_or_nan, F32.gt0. by intros [-> | [-> | ->]]. Qed.

Lemma spec_dot_zn n x w :
  (∀ j, (j < n)%nat → zero_or_nan (x j)) → zero_or_nan (spec_dot n x w).
Proof.
  unfold spec_dot. induction n as [|n IH]; intros Hx; [apply zero_is_zn|].
  rewrite seq_S, foldl_app. simpl. apply add_zn.
  - apply IH. intros j Hj. apply Hx. lia.
  - apply mul_zn, Hx. lia.
Qed.

(** X11.  The zero vector falls in bucket 0 of every trained table,
    whatever the projections, rotations and weights are: every product
    with a zero is a zero or a NaN, no sum of those is strictly positive,
    and no weight is added. *)
Theorem zero_vector_bucket_zero st k v :
  table_ready st k → (nD st ≤ length v)%nat → 1 ≤ pM (param st) →
  Forall is_zero (take (nD st) v) →
  getHashVal st k v = Some 0.
Proof.
  intros Hready Hv HM Hzero.
  rewrite getHashVal_unfold_spec by done.
  destruct (pM (param st) =? 0) eqn:E; [apply Z.eqb_eq in E; lia|].
  f_equal. unfold spec_getHashVal.
  assert (spec_sum st k v = 0) as ->; [|apply Z.mod_0_l; lia].
  unfold spec_sum.
  rewrite (foldl_ext_seq _ (λ sum _, sum)).
  - generalize (seq 0 (nN st)). intros l. by induction l.
  - intros sum i Hi. rewrite zn_not_gt0; [done|].
    apply spec_dot_zn. intros j Hj. apply spec_dot_zn. intros j' Hj'.
    apply is_zero_zn.
    apply (Forall_lookup_1 _ _ j' _ Hzero).
    rewrite lookup_take_lt by done.
    by apply list_lookup_lookup_total_lt; lia.
Qed.

(** ** The sampling loop of [train] *)

Lemma distinct_in_range_length (l : list Z) hi :
  0 ≤ hi → NoDup l → Forall (λ x, 0 ≤ x ≤ hi) l →
  Z.of_nat (length l) ≤ hi + 1.
Proof.
  intros Hhi Hnd Hall.
  assert (l ⊆+ seqZ 0 (hi + 1)) as Hsub.
  { apply NoDup_submseteq; [done|]. intros x Hx. apply elem_of_seqZ.
    rewrite Forall_forall in Hall. specialize (Hall x Hx). lia. }
  apply submseteq_length in Hsub. rewrite length_seqZ in Hsub. lia.
Qed.

Section Sampling.
Context {RNG : StdRandom} {EIG : EigenKernels}.

Lemma sample_seqs_spec fuel s hi : ∀ seqs rng out rng',
  0 ≤ hi → NoDup seqs → Forall (λ x, 0 ≤ x ≤ hi) seqs →
  sample_seqs fuel s hi seqs rng = Some (out, rng') →
  length out = s ∧ NoDup out ∧ Forall (λ x, 0 ≤ x ≤ hi) out.
Proof.
  induction fuel as [|fuel IH]; intros seqs rng out rng' Hhi Hnd Hall Hs;
    simpl in Hs; destruct (Nat.eqb_spec (length seqs) s) as [Hlen|Hlen];
    try done; try (by injection Hs as <- <-).
  pose proof (uniform_int_range 0 hi rng Hhi) as Hr.
  destruct (uniform_int 0 hi rng) as [target rng1]. simpl in Hr.
  apply IH in Hs; [done..| |]; case_decide; try done.
  - apply NoDup_app. split; [done|]. split; [|apply NoDup_singleton].
    intros x Hx ->%list_elem_of_singleton. done.
  - apply Forall_app. split; [done|]. by apply Forall_singleton.
Qed.

Lemma sample_seqs_starves fuel s hi : ∀ seqs rng,
  0 ≤ hi → hi + 1 < Z.of_nat s →
  NoDup seqs → Forall (λ x, 0 ≤ x ≤ hi) seqs →
  sample_seqs fuel s hi seqs rng = None.
Proof.
  induction fuel as [|fuel IH]; intros seqs rng Hhi Hs Hnd Hall; simpl;
    pose proof (distinct_in_range_length seqs hi Hhi Hnd Hall) as Hlen;
    destruct (Nat.eqb_spec (length seqs) s) as [Heq|Hne]; try lia; [done|].
  pose proof (uniform_int_range 0 hi rng Hhi) as Hr.
  destruct (uniform_int 0 hi rng) as [target rng1]. simpl in Hr.
  apply IH; [done..| |]; case_decide; try done.
  - apply NoDup_app. split; [done|]. split; [|apply NoDup_singleton].
    intros x Hx ->%list_elem_of_singleton. done.
  - apply Forall_app. split; [done|]. by apply Forall_singleton.
Qed.

(** X12.  The sampling loop of [train], when it returns, has drawn
    exactly [S] pairwise distinct row indices, each in [0, hi], [hi] being
    the bound of the distribution. *)
Theorem sample_distinct_rows fuel s hi rng out rng' :
  0 ≤ hi →
  sample_seqs fuel s hi [] rng = Some (out, rng') →
  length out = s ∧ NoDup out ∧ Forall (λ x, 0 ≤ x ≤ hi) out.
Proof.
  intros Hhi. apply sample_seqs_spec; [done|constructor|constructor].
Qed.

(** X13.  [train] does not return when the sample is larger than the
    data: with [1 ≤ n < S] rows (and at least one table) the sampling
    loop can never collect [S] distinct indices, whatever the generator
    draws and however long it runs. *)
Theorem train_starves fuel now data st :
  (1 ≤ getSize data)%nat → Z.of_nat (getSize data) ≤ 2 ^ 32 →
  Z.of_nat (getSize data) < pS (param st) →
  1 ≤ pL (param st) →
  train fuel now data st = None.
Proof.
  intros Hn Hn32 HS HL. unfold train.
  destruct (2 ^ 31 <=? pN (param st)); [done|].
  unfold nL. destruct (Z.to_nat (pL (param st))) as [|l] eqn:El; [lia|].
  rewrite for_upto_first_fails; [done|].
  unfold train_table.
  assert (wrap32 (Z.of_nat (getSize data) - 1) = Z.of_nat (getSize data) - 1)
    as -> by (unfold wrap32; apply Z.mod_small; lia).
  rewrite sample_seqs_starves; [done|lia|lia|constructor|constructor].
Qed.

(** X14.  When [train] returns, every table [k < L] holds exactly [N]
    principal directions of [D] coefficients and [N] rotation rows of [N]
    coefficients, whatever it held before; the number of entries of
    [pcsAll] and [omegasAll] is unchanged. *)
Theorem train_shapes fuel now data st st' :
  train fuel now data st = Some st' →
  length (pcsAll st') = length (pcsAll st)
  ∧ length (omegasAll st') = length (omegasAll st)
  ∧ ∀ k, (k < nL st)%nat →
      ∃ pcs om,
        pcsAll st' !! k = Some pcs ∧ omegasAll st' !! k = Some om
        ∧ length pcs = nN st ∧ Forall (λ r, length r = nD st) pcs
        ∧ length om = nN st ∧ Forall (λ r, length r = nN st) om.
Proof.
  intros [(Hp & _ & _ & Hlp & Hlo) Htr]%train_spec.
  split; [done|]. split; [done|]. intros k Hk.
  destruct (Htr k Hk) as ((pcs & ? & ? & ?) & (om & ? & ? & ?)).
  exists pcs, om. unfold nN, nD in *. rewrite Hp in *. done.
Qed.

End Sampling.

(** ** The layout of the file, and when [save] is defined *)

Lemma key_le_total : Total key_le.
Proof. intros a b. unfold key_le. lia. Qed.

Lemma key_le_trans : Transitive key_le.
Proof. intros a b c. unfold key_le. lia. Qed.

(** X15.  The file written for a trained index with 32-bit contents has
    the layout of the format: the five header words; then for each table
    its [N] weights, the number of buckets, the buckets in increasing key
    order, each as key, length and ids in insertion order, and the [N]
    pairs of a row of [D] projection coefficients and a row of [N]
    rotation coefficients; all little-endian, nothing in between. *)
Theorem save_layout st :
  saveable st →
  save st = Some (save_header (param st) ++ (seq 0 (nL st) ≫= table_bytes st))
  ∧ ∀ i t, tables st !! i = Some t →
      StronglySorted key_le (map_items t)
      ∧ NoDup ((map_items t).*1)
      ∧ map_items t ≡ₚ map_to_list t.
Proof.
  intros Hs. split; [by apply save_spec|]. intros i t _.
  pose proof key_le_total. pose proof key_le_trans.
  split; [apply StronglySorted_merge_sort; apply _|].
  split; [|apply map_items_perm].
  rewrite map_items_perm. apply NoDup_fst_map_to_list.
Qed.

Lemma for_from_Some_body {A} (body : nat → A → option A) n : ∀ i a r j,
  for_from i n body a = Some r → (i ≤ j < i + n)%nat →
  ∃ x y, body j x = Some y.
Proof.
  induction n as [|n IH]; intros i a r j Hr Hj; [lia|].
  rewrite for_from_S_l in Hr.
  destruct (body i a) as [a'|] eqn:Hb; simpl in Hr; [|done].
  destruct (decide (j = i)) as [->|Hne]; [eauto|].
  apply (IH (S i) a' r j Hr). lia.
Qed.

(** X16.  [save] is defined only on an index whose every table [i < L]
    has at least [N] weights, a table of buckets, and for every [j < N] a
    projection row of at least [D] coefficients and a rotation row of at
    least [N]: it reads them all.  On an index that was not trained, with
    [L ≥ 1] and [N ≥ 1], it is undefined. *)
Theorem save_defined_requires st file i j :
  save st = Some file → (i < nL st)%nat → (j < nN st)%nat →
  (∃ rnd, rndArray st !! i = Some rnd ∧ (nN st ≤ length rnd)%nat)
  ∧ (∃ t, tables st !! i = Some t)
  ∧ (∃ pcs prow, pcsAll st !! i = Some pcs ∧ pcs !! j = Some prow
                 ∧ (nD st ≤ length prow)%nat)
  ∧ (∃ om orow, omegasAll st !! i = Some om ∧ om !! j = Some orow
                ∧ (nN st ≤ length orow)%nat).
Proof.
  unfold save. intros Hs Hi Hj.
  destruct (for_from_Some_body _ _ _ _ _ i Hs) as (x & y & Ht); [lia|].
  unfold save_table in Ht.
  destruct (rndArray st !! i) as [rnd|]; simpl in Ht; [|done].
  unfold storage_prefix in Ht at 1.
  destruct (Nat.leb_spec (nN st) (length rnd)) as [Hrl|]; simpl in Ht; [|done].
  destruct (tables st !! i) as [t|]; simpl in Ht; [|done].
  destruct (for_from_Some_body _ _ _ _ _ j Ht) as (x' & y' & Hr); [lia|].
  unfold save_rows, storage_prefix in Hr.
  destruct (pcsAll st !! i) as [pcs|]; simpl in Hr; [|done].
  destruct (pcs !! j) as [prow|] eqn:Hprow; simpl in Hr; [|done].
  destruct (Nat.leb_spec (nD st) (length prow)); simpl in Hr; [|done].
  destruct (omegasAll st !! i) as [om|]; simpl in Hr; [|done].
  destruct (om !! j) as [orow|] eqn:Horow; simpl in Hr; [|done].
  destruct (Nat.leb_spec (nN st) (length orow)); simpl in Hr; [|done].
  split; [by exists rnd|]. split; [by exists t|].
  split; [by exists pcs, prow|by exists om, orow].
Qed.

Lemma read_u32_failed old s :
  s = mkIfs [] true ∨ s = mkIfs [] false → is_u32 old →
  read_u32 old s = (old, mkIfs [] false).
Proof.
  intros [-> | ->] Hold; unfold read_u32;
    cbn [ifs_read igood ibuf length Nat.leb]; unfold overlay;
    cbn [length drop app]; by rewrite drop_0, le_combine_split_u32.
Qed.

(** X17.  [load] does not test that the file was opened.  On a file that
    cannot be opened, or an empty one, the header reads leave [M, L, D, N,
    S] as they were; then an index with [L = 0] is left with no tables,
    and for [L ≥ 1] the bucket count of the first table is never read and
    the behaviour is undefined. *)
Theorem load_unopened_file file st :
  file = None ∨ file = Some [] →
  header_ok (param st) →
  load file st
  = if decide (pL (param st) = 0)
    then Some (mkLsh (param st) [] [] [] [])
    else None.
Proof.
  intros Hfile (HM & HL & HD & HN & HS). unfold load.
  assert (ifs_open file = mkIfs [] true ∨ ifs_open file = mkIfs [] false)
    as Hopen by (destruct Hfile as [-> | ->]; simpl; auto).
  rewrite (read_u32_failed _ _ Hopen HM).
  rewrite !read_u32_failed by auto.
  case_decide as HL0.
  - rewrite HL0. cbn [Z.to_nat for_upto for_from mbind option_bind].
    rewrite !resize_0. destruct st as [[] ? ? ? ?].
    cbn [param pL pM pD pN pS pI] in *. by subst.
  - destruct (Z.to_nat (pL (param st))) as [|l] eqn:El;
      [unfold is_u32 in HL; lia|].
    rewrite for_upto_first_fails; [done|].
    unfold load_table. cbn [rndArray].
    destruct (resize (S l) [] (rndArray st) !! 0%nat) as [rnd|]; [|done].
    cbn [mbind option_bind]. unfold read_u32s.
    cbn [ifs_read igood]. unfold read_local. cbn [ifs_read igood length].
    done.
Qed.

(** ** The shape of a loaded index *)

Lemma words_of_bytes_length n bs : length (words_of_bytes n bs) = n.
Proof. revert bs. induction n as [|n IH]; intros bs; simpl; by rewrite ?IH. Qed.

Lemma words_of_bytes_short n : ∀ bs,
  Forall (λ w, (length w ≤ 4)%nat) (words_of_bytes n bs).
Proof.
  induction n as [|n IH]; intros bs; simpl; constructor; [|apply IH].
  rewrite length_take. lia.
Qed.

Lemma le_combine_u32 w : (length w ≤ 4)%nat → is_u32 (le_combine w).
Proof.
  intros Hw. pose proof (le_combine_bound w) as [H0 H1]. split; [done|].
  eapply Z.lt_le_trans; [done|]. apply Z.pow_le_mono_r; lia.
Qed.

Lemma read_u32_u32 old s : is_u32 (read_u32 old s).1.
Proof.
  unfold read_u32.
  assert (length (ifs_read 4 s).1 ≤ 4)%nat as Hlen.
  { unfold ifs_read. destruct (igood s); [|simpl; lia].
    destruct (Nat.leb_spec 4 (length (ibuf s))); simpl;
      [rewrite length_take|]; lia. }
  destruct (ifs_read 4 s) as [bs s']. simpl in *.
  apply le_combine_u32. unfold overlay.
  rewrite length_app, length_drop, length_le_split. lia.
Qed.

Lemma read_u32s_shape v s :
  length (read_u32s v s).1 = length v ∧ Forall is_u32 (read_u32s v s).1.
Proof.
  unfold read_u32s. destruct (ifs_read _ s) as [bs s']. simpl.
  rewrite length_fmap, words_of_bytes_length. split; [done|].
  apply Forall_fmap. eapply Forall_impl; [apply words_of_bytes_short|].
  intros w Hw. by apply le_combine_u32.
Qed.

Lemma read_floats_length v s : length (read_floats v s).1 = length v.
Proof.
  unfold read_floats. destruct (ifs_read _ s) as [bs s']. simpl.
  by rewrite length_fmap, words_of_bytes_length.
Qed.

Lemma load_rows_shape st p0 o0 s p o s' :
  length p0 = nN st → length o0 = nN st →
  for_upto (nN st) (load_rows st) (p0, o0, s) = Some (p, o, s') →
  length p = nN st ∧ Forall (λ r, length r = nD st) p
  ∧ length o = nN st ∧ Forall (λ r, length r = nN st) o.
Proof.
  intros Hp0 Ho0 Hl.
  apply (for_upto_inv_partial
    (λ j (a : list (list float) * list (list float) * ifstream),
       length a.1.1 = nN st ∧ length a.1.2 = nN st
       ∧ (∀ i r, (i < j)%nat → a.1.1 !! i = Some r → length r = nD st)
       ∧ (∀ i r, (i < j)%nat → a.1.2 !! i = Some r → length r = nN st)))
    in Hl.
  - destruct Hl as (Hp & Ho & Hpr & Hor). cbn [fst snd] in *.
    split; [done|]. split; [|split; [done|]].
    + apply Forall_lookup_2. intros i r Hr. apply (Hpr i r); [|done].
      rewrite <- Hp. by eapply lookup_lt_Some.
    + apply Forall_lookup_2. intros i r Hr. apply (Hor i r); [|done].
      rewrite <- Ho. by eapply lookup_lt_Some.
  - cbn [fst snd]. repeat split; try done; intros; lia.
  - intros j [[x1 x2] sx] [[y1 y2] sy] Hj (H1 & H2 & H3 & H4) Hy.
    cbn [fst snd] in *. unfold load_rows in Hy.
    destruct (x1 !! j) as [prow|]; simpl in Hy; [|done].
    destruct (x2 !! j) as [orow|]; simpl in Hy; [|done].
    pose proof (read_floats_length (resize (nD st) F32.zero prow) sx) as Lp.
    destruct (read_floats (resize (nD st) F32.zero prow) sx) as [prow' s1].
    pose proof (read_floats_length (resize (nN st) F32.zero orow) s1) as Lo.
    destruct (read_floats (resize (nN st) F32.zero orow) s1) as [orow' s2].
    injection Hy as <- <- <-. rewrite length_resize in Lp, Lo. simpl in Lp, Lo.
    rewrite !length_insert. do 2 (split; [done|]). split.
    + intros i r Hi Hr. destruct (decide (i = j)) as [->|Hne].
      * rewrite list_lookup_insert_eq in Hr by lia. congruence.
      * rewrite list_lookup_insert_ne in Hr by done. apply (H3 i r); [lia|done].
    + intros i r Hi Hr. destruct (decide (i = j)) as [->|Hne].
      * rewrite list_lookup_insert_eq in Hr by lia. congruence.
      * rewrite list_lookup_insert_ne in Hr by done. apply (H4 i r); [lia|done].
Qed.

Lemma load_buckets_length i n ts s ts' s' :
  for_upto n (load_bucket i) (ts, s) = Some (ts', s') →
  length ts' = length ts.
Proof.
  intros Hl.
  apply (for_upto_inv_partial
    (λ _ (a : list (gmap Z (list Z)) * ifstream),
       length a.1 = length ts)) in Hl; [done..|].
  intros j [x sx] [y sy] _ Hx Hy. cbn [fst] in *. unfold load_bucket in Hy.
  destruct (read_local sx) as [[target s1]|]; simpl in Hy; [|done].
  destruct (read_local s1) as [[len s2]|]; simpl in Hy; [|done].
  destruct (x !! i) as [t|]; simpl in Hy; [|done].
  destruct (map_subscript t target) as [ids t'].
  destruct (read_u32s _ s2) as [ids' s3]. injection Hy as <- _.
  by rewrite length_insert.
Qed.

Lemma load_table_shape i st s st' s' :
  load_table i (st, s) = Some (st', s') →
  param st' = param st
  ∧ length (pcsAll st') = length (pcsAll st)
  ∧ length (omegasAll st') = length (omegasAll st)
  ∧ length (rndArray st') = length (rndArray st)
  ∧ length (tables st') = length (tables st)
  ∧ table_shaped st' i
  ∧ ∀ k, k ≠ i → table_shaped st k → table_shaped st' k.
Proof.
  unfold load_table. intros Hl.
  destruct (rndArray st !! i) as [rnd|] eqn:Hrnd; simpl in Hl; [|done].
  pose proof (read_u32s_shape (resize (nN st) 0 rnd) s) as [Lr Ur].
  destruct (read_u32s _ s) as [rnd' s1]. simpl in Lr, Ur.
  rewrite length_resize in Lr.
  destruct (read_local s1) as [[count s2]|]; simpl in Hl; [|done].
  destruct (for_upto (Z.to_nat count) _ _) as [[ts s3]|] eqn:Hb;
    simpl in Hl; [|done].
  apply load_buckets_length in Hb.
  destruct (pcsAll st !! i) as [pcs|] eqn:Hpcs; simpl in Hl; [|done].
  destruct (omegasAll st !! i) as [om|] eqn:Hom; simpl in Hl; [|done].
  destruct (for_upto (nN st) _ _) as [[[pcs' om'] s4]|] eqn:Hrows;
    simpl in Hl; [|done].
  apply load_rows_shape in Hrows;
    [|by rewrite length_resize|by rewrite length_resize].
  destruct Hrows as (? & ? & ? & ?).
  injection Hl as <- <-. simpl. rewrite !length_insert.
  do 5 (split; [done|]). split.
  - unfold table_shaped, trained_table, nN, nD. simpl.
    rewrite !list_lookup_insert_eq by (by eapply lookup_lt_Some).
    split; [split|]; eexists; done.
  - intros k Hk. unfold table_shaped, trained_table, nN, nD. simpl.
    by rewrite !list_lookup_insert_ne by done.
Qed.

(** X18.  Whatever the file holds, when [load] returns the index has a
    full shape: 32-bit [M, L, D, N, S], [L] entries in each array, and in
    every table [N] 32-bit weights, [N] projection rows of [D]
    coefficients and [N] rotation rows of [N].  With [M ≥ 1] every hash
    value of a vector of [D] coefficients is then defined. *)
Theorem load_establishes_shape file st st' :
  load file st = Some st' →
  model_base st' ∧ all_trained st'
  ∧ (1 ≤ pM (param st') → index_ready st').
Proof.
  unfold load. intros Hl.
  pose proof (read_u32_u32 (pM (param st)) (ifs_open file)) as UM.
  destruct (read_u32 (pM (param st)) _) as [m s1].
  pose proof (read_u32_u32 (pL (param st)) s1) as UL.
  destruct (read_u32 (pL (param st)) _) as [l s2].
  pose proof (read_u32_u32 (pD (param st)) s2) as UD.
  destruct (read_u32 (pD (param st)) _) as [d s3].
  pose proof (read_u32_u32 (pN (param st)) s3) as UN.
  destruct (read_u32 (pN (param st)) _) as [n s4].
  pose proof (read_u32_u32 (pS (param st)) s4) as US.
  destruct (read_u32 (pS (param st)) _) as [s_ s5]. simpl in *.
  destruct (for_upto (Z.to_nat l) load_table _) as [[r s6]|] eqn:Hloop;
    simpl in Hl; [|done].
  injection Hl as <-.
  set (p := mkParam m l d n s_ (pI (param st))) in *.
  apply (for_upto_inv_partial
    (λ j (a : itqLsh * ifstream),
       param a.1 = p
       ∧ length (pcsAll a.1) = Z.to_nat l
       ∧ length (omegasAll a.1) = Z.to_nat l
       ∧ length (rndArray a.1) = Z.to_nat l
       ∧ length (tables a.1) = Z.to_nat l
       ∧ ∀ k, (k < j)%nat → table_shaped a.1 k)) in Hloop.
  - destruct Hloop as (Hp & Lp & Lo & Lr & Lt & Hk). cbn [fst] in *.
    assert (nL r = Z.to_nat l) as HnL by (unfold nL; by rewrite Hp).
    assert (model_base r) as Hbase.
    { split; [by rewrite Hp|]. rewrite Lp, Lo, Lr, Lt, HnL.
      do 4 (split; [done|]). intros i Hi. by apply Hk. }
    assert (all_trained r) as Htr.
    { intros i Hi. apply Hk. lia. }
    split; [done|]. split; [done|]. intros HM.
    split; [done|]. split; [lia|]. intros k Hk'.
    destruct (Hk k) as [[Hpc Hom] (rnd & Hr & Hlen & _)]; [lia|].
    split; [done|]. split; [done|]. exists rnd. split; [done|lia].
  - cbn [fst param pcsAll omegasAll rndArray tables].
    rewrite !length_resize. do 5 (split; [done|]). intros; lia.
  - intros j [x sx] [y sy] Hj (Hp & Lp & Lo & Lr & Lt & Hk) Hy.
    cbn [fst] in *.
    apply load_table_shape in Hy as (Hp' & ? & ? & ? & ? & Hi & Hother).
    split; [congruence|]. do 4 (split; [congruence|]).
    intros k Hk'. destruct (decide (k = j)) as [->|Hne]; [done|].
    apply Hother; [done|]. apply Hk. lia.
Qed.

(** ** Loading over an index that is in use *)

Lemma lookup_take_drop {A} (l l0 : list A) j :
  (j ≤ length l)%nat → (take j l ++ drop j l0) !! j = l0 !! j.
Proof.
  intros Hj. rewrite lookup_app_r by (rewrite length_take; lia).
  rewrite length_take, Nat.min_l, Nat.sub_diag, lookup_drop by lia.
  by rewrite Nat.add_0_r.
Qed.

Lemma insert_take_drop {A} (l l0 : list A) j x :
  l !! j = Some x → (j < length l0)%nat →
  <[j := x]> (take j l ++ drop j l0) = take (S j) l ++ drop (S j) l0.
Proof.
  intros Hx Hj. pose proof (lookup_lt_Some _ _ _ Hx) as Hl.
  destruct (lookup_lt_is_Some_2 l0 j Hj) as [y Hy].
  rewrite insert_app_r_alt by (rewrite length_take; lia).
  rewrite length_take, Nat.min_l, Nat.sub_diag by lia.
  rewrite (drop_S _ _ _ Hy). cbn [insert list_insert].
  rewrite (take_S_r _ _ _ Hx), <- app_assoc. done.
Qed.

Lemma load_rows_loop_over st pcs om p0 o0 rest :
  length pcs = nN st → Forall (λ r, length r = nD st) pcs →
  length om = nN st → Forall (λ r, length r = nN st) om →
  length p0 = nN st → length o0 = nN st →
  for_upto (nN st) (load_rows st)
    (p0, o0, mkIfs ((seq 0 (nN st) ≫= row_bytes pcs om) ++ rest) true)
  = Some (pcs, om, mkIfs rest true).
Proof.
  intros Hlp Hrp Hlo Hro Hp0 Ho0. unfold for_upto.
  destruct (for_from_consume
    (λ j (a : list (list float) * list (list float)),
       a.1 = take j pcs ++ drop j p0 ∧ a.2 = take j om ++ drop j o0)
    (row_bytes pcs om) (load_rows st) (nN st) 0 (p0, o0) rest)
    as ([p o] & Hr & Hp & Ho).
  - done.
  - intros j [p o] rest' Hj [Hp Ho]. simpl in Hp, Ho. subst p o.
    destruct (lookup_lt_is_Some_2 pcs j) as [prow Hprow]; [lia|].
    destruct (lookup_lt_is_Some_2 om j) as [orow Horow]; [lia|].
    destruct (lookup_lt_is_Some_2 p0 j) as [prow0 Hprow0]; [lia|].
    destruct (lookup_lt_is_Some_2 o0 j) as [orow0 Horow0]; [lia|].
    pose proof (Forall_lookup_1 _ _ _ _ Hrp Hprow) as Hpl. cbn beta in Hpl.
    pose proof (Forall_lookup_1 _ _ _ _ Hro Horow) as Hol. cbn beta in Hol.
    unfold load_rows, row_bytes.
    rewrite !lookup_take_drop, Hprow0, Horow0 by lia.
    cbn [mbind option_bind].
    rewrite (list_lookup_total_correct _ _ _ Hprow).
    rewrite (list_lookup_total_correct _ _ _ Horow).
    rewrite <- app_assoc.
    rewrite read_floats_ok by (by rewrite length_resize).
    rewrite read_floats_ok by (by rewrite length_resize).
    eexists; split; [done|]. simpl.
    by rewrite !insert_take_drop by (done || lia).
  - simpl in Hp, Ho. rewrite Hr. subst p o.
    rewrite !drop_ge, !app_nil_r by lia.
    by rewrite !take_ge by lia.
Qed.

Lemma foldl_insert_union (l : list (Z * list Z)) (t0 : gmap Z (list Z)) :
  NoDup (l.*1) →
  foldl (λ t e, <[e.1 := e.2]> t) t0 l = list_to_map l ∪ t0.
Proof.
  induction l as [|[h ids] l IH] using rev_ind; intros Hnd.
  - simpl. by rewrite (left_id_L ∅ (∪)).
  - rewrite fmap_app in Hnd. apply NoDup_app in Hnd as (Hl & Hnot & _).
    rewrite foldl_app. simpl. rewrite IH by done.
    rewrite list_to_map_snoc.
    + by rewrite insert_union_l.
    + intros Hin. apply (Hnot h Hin). simpl. apply list_elem_of_here.
Qed.

Lemma rebuild_map_items_over (t t0 : gmap Z (list Z)) :
  foldl (λ t e, <[e.1 := e.2]> t) t0 (map_items t) = t ∪ t0.
Proof.
  assert (NoDup ((map_items t).*1)) as Hnd.
  { rewrite map_items_perm. apply NoDup_fst_map_to_list. }
  rewrite foldl_insert_union by done.
  rewrite (list_to_map_proper _ (map_to_list t) Hnd (map_items_perm t)).
  by rewrite list_to_map_to_list.
Qed.

Lemma merged_tables_lookup st old i t :
  tables st !! i = Some t → length (tables st) = nL st →
  ∃ t0, resize (nL st) ∅ old !! i = Some t0
        ∧ merged_tables st old !! i = Some (t ∪ t0).
Proof.
  intros Ht Hlen. pose proof (lookup_lt_Some _ _ _ Ht) as Hi.
  destruct (lookup_lt_is_Some_2 (resize (nL st) ∅ old) i) as [t0 Ht0].
  { rewrite length_resize. lia. }
  exists t0. split; [done|]. unfold merged_tables.
  rewrite lookup_zip_with, Ht. simpl. by rewrite Ht0.
Qed.

Lemma load_table_step_over st cur p x i rest :
  saveable st → (i < nL st)%nat →
  pN p = pN (param st) → pD p = pD (param st) →
  loaded_over st cur p i x →
  ∃ x', load_table i (x, mkIfs (table_bytes st i ++ rest) true)
        = Some (x', mkIfs rest true)
        ∧ loaded_over st cur p (S i) x'.
Proof.
  intros (_ & Hlp & Hlo & Hlr & Hlt & Htab) Hi HN HD
         (Hp & Hpcs & Hom & Hrnd & Hts).
  destruct (Htab i Hi)
    as (((pcs & Hpcsi & Hpl & Hprows) & (om & Homi & Hol & Horows))
        & (rnd & Hrndi & Hrl & Hru) & (t & Hti & Hsize & Hall)).
  assert (nN x = nN st) as HnN by (unfold nN; by rewrite Hp, HN).
  assert (nD x = nD st) as HnD by (unfold nD; by rewrite Hp, HD).
  destruct (lookup_lt_is_Some_2 (resize (nL st) [] (rndArray cur)) i)
    as [rnd0 Hrnd0]; [rewrite length_resize; lia|].
  destruct (lookup_lt_is_Some_2 (resize (nL st) [] (pcsAll cur)) i)
    as [pcs0 Hpcs0]; [rewrite length_resize; lia|].
  destruct (lookup_lt_is_Some_2 (resize (nL st) [] (omegasAll cur)) i)
    as [om0 Hom0]; [rewrite length_resize; lia|].
  destruct (merged_tables_lookup st (tables cur) i t Hti Hlt)
    as (t0 & Ht0 & Hmerged).
  unfold load_table, table_bytes.
  rewrite (list_lookup_total_correct _ _ _ Hrndi).
  rewrite (list_lookup_total_correct _ _ _ Hti).
  rewrite (list_lookup_total_correct _ _ _ Hpcsi).
  rewrite (list_lookup_total_correct _ _ _ Homi).
  rewrite <- !app_assoc.
  rewrite Hrnd, lookup_take_drop, Hrnd0 by lia. cbn [mbind option_bind].
  rewrite read_u32s_ok by (rewrite ?length_resize; done || lia).
  rewrite read_local_ok by (unfold is_u32; lia). cbn [mbind option_bind].
  rewrite Nat2Z.id, <- map_items_length.
  change (for_upto (length (map_items t)) (load_bucket i))
    with (for_from 0 (length (map_items t)) (load_bucket i)).
  rewrite (load_buckets_loop i (map_items t) 0 (tables x) t0).
  2:{ rewrite Hts, lookup_take_drop; [done|].
      unfold merged_tables. rewrite length_zip_with, length_resize. lia. }
  2:{ by apply map_items_ok. }
  cbn [mbind option_bind]. rewrite rebuild_map_items_over.
  rewrite Hpcs, Hom, !lookup_take_drop, Hpcs0, Hom0 by lia.
  cbn [mbind option_bind]. rewrite HnN, <- HnN.
  rewrite (load_rows_loop_over x pcs om _ _ rest)
    by (rewrite ?length_resize, ?HnN, ?HnD; done).
  cbn [mbind option_bind]. eexists; split; [done|].
  split; [done|]. simpl. rewrite Hts.
  by rewrite !insert_take_drop by (rewrite ?length_resize; done).
Qed.

Lemma load_over_spec st cur :
  saveable st →
  load (Some (file_bytes st)) cur
  = Some (mkLsh (with_I (pI (param cur)) (param st))
            (pcsAll st) (omegasAll st) (rndArray st)
            (merged_tables st (tables cur))).
Proof.
  intros Hsav. pose proof Hsav as ((HM & HL & HD & HN & HS) & Hlp & Hlo
                                   & Hlr & Hlt & Htab).
  unfold load, file_bytes, save_header, ifs_open. rewrite <- !app_assoc.
  rewrite !read_u32_ok by done. fold (nL st). unfold for_upto.
  destruct (for_from_consume
    (loaded_over st cur (with_I (pI (param cur)) (param st)))
    (table_bytes st) load_table (nL st) 0
    (mkLsh (with_I (pI (param cur)) (param st))
       (resize (nL st) [] (pcsAll cur)) (resize (nL st) [] (omegasAll cur))
       (resize (nL st) [] (rndArray cur)) (resize (nL st) ∅ (tables cur))) [])
    as (r & Hr & Hp & Hpcs & Hom & Hrnd & Hts).
  - by repeat split.
  - intros j x rest' Hj Hx. apply load_table_step_over; [done|lia|done..].
  - rewrite app_nil_r in Hr. unfold with_I in Hr. rewrite Hr.
    cbn [mbind option_bind]. f_equal. destruct r as [rp rpcs rom rrnd rts].
    simpl in *. subst.
    rewrite !drop_ge, !app_nil_r by (rewrite length_resize; lia).
    rewrite !take_ge; [done|..]; try lia.
    unfold merged_tables. rewrite length_zip_with, length_resize. lia.
Qed.

(** X19.  [load] over an index that is in use: the header fields, the
    projections, the rotations and the weights become those of the file,
    and [I] stays; the tables are not cleared first, so in each table the
    buckets of the file replace the buckets under the same keys and every
    other bucket the index held is still there. *)
Theorem load_over_existing st cur file :
  saveable st → save st = Some file →
  load (Some file) cur
  = Some (mkLsh (with_I (pI (param cur)) (param st))
            (pcsAll st) (omegasAll st) (rndArray st)
            (zip_with (∪) (tables st) (resize (nL st) ∅ (tables cur)))).
Proof.
  intros Hs Hf. rewrite (save_spec st Hs) in Hf. injection Hf as <-.
  by apply load_over_spec.
Qed.

(** ** What the iteration count has no part in, and the loaded index *)

(** Two loops whose turns keep a relation between their states. *)
Lemma for_from_sim {A B} (R : A → B → Prop)
  (f : nat → A → option A) (g : nat → B → option B) n : ∀ i a b,
  R a b →
  (∀ j x y, R x y → option_Forall2 R (f j x) (g j y)) →
  option_Forall2 R (for_from i n f a) (for_from i n g b).
Proof.
  induction n as [|n IH]; intros i a b Hab Hstep; [by constructor|].
  rewrite !for_from_S_l.
  destruct (Hstep i a b Hab) as [x y Hxy|]; simpl; [|constructor].
  by apply IH.
Qed.

Lemma getHashVal_set_I i st k v :
  getHashVal (set_I i st) k v = getHashVal st k v.
Proof. done. Qed.

Lemma insert_set_I i key v st :
  insert key v (set_I i st) = set_I i <$> insert key v st.
Proof.
  unfold insert.
  change (nL (set_I i st)) with (nL st). unfold for_upto.
  pose proof (for_from_sim (λ x y, x = set_I i y)
    (insert_table key v) (insert_table key v) (nL st) 0 (set_I i st) st
    eq_refl) as Hsim.
  destruct Hsim as [x y ->|]; [|done..].
  intros j x y ->. unfold insert_table. rewrite getHashVal_set_I.
  destruct (getHashVal y j v); simpl; [|constructor].
  change (tables (set_I i y)) with (tables y).
  destruct (tables y !! j); simpl; by constructor.
Qed.

Lemma query_set_I i v st :
  query v (set_I i st) = (λ r, (set_I i r.1, r.2)) <$> query v st.
Proof.
  unfold query.
  change (nL (set_I i st)) with (nL st). unfold for_upto.
  pose proof (for_from_sim
    (λ (x y : itqLsh * list ScannerCall), x = (set_I i y.1, y.2))
    (query_table v) (query_table v) (nL st) 0
    (set_I i st, [ScanReset v]) (st, [ScanReset v]) eq_refl) as Hsim.
  destruct Hsim as [x [y cy] ->|]; [|done..].
  intros j x [y cy] ->. unfold query_table. cbn [fst snd].
  rewrite getHashVal_set_I.
  destruct (getHashVal y j v) as [h|]; simpl; [|constructor].
  change (tables (set_I i y)) with (tables y).
  destruct (tables y !! j) as [t|]; simpl; [|constructor].
  destruct (t !! h); [|by constructor].
  destruct (map_subscript t h) as [ids t']. by constructor.
Qed.

(** X20.  The iteration count has no part in hashing, insertion or
    querying: for every value of [I] the hash values are the same,
    [insert] makes the same tables and [query] the same calls on the
    scanner. *)
Theorem iteration_count_unused i st key v :
  (∀ k, getHashVal (set_I i st) k v = getHashVal st k v)
  ∧ insert key v (set_I i st) = set_I i <$> insert key v st
  ∧ query v (set_I i st) = (λ r, (set_I i r.1, r.2)) <$> query v st.
Proof.
  split; [intros k; apply getHashVal_set_I|].
  split; [apply insert_set_I|apply query_set_I].
Qed.

(** X21.  An index that was saved and loaded into a default-constructed
    object answers like the one that was saved: the same hash value for
    every table and vector, and for every query the same calls on the
    scanner in the same order. *)
Theorem loaded_index_answers_alike st file garbage st' :
  saveable st → save st = Some file →
  load (Some file) (fresh garbage) = Some st' →
  (∀ k v, getHashVal st' k v = getHashVal st k v)
  ∧ (∀ v, snd <$> query v st' = snd <$> query v st).
Proof.
  intros Hs Hf Hl. rewrite (save_spec st Hs) in Hf. injection Hf as <-.
  rewrite (load_spec st garbage Hs) in Hl. injection Hl as <-.
  change (mkLsh (with_I (pI garbage) (param st)) (pcsAll st) (omegasAll st)
            (rndArray st) (tables st)) with (set_I (pI garbage) st).
  split; [intros k v; apply getHashVal_set_I|].
  intros v. rewrite query_set_I. by destruct (query v st) as [[]|].
Qed.

(** ** The quantised matrix and the stored model *)

Lemma sign_code_cases z : is_sign_code (sign_code z).
Proof. unfold is_sign_code, sign_code. destruct (F32.gt0 z); auto. Qed.

(** X22.  The quantisation of the ITQ iteration never leaves the matrix:
    for every [Z] it returns a matrix [UX] of the shape of [Z], and every
    coefficient of [UX] is [1] or [-1], [1] exactly where the
    coefficient of [Z] is strictly positive. *)
Theorem quantize_binary Zm :
  mat_wf Zm →
  ∃ UX, quantize Zm = Some UX
        ∧ rows UX = rows Zm ∧ cols UX = cols Zm
        ∧ ∀ i j, (i < rows Zm)%nat → (j < cols Zm)%nat →
            ∃ z x, coeff Zm i j = Some z ∧ coeff UX i j = Some x
                   ∧ is_sign_code x
                   ∧ (x = F32.of_Z 1 ↔ is_positive z).
Proof.
  intros Hwf. destruct (quantize_total Zm Hwf) as (UX & Hq & _ & Hr & Hc).
  exists UX. split; [done|]. split; [done|]. split; [done|].
  intros i j Hi Hj. destruct (coeff_wf Zm i j Hwf Hi Hj) as [z Hz].
  exists z, (sign_code z). split; [done|].
  split; [by apply (quantize_coeff Zm UX i j z)|].
  split; [apply sign_code_cases|].
  rewrite <- gt0_positive. unfold sign_code.
  destruct (F32.gt0 z); [done|]. split; [|done].
  intros Heq. exfalso. revert Heq. vm_compute. discriminate.
Qed.

Lemma mapM_snoc {A B} (f : A → option B) l a :
  mapM f (l ++ [a]) = xs ← mapM f l; x ← f a; Some (xs ++ [x]).
Proof.
  induction l as [|b l IH]; simpl.
  - by destruct (f a).
  - destruct (f b) as [y|]; simpl; [|done]. rewrite IH.
    destruct (mapM f l) as [xs|]; simpl; [|done].
    by destruct (f a).
Qed.

(** A loop that assigns position [j] in turn [j] overwrites a prefix. *)
Lemma for_upto_overwrite {A} (g : nat → option A)
  (body : nat → list A → option (list A)) n xs :
  (∀ j ys, (j < n)%nat → length ys = length xs →
           body j ys = x ← g j; Some (<[j := x]> ys)) →
  (n ≤ length xs)%nat →
  for_upto n body xs = (λ l, l ++ drop n xs) <$> mapM g (seq 0 n).
Proof.
  intros Hbody. induction n as [|n IH]; intros Hn; [done|].
  unfold for_upto in *. rewrite for_from_S_r, seq_S, mapM_snoc.
  rewrite IH by (intros; try apply Hbody; lia). cbn [Nat.add].
  destruct (mapM g (seq 0 n)) as [l|] eqn:Hl; [|done].
  cbn [fmap option_fmap option_map mbind option_bind].
  apply length_mapM in Hl. rewrite length_seq in Hl.
  rewrite Hbody; [|lia|].
  2:{ rewrite length_app, length_drop. lia. }
  destruct (g n) as [x|]; [|done].
  cbn [fmap option_fmap option_map mbind option_bind]. f_equal.
  destruct (lookup_lt_is_Some_2 xs n) as [y Hy]; [lia|].
  rewrite (drop_S xs y n Hy).
  rewrite insert_app_r_alt by lia.
  replace (n - length l)%nat with 0%nat by lia. simpl.
  by rewrite <- app_assoc.
Qed.

Lemma store_transposed_spec m r w old :
  store_transposed m r w old = transposed_rows m r w.
Proof.
  unfold store_transposed, transposed_rows.
  rewrite (for_upto_overwrite (column_prefix m w)).
  - rewrite length_resize, drop_ge by (rewrite length_resize; lia).
    destruct (mapM _ _); simpl; [|done]. by rewrite app_nil_r.
  - intros i out Hi Hlen. rewrite length_resize in Hi, Hlen.
    destruct (lookup_lt_is_Some_2 out i) as [row Hrow]; [lia|].
    rewrite Hrow. cbn [mbind option_bind].
    rewrite (for_upto_overwrite (λ j, coeff m j i)); [| |done].
    + rewrite length_resize, drop_ge by (rewrite length_resize; lia).
      unfold column_prefix.
      destruct (mapM _ _); simpl; [|done]. by rewrite app_nil_r.
    + done.
  - done.
Qed.

(** X23.  The two storing loops at the end of a table overwrite the model
    of the table: whatever [omegasAll[k]] and [pcsAll[k]] held, the new
    contents are the columns of the matrix, row [i] being the first
    [width] coefficients of column [i]; the loops are defined exactly
    when each of those coefficients is inside the matrix. *)
Theorem store_transposed_overwrites m r w old :
  store_transposed m r w old = transposed_rows m r w
  ∧ (is_Some (store_transposed m r w old) ↔
       ∀ i j, (i < r)%nat → (j < w)%nat → is_Some (coeff m j i))
  ∧ ∀ out, store_transposed m r w old = Some out →
      ∀ i j, (i < r)%nat → (j < w)%nat →
        ∃ row, out !! i = Some row ∧ row !! j = coeff m j i.
Proof.
  split; [apply store_transposed_spec|].
  rewrite store_transposed_spec. unfold transposed_rows. split.
  - rewrite mapM_is_Some, Forall_forall. split.
    + intros H i j Hi Hj.
      assert (is_Some (column_prefix m w i)) as Hc.
      { apply H. apply elem_of_seq. lia. }
      unfold column_prefix in Hc. rewrite mapM_is_Some, Forall_forall in Hc.
      apply Hc. apply elem_of_seq. lia.
    + intros H i Hi%elem_of_seq. unfold compose, column_prefix.
      rewrite mapM_is_Some, Forall_forall. intros j Hj%elem_of_seq.
      apply H; lia.
  - intros out Hout i j Hi Hj.
    apply mapM_Some_1 in Hout.
    destruct (Forall2_lookup_l _ _ _ i i Hout) as (row & Hrow & Hcol).
    { apply lookup_seq. lia. }
    exists row. split; [done|].
    unfold column_prefix in Hcol. apply mapM_Some_1 in Hcol.
    destruct (Forall2_lookup_l _ _ _ j j Hcol) as (x & Hx & Hm).
    { apply lookup_seq. lia. }
    congruence.
Qed.

(** ** The run: the further properties on scenario S1 *)

Lemma ex_saveable : saveable ex_hashed.
Proof.
  destruct (built_invariant true ex_hashed ex_built) as (Hb & Ht & Ha).
  apply saveable_intro; [exact Hb|exact (Ha eq_refl)|exact Ht|].
  apply buckets_bounded_check. vm_compute. reflexivity.
Defined.

Lemma constructed_index_witness :
  1 ≤ pM ex_param < 2 ^ 32
  ∧ param (itqLsh_new (RNG := lcg) ex_param 12345 ex_garbage) = ex_param
  ∧ tables (itqLsh_new (RNG := lcg) ex_param 12345 ex_garbage)
    = replicate (Z.to_nat (pL ex_param)) ∅
  ∧ pcsAll (itqLsh_new (RNG := lcg) ex_param 12345 ex_garbage)
    = replicate (Z.to_nat (pL ex_param)) []
  ∧ omegasAll (itqLsh_new (RNG := lcg) ex_param 12345 ex_garbage)
    = replicate (Z.to_nat (pL ex_param)) []
  ∧ length (rndArray (itqLsh_new (RNG := lcg) ex_param 12345 ex_garbage))
    = Z.to_nat (pL ex_param)
  ∧ Forall (λ v, length v = Z.to_nat (pN ex_param)
                 ∧ Forall (λ x, 0 ≤ x < pM ex_param) v)
           (rndArray (itqLsh_new (RNG := lcg) ex_param 12345 ex_garbage)).
Proof.
  assert (1 ≤ pM ex_param < 2 ^ 32) as H1 by (simpl; lia).
  split; [exact H1|].
  exact (constructed_index (RNG := lcg) ex_param 12345 ex_garbage H1).
Defined.

Lemma reset_keeps_contents_witness :
  (0 < Z.to_nat (pL ex_param2))%nat
  ∧ tables (reset (RNG := lcg) ex_param2 777 ex_hashed) !! 0%nat
    = tables ex_hashed !! 0%nat
  ∧ pcsAll (reset (RNG := lcg) ex_param2 777 ex_hashed) !! 0%nat
    = pcsAll ex_hashed !! 0%nat
  ∧ omegasAll (reset (RNG := lcg) ex_param2 777 ex_hashed) !! 0%nat
    = omegasAll ex_hashed !! 0%nat.
Proof.
  assert (0 < Z.to_nat (pL ex_param2))%nat as H1 by (vm_compute; lia).
  assert (0 < length (tables ex_hashed))%nat as H2 by (vm_compute; lia).
  assert (0 < length (pcsAll ex_hashed))%nat as H3 by (vm_compute; lia).
  assert (0 < length (omegasAll ex_hashed))%nat as H4 by (vm_compute; lia).
  destruct (reset_keeps_contents (RNG := lcg) ex_param2 777 ex_hashed 0 H1)
    as (Ht & Hp & Ho).
  split; [exact H1|]. split; [exact (Ht H2)|]. split; [exact (Hp H3)|].
  exact (Ho H4).
Defined.

Lemma modulus_zero_undefined_witness :
  pM (param ex_reset0) = 0
  ∧ 1 ≤ pL (param ex_reset0)
  ∧ (∀ k, getHashVal ex_reset0 k ex_row0 = None)
  ∧ insert 0 ex_row0 ex_reset0 = None
  ∧ query ex_row0 ex_reset0 = None.
Proof.
  assert (pM (param ex_reset0) = 0) as H1 by reflexivity.
  assert (1 ≤ pL (param ex_reset0)) as H2 by (simpl; lia).
  destruct (modulus_zero_undefined ex_reset0 0 ex_row0 H1) as [Hh Hiq].
  split; [exact H1|]. split; [exact H2|]. split; [exact Hh|].
  exact (Hiq H2).
Defined.

Lemma insert_appends_key_witness :
  insert 0 ex_row0 ex_trained = Some ex_inserted
  ∧ (0 < nL ex_trained)%nat
  ∧ rndArray ex_inserted = rndArray ex_trained
  ∧ ∃ h t, getHashVal ex_trained 0 ex_row0 = Some h
           ∧ tables ex_trained !! 0%nat = Some t
           ∧ tables ex_inserted !! 0%nat
             = Some (<[h := default [] (t !! h) ++ [0]]> t).
Proof.
  assert (insert 0 ex_row0 ex_trained = Some ex_inserted) as H1
    by (vm_compute; reflexivity).
  assert (0 < nL ex_trained)%nat as H2 by (vm_compute; lia).
  destruct (insert_appends_key 0 ex_row0 ex_trained ex_inserted H1)
    as (_ & _ & _ & Hr & Hk & _).
  split; [exact H1|]. split; [exact H2|]. split; [exact Hr|].
  exact (Hk 0%nat H2).
Defined.

Lemma untrained_index_single_bucket_witness :
  1 ≤ pM ex_param < 2 ^ 32
  ∧ (0 < Z.to_nat (pL ex_param))%nat
  ∧ getHashVal (itqLsh_new (RNG := lcg) ex_param 12345 ex_garbage) 0 ex_row0
    = Some 0
  ∧ ∃ st', insert 5 ex_row0 (itqLsh_new (RNG := lcg) ex_param 12345 ex_garbage)
           = Some st'
           ∧ tables st' = replicate (Z.to_nat (pL ex_param)) {[0 := [5]]}.
Proof.
  assert (1 ≤ pM ex_param < 2 ^ 32) as H1 by (simpl; lia).
  assert (0 < Z.to_nat (pL ex_param))%nat as H2 by (vm_compute; lia).
  destruct (untrained_index_single_bucket (RNG := lcg) ex_param 12345
              ex_garbage 5 ex_row0 H1) as [Hh Hi].
  split; [exact H1|]. split; [exact H2|]. split; [exact (Hh 0%nat H2)|].
  exact Hi.
Defined.

Lemma query_trace_witness :
  query ex_row0 ex_hashed = Some (ex_hashed, ex_calls)
  ∧ ex_calls
    = ScanReset ex_row0
        :: (seq 0 (nL ex_hashed)
              ≫= λ k, ScanOffer <$> bucket_hit ex_hashed k ex_row0)
        ++ [ScanGenTopk].
Proof.
  assert (query ex_row0 ex_hashed = Some (ex_hashed, ex_calls)) as H1
    by (vm_compute; reflexivity).
  split; [exact H1|].
  exact (query_trace ex_row0 ex_hashed ex_hashed ex_calls H1).
Defined.

Lemma query_offers_colliding_rows_witness :
  Forall (λ t, t = ∅) (tables ex_trained)
  ∧ hash ex_data ex_trained = Some ex_hashed
  ∧ query ex_row0 ex_hashed = Some (ex_hashed, ex_calls)
  ∧ ∀ id, ScanOffer id ∈ ex_calls ↔
          ∃ (i k : nat) h,
            id = Z.of_nat i ∧ (i < getSize ex_data)%nat
            ∧ (k < nL ex_trained)%nat
            ∧ getHashVal ex_hashed k (mat_row ex_data i) = Some h
            ∧ getHashVal ex_hashed k ex_row0 = Some h.
Proof.
  assert (Forall (λ t, t = ∅) (tables ex_trained)) as H1
    by (by repeat constructor).
  assert (hash ex_data ex_trained = Some ex_hashed) as H2
    by (vm_compute; reflexivity).
  assert (query ex_row0 ex_hashed = Some (ex_hashed, ex_calls)) as H3
    by (vm_compute; reflexivity).
  split; [exact H1|]. split; [exact H2|]. split; [exact H3|].
  exact (query_offers_colliding_rows ex_data ex_trained ex_hashed ex_row0
           ex_hashed ex_calls H1 H2 H3).
Defined.

Lemma hash_partitions_rows_witness :
  Forall (λ t, t = ∅) (tables ex_trained)
  ∧ hash ex_data ex_trained = Some ex_hashed
  ∧ (0 < nL ex_trained)%nat ∧ (0 < length (tables ex_trained))%nat
  ∧ ∃ t, tables ex_hashed !! 0%nat = Some t
         ∧ table_ids t ≡ₚ Z.of_nat <$> seq 0 (getSize ex_data).
Proof.
  assert (Forall (λ t, t = ∅) (tables ex_trained)) as H1
    by (by repeat constructor).
  assert (hash ex_data ex_trained = Some ex_hashed) as H2
    by (vm_compute; reflexivity).
  assert (0 < nL ex_trained)%nat as H3 by (vm_compute; lia).
  assert (0 < length (tables ex_trained))%nat as H4 by (vm_compute; lia).
  split; [exact H1|]. split; [exact H2|]. split; [exact H3|].
  split; [exact H4|].
  exact (hash_partitions_rows ex_data ex_trained ex_hashed 0 H1 H2 H3 H4).
Defined.

Lemma equal_codes_collide_witness :
  table_ready ex_trained 0
  ∧ (nD ex_trained ≤ length ex_row0)%nat
  ∧ (nD ex_trained ≤ length ex_row1)%nat
  ∧ binary_code ex_trained 0 ex_row0 = binary_code ex_trained 0 ex_row1
  ∧ getHashVal ex_trained 0 ex_row0 = getHashVal ex_trained 0 ex_row1.
Proof.
  assert (nD ex_trained ≤ length ex_row0)%nat as H2 by (vm_compute; lia).
  assert (nD ex_trained ≤ length ex_row1)%nat as H3 by (vm_compute; lia).
  assert (binary_code ex_trained 0 ex_row0 = binary_code ex_trained 0 ex_row1)
    as H4 by (vm_compute; reflexivity).
  split; [exact ex_table_ready|]. split; [exact H2|]. split; [exact H3|].
  split; [exact H4|].
  exact (equal_codes_collide ex_trained 0 ex_row0 ex_row1 ex_table_ready
           H2 H3 H4).
Defined.

Lemma hash_reads_D_coefficients_witness :
  table_ready ex_trained 0
  ∧ (nD ex_trained ≤ length ex_row0)%nat
  ∧ (nD ex_trained ≤ length (take 4 ex_row0))%nat
  ∧ take (nD ex_trained) ex_row0 = take (nD ex_trained) (take 4 ex_row0)
  ∧ getHashVal ex_trained 0 ex_row0 = getHashVal ex_trained 0 (take 4 ex_row0).
Proof.
  assert (nD ex_trained ≤ length ex_row0)%nat as H2 by (vm_compute; lia).
  assert (nD ex_trained ≤ length (take 4 ex_row0))%nat as H3
    by (vm_compute; lia).
  assert (take (nD ex_trained) ex_row0
          = take (nD ex_trained) (take 4 ex_row0)) as H4
    by (vm_compute; reflexivity).
  split; [exact ex_table_ready|]. split; [exact H2|]. split; [exact H3|].
  split; [exact H4|].
  exact (hash_reads_D_coefficients ex_trained 0 ex_row0 (take 4 ex_row0)
           ex_table_ready H2 H3 H4).
Defined.

Lemma zero_vector_bucket_zero_witness :
  table_ready ex_trained 0
  ∧ (nD ex_trained ≤ length ex_zero_row)%nat
  ∧ 1 ≤ pM (param ex_trained)
  ∧ Forall is_zero (take (nD ex_trained) ex_zero_row)
  ∧ getHashVal ex_trained 0 ex_zero_row = Some 0.
Proof.
  assert (nD ex_trained ≤ length ex_zero_row)%nat as H2 by (vm_compute; lia).
  assert (1 ≤ pM (param ex_trained)) as H3 by (simpl; lia).
  assert (Forall is_zero (take (nD ex_trained) ex_zero_row)) as H4
    by (repeat constructor; exists false; reflexivity).
  split; [exact ex_table_ready|]. split; [exact H2|]. split; [exact H3|].
  split; [exact H4|].
  exact (zero_vector_bucket_zero ex_trained 0 ex_zero_row ex_table_ready
           H2 H3 H4).
Defined.

Lemma sample_distinct_rows_witness :
  0 ≤ 3
  ∧ sample_seqs (RNG := lcg) 100 4 3 [] 999 = Some ex_sample
  ∧ length ex_sample.1 = 4%nat ∧ NoDup ex_sample.1
  ∧ Forall (λ x, 0 ≤ x ≤ 3) ex_sample.1.
Proof.
  assert (0 ≤ 3) as H1 by lia.
  assert (sample_seqs (RNG := lcg) 100 4 3 [] 999
          = Some (ex_sample.1, ex_sample.2)) as H2
    by (vm_compute; reflexivity).
  split; [exact H1|]. split; [exact H2|].
  exact (sample_distinct_rows (RNG := lcg) 100 4 3 999 ex_sample.1
           ex_sample.2 H1 H2).
Defined.

Lemma train_starves_witness :
  (1 ≤ getSize ex_data)%nat
  ∧ Z.of_nat (getSize ex_data) ≤ 2 ^ 32
  ∧ Z.of_nat (getSize ex_data) < pS (param ex_reset5)
  ∧ 1 ≤ pL (param ex_reset5)
  ∧ train (RNG := lcg) (EIG := naive_kernels) 1000 999 ex_data ex_reset5
    = None.
Proof.
  assert (1 ≤ getSize ex_data)%nat as H1 by (vm_compute; lia).
  assert (Z.of_nat (getSize ex_data) ≤ 2 ^ 32) as H2 by (simpl; lia).
  assert (Z.of_nat (getSize ex_data) < pS (param ex_reset5)) as H3
    by (simpl; lia).
  assert (1 ≤ pL (param ex_reset5)) as H4 by (simpl; lia).
  split; [exact H1|]. split; [exact H2|]. split; [exact H3|].
  split; [exact H4|].
  exact (train_starves (RNG := lcg) (EIG := naive_kernels) 1000 999 ex_data
           ex_reset5 H1 H2 H3 H4).
Defined.

Lemma train_shapes_witness :
  train (RNG := lcg) (EIG := naive_kernels) 100 999 ex_data ex_reset
  = Some ex_trained
  ∧ (0 < nL ex_reset)%nat
  ∧ length (pcsAll ex_trained) = length (pcsAll ex_reset)
  ∧ length (omegasAll ex_trained) = length (omegasAll ex_reset)
  ∧ ∃ pcs om,
      pcsAll ex_trained !! 0%nat = Some pcs
      ∧ omegasAll ex_trained !! 0%nat = Some om
      ∧ length pcs = nN ex_reset ∧ Forall (λ r, length r = nD ex_reset) pcs
      ∧ length om = nN ex_reset ∧ Forall (λ r, length r = nN ex_reset) om.
Proof.
  assert (train (RNG := lcg) (EIG := naive_kernels) 100 999 ex_data ex_reset
          = Some ex_trained) as H1 by (vm_compute; reflexivity).
  assert (0 < nL ex_reset)%nat as H2 by (vm_compute; lia).
  destruct (train_shapes (RNG := lcg) (EIG := naive_kernels) 100 999 ex_data
              ex_reset ex_trained H1) as (Hp & Ho & Hk).
  split; [exact H1|]. split; [exact H2|]. split; [exact Hp|].
  split; [exact Ho|]. exact (Hk 0%nat H2).
Defined.

Lemma save_layout_witness :
  saveable ex_hashed
  ∧ save ex_hashed
    = Some (save_header (param ex_hashed)
              ++ (seq 0 (nL ex_hashed) ≫= table_bytes ex_hashed))
  ∧ ∀ i t, tables ex_hashed !! i = Some t →
      StronglySorted key_le (map_items t)
      ∧ NoDup ((map_items t).*1)
      ∧ map_items t ≡ₚ map_to_list t.
Proof.
  split; [exact ex_saveable|]. exact (save_layout ex_hashed ex_saveable).
Defined.

Lemma save_defined_requires_witness :
  save ex_hashed = Some ex_file
  ∧ (0 < nL ex_hashed)%nat ∧ (1 < nN ex_hashed)%nat
  ∧ (∃ rnd, rndArray ex_hashed !! 0%nat = Some rnd
            ∧ (nN ex_hashed ≤ length rnd)%nat)
  ∧ (∃ t, tables ex_hashed !! 0%nat = Some t)
  ∧ (∃ pcs prow, pcsAll ex_hashed !! 0%nat = Some pcs
                 ∧ pcs !! 1%nat = Some prow
                 ∧ (nD ex_hashed ≤ length prow)%nat)
  ∧ (∃ om orow, omegasAll ex_hashed !! 0%nat = Some om
                ∧ om !! 1%nat = Some orow
                ∧ (nN ex_hashed ≤ length orow)%nat).
Proof.
  assert (save ex_hashed = Some ex_file) as H1 by (vm_compute; reflexivity).
  assert (0 < nL ex_hashed)%nat as H2 by (vm_compute; lia).
  assert (1 < nN ex_hashed)%nat as H3 by (vm_compute; lia).
  split; [exact H1|]. split; [exact H2|]. split; [exact H3|].
  exact (save_defined_requires ex_hashed ex_file 0 1 H1 H2 H3).
Defined.

Lemma load_unopened_file_witness :
  header_ok (param ex_trained)
  ∧ load None ex_trained
    = if decide (pL (param ex_trained) = 0)
      then Some (mkLsh (param ex_trained) [] [] [] [])
      else None.
Proof.
  split; [exact ex_header_ok|].
  exact (load_unopened_file None ex_trained (or_introl eq_refl) ex_header_ok).
Defined.

Lemma load_establishes_shape_witness :
  load (Some ex_file) (fresh ex_garbage) = Some ex_loaded
  ∧ 1 ≤ pM (param ex_loaded)
  ∧ model_base ex_loaded ∧ all_trained ex_loaded ∧ index_ready ex_loaded.
Proof.
  assert (load (Some ex_file) (fresh ex_garbage) = Some ex_loaded) as H1
    by (vm_compute; reflexivity).
  assert (1 ≤ pM (param ex_loaded)) as H2 by (simpl; lia).
  destruct (load_establishes_shape (Some ex_file) (fresh ex_garbage)
              ex_loaded H1) as (Hb & Ha & Hr).
  split; [exact H1|]. split; [exact H2|]. split; [exact Hb|].
  split; [exact Ha|]. exact (Hr H2).
Defined.

Lemma load_over_existing_witness :
  saveable ex_hashed ∧ save ex_hashed = Some ex_file
  ∧ load (Some ex_file) ex_reset_again
    = Some (mkLsh (with_I (pI (param ex_reset_again)) (param ex_hashed))
              (pcsAll ex_hashed) (omegasAll ex_hashed) (rndArray ex_hashed)
              (zip_with (∪) (tables ex_hashed)
                 (resize (nL ex_hashed) ∅ (tables ex_reset_again)))).
Proof.
  assert (save ex_hashed = Some ex_file) as H1 by (vm_compute; reflexivity).
  split; [exact ex_saveable|]. split; [exact H1|].
  exact (load_over_existing ex_hashed ex_reset_again ex_file ex_saveable H1).
Defined.

Lemma loaded_index_answers_alike_witness :
  saveable ex_hashed ∧ save ex_hashed = Some ex_file
  ∧ load (Some ex_file) (fresh ex_garbage) = Some ex_loaded
  ∧ (∀ k v, getHashVal ex_loaded k v = getHashVal ex_hashed k v)
  ∧ (∀ v, snd <$> query v ex_loaded = snd <$> query v ex_hashed).
Proof.
  assert (save ex_hashed = Some ex_file) as H1 by (vm_compute; reflexivity).
  assert (load (Some ex_file) (fresh ex_garbage) = Some ex_loaded) as H2
    by (vm_compute; reflexivity).
  split; [exact ex_saveable|]. split; [exact H1|]. split; [exact H2|].
  exact (loaded_index_answers_alike ex_hashed ex_file ex_garbage ex_loaded
           ex_saveable H1 H2).
Defined.

Lemma quantize_binary_witness :
  mat_wf ex_Z
  ∧ ∃ UX, quantize ex_Z = Some UX
          ∧ rows UX = rows ex_Z ∧ cols UX = cols ex_Z
          ∧ ∀ i j, (i < rows ex_Z)%nat → (j < cols ex_Z)%nat →
              ∃ z x, coeff ex_Z i j = Some z ∧ coeff UX i j = Some x
                     ∧ is_sign_code x
                     ∧ (x = F32.of_Z 1 ↔ is_positive z).
Proof.
  assert (mat_wf ex_Z) as H1 by (split; [reflexivity|by repeat constructor]).
  split; [exact H1|]. exact (quantize_binary ex_Z H1).
Defined.

Lemma store_transposed_overwrites_witness :
  store_transposed (identity 3) 2 3 ex_stale
  = Some [[F32.of_Z 1; F32.zero; F32.zero]; [F32.zero; F32.of_Z 1; F32.zero]]
  ∧ (∀ i j, (i < 2)%nat → (j < 3)%nat → is_Some (coeff (identity 3) j i))
  ∧ ∃ row, [[F32.of_Z 1; F32.zero; F32.zero]; [F32.zero; F32.of_Z 1; F32.zero]]
             !! 1%nat = Some row
           ∧ row !! 2%nat = coeff (identity 3) 2 1.
Proof.
  assert (store_transposed (identity 3) 2 3 ex_stale
          = Some [[F32.of_Z 1; F32.zero; F32.zero];
                  [F32.zero; F32.of_Z 1; F32.zero]]) as H1
    by (vm_compute; reflexivity).
  assert (1 < 2)%nat as H2 by lia.
  assert (2 < 3)%nat as H3 by lia.
  destruct (store_transposed_overwrites (identity 3) 2 3 ex_stale)
    as (_ & Hdef & Hout).
  split; [exact H1|].
  split; [exact (proj1 Hdef (ex_intro _ _ H1))|].
  exact (Hout _ H1 1%nat 2%nat H2 H3).
Defined.
